(** * rudd: the operation caches of the BDD engine (cache.go)

    A shallow embedding of [cache.go] and the properties its specification
    states about it.  Go's [int] is modelled by [Z]; the only arithmetic the
    file performs on it is a remainder, a quotient and the increment of
    counters, whose wrap-around is written out.  A slice is a [list], read
    and written through bounds-checked accessors that panic exactly where the
    Go runtime does. *)

From Stdlib Require Import ZArith Lia String Ascii.
From stdpp Require Import base numbers option list strings pretty sorting.

Open Scope Z_scope.

(** ** Go runtime behaviour *)

(** The outcome of running a piece of Go code: a normal return, a run-time
    panic (index out of range, integer division by zero, [make] with a
    negative length), or a loop that was still running when the fuel given
    to it ran out. *)
Inductive exec (A : Type) : Type :=
| Done (a : A)
| Panic
| OutOfFuel.

Arguments Done {A} a.
Arguments Panic {A}.
Arguments OutOfFuel {A}.

#[global] Instance exec_ret : MRet exec := fun _ a => Done a.

#[global] Instance exec_bind : MBind exec := fun _ _ f m =>
  match m with
  | Done a => f a
  | Panic => Panic
  | OutOfFuel => OutOfFuel
  end.

#[global] Instance exec_fmap : FMap exec := fun _ _ f m =>
  match m with
  | Done a => Done (f a)
  | Panic => Panic
  | OutOfFuel => OutOfFuel
  end.

Module Go.

(** Two's complement wrap-around of a [w]-bit signed integer. *)
Definition wrap (w x : Z) : Z := (x + 2 ^ (w - 1)) mod 2 ^ w - 2 ^ (w - 1).

Definition MaxInt32 : Z := 2147483647.

(** [len(s)] as an [int]. *)
Definition len {A} (s : list A) : Z := Z.of_nat (length s).

(** [s[i]]: panics when [i] is out of range. *)
Definition index {A} (s : list A) (i : Z) : exec A :=
  if bool_decide (0 ≤ i < len s) then
    match s !! Z.to_nat i with
    | Some x => Done x
    | None => Panic
    end
  else Panic.

(** [s[i] = x]: panics when [i] is out of range. *)
Definition store {A} (s : list A) (i : Z) (x : A) : exec (list A) :=
  if bool_decide (0 ≤ i < len s) then Done (<[Z.to_nat i := x]> s) else Panic.

(** [make([]T, n)], every element the zero value of [T]: panics when [n] is
    negative. *)
Definition make {A} (zero : A) (n : Z) : exec (list A) :=
  if bool_decide (n < 0) then Panic else Done (replicate (Z.to_nat n) zero).

(** [n % d]: truncated remainder (the sign of [n]); panics when [d] is 0. *)
Definition rem (n d : Z) : exec Z :=
  if bool_decide (d = 0) then Panic else Done (Z.rem n d).

End Go.

(** ** External collaborators

    [cache.go] uses, and does not define, the debug switch, the two hash
    functions, the prime search and the operator code of negation.  They are
    parameters of the development. *)
Class Extern := {
  _DEBUG : bool;
  _PAIR : Z → Z → Z → Z;
  _TRIPLE : Z → Z → Z → Z → Z;
  bdd_prime_gte : Z → Z;
  op_not : Z
}.

(** ** Slot records and slot tables *)

Module data4n.

Record t := mk { res : Z; a : Z; b : Z; c : Z }.

(** The zero value of the struct. *)
Definition zero : t := mk 0 0 0 0.

(** [entry.a = -1] *)
Definition invalidate (e : t) : t := mk (res e) (-1) (b e) (c e).

End data4n.

Module data4ncache.

Record t := mk {
  ratio : Z;
  opHit : Z;
  opMiss : Z;
  table : list data4n.t
}.

Definition with_table (bc : t) (tbl : list data4n.t) : t :=
  mk (ratio bc) (opHit bc) (opMiss bc) tbl.

Definition with_ratio (bc : t) (r : Z) : t :=
  mk r (opHit bc) (opMiss bc) (table bc).

(** [bc.opHit++] and [bc.opMiss++] on a 64-bit [int]. *)
Definition hit (bc : t) : t :=
  mk (ratio bc) (Go.wrap 64 (opHit bc + 1)) (opMiss bc) (table bc).

Definition miss (bc : t) : t :=
  mk (ratio bc) (opHit bc) (Go.wrap 64 (opMiss bc + 1)) (table bc).

Definition reset (bc : t) : t :=
  with_table bc (data4n.invalidate <$> table bc).

Section sizing.
Context {E : Extern}.

Definition init (bc : t) (size ratio : Z) : exec t :=
  let size := bdd_prime_gte size in
  tbl ← Go.make data4n.zero size;
  mret (reset (with_ratio (with_table bc tbl) ratio)).

Definition resize (bc : t) (size : Z) : exec t :=
  if bool_decide (ratio bc > 0) then
    let size := bdd_prime_gte (size ÷ ratio bc) in
    tbl ← Go.make data4n.zero size;
    mret (reset (with_table bc tbl))
  else mret (reset bc).

End sizing.

End data4ncache.

Module data3n.

Record t := mk { res : Z; a : Z; c : Z }.

Definition zero : t := mk 0 0 0.

Definition invalidate (e : t) : t := mk (res e) (-1) (c e).

End data3n.

Module data3ncache.

Record t := mk {
  ratio : Z;
  opHit : Z;
  opMiss : Z;
  table : list data3n.t
}.

Definition with_table (bc : t) (tbl : list data3n.t) : t :=
  mk (ratio bc) (opHit bc) (opMiss bc) tbl.

Definition with_ratio (bc : t) (r : Z) : t :=
  mk r (opHit bc) (opMiss bc) (table bc).

Definition hit (bc : t) : t :=
  mk (ratio bc) (Go.wrap 64 (opHit bc + 1)) (opMiss bc) (table bc).

Definition miss (bc : t) : t :=
  mk (ratio bc) (opHit bc) (Go.wrap 64 (opMiss bc + 1)) (table bc).

Definition reset (bc : t) : t :=
  with_table bc (data3n.invalidate <$> table bc).

Section sizing.
Context {E : Extern}.

Definition init (bc : t) (size ratio : Z) : exec t :=
  let size := bdd_prime_gte size in
  tbl ← Go.make data3n.zero size;
  mret (reset (with_ratio (with_table bc tbl) ratio)).

Definition resize (bc : t) (size : Z) : exec t :=
  if bool_decide (ratio bc > 0) then
    let size := bdd_prime_gte (size ÷ ratio bc) in
    tbl ← Go.make data3n.zero size;
    mret (reset (with_table bc tbl))
  else mret (reset bc).

End sizing.

End data3ncache.

(** ** The specialized caches

    Every cache embeds a slot table; the methods of the table are promoted
    to the cache, as in Go.  A lookup returns the value found (or -1) and
    the cache, whose counters it updates when [_DEBUG] is set; an insert
    returns its result argument and the updated cache. *)

Module applycache.

Record t := mk { data4ncache : data4ncache.t; op : Z }.

Definition table (bc : t) : list data4n.t := data4ncache.table (data4ncache bc).

Definition with_cache (bc : t) (d : data4ncache.t) : t := mk d (op bc).

Definition with_op (bc : t) (o : Z) : t := mk (data4ncache bc) o.

Definition reset (bc : t) : t := with_cache bc (data4ncache.reset (data4ncache bc)).

Section ops.
Context {E : Extern}.

Definition init (bc : t) (size ratio : Z) : exec t :=
  d ← data4ncache.init (data4ncache bc) size ratio; mret (with_cache bc d).

Definition resize (bc : t) (size : Z) : exec t :=
  d ← data4ncache.resize (data4ncache bc) size; mret (with_cache bc d).

Definition opHit (bc : t) : t :=
  if _DEBUG then with_cache bc (data4ncache.hit (data4ncache bc)) else bc.

Definition opMiss (bc : t) : t :=
  if _DEBUG then with_cache bc (data4ncache.miss (data4ncache bc)) else bc.

Definition matchapply (bc : t) (left right : Z) : exec (Z * t) :=
  entry ← Go.index (table bc) (_TRIPLE left right (op bc) (Go.len (table bc)));
  if bool_decide (data4n.a entry = left ∧ data4n.b entry = right
                  ∧ data4n.c entry = op bc)
  then mret (data4n.res entry, opHit bc)
  else mret (-1, opMiss bc).

Definition setapply (bc : t) (left right res : Z) : exec (Z * t) :=
  tbl ← Go.store (table bc) (_TRIPLE left right (op bc) (Go.len (table bc)))
        (data4n.mk res left right (op bc));
  mret (res, with_cache bc (data4ncache.with_table (data4ncache bc) tbl)).

Definition matchnot (bc : t) (n : Z) : exec (Z * t) :=
  i ← Go.rem n (Go.len (table bc));
  entry ← Go.index (table bc) i;
  if bool_decide (data4n.a entry = n ∧ data4n.c entry = op_not)
  then mret (data4n.res entry, opHit bc)
  else mret (-1, opMiss bc).

Definition setnot (bc : t) (n res : Z) : exec (Z * t) :=
  i ← Go.rem n (Go.len (table bc));
  tbl ← Go.store (table bc) i (data4n.mk res n 0 op_not);
  mret (res, with_cache bc (data4ncache.with_table (data4ncache bc) tbl)).

End ops.

End applycache.

Module itecache.

Record t := mk { data4ncache : data4ncache.t }.

Definition table (bc : t) : list data4n.t := data4ncache.table (data4ncache bc).

Definition with_cache (bc : t) (d : data4ncache.t) : t := mk d.

Definition reset (bc : t) : t := with_cache bc (data4ncache.reset (data4ncache bc)).

Section ops.
Context {E : Extern}.

Definition init (bc : t) (size ratio : Z) : exec t :=
  d ← data4ncache.init (data4ncache bc) size ratio; mret (with_cache bc d).

Definition resize (bc : t) (size : Z) : exec t :=
  d ← data4ncache.resize (data4ncache bc) size; mret (with_cache bc d).

Definition opHit (bc : t) : t :=
  if _DEBUG then with_cache bc (data4ncache.hit (data4ncache bc)) else bc.

Definition opMiss (bc : t) : t :=
  if _DEBUG then with_cache bc (data4ncache.miss (data4ncache bc)) else bc.

Definition matchite (bc : t) (f g h : Z) : exec (Z * t) :=
  entry ← Go.index (table bc) (_TRIPLE f g h (Go.len (table bc)));
  if bool_decide (data4n.a entry = f ∧ data4n.b entry = g ∧ data4n.c entry = h)
  then mret (data4n.res entry, opHit bc)
  else mret (-1, opMiss bc).

Definition setite (bc : t) (f g h res : Z) : exec (Z * t) :=
  tbl ← Go.store (table bc) (_TRIPLE f g h (Go.len (table bc)))
        (data4n.mk res f g h);
  mret (res, with_cache bc (data4ncache.with_table (data4ncache bc) tbl)).

End ops.

End itecache.

Module quantcache.

Record t := mk { data4ncache : data4ncache.t; id : Z }.

Definition table (bc : t) : list data4n.t := data4ncache.table (data4ncache bc).

Definition with_cache (bc : t) (d : data4ncache.t) : t := mk d (id bc).

Definition with_id (bc : t) (i : Z) : t := mk (data4ncache bc) i.

Definition reset (bc : t) : t := with_cache bc (data4ncache.reset (data4ncache bc)).

Section ops.
Context {E : Extern}.

Definition init (bc : t) (size ratio : Z) : exec t :=
  d ← data4ncache.init (data4ncache bc) size ratio; mret (with_cache bc d).

Definition resize (bc : t) (size : Z) : exec t :=
  d ← data4ncache.resize (data4ncache bc) size; mret (with_cache bc d).

Definition opHit (bc : t) : t :=
  if _DEBUG then with_cache bc (data4ncache.hit (data4ncache bc)) else bc.

Definition opMiss (bc : t) : t :=
  if _DEBUG then with_cache bc (data4ncache.miss (data4ncache bc)) else bc.

Definition matchquant (bc : t) (n varset : Z) : exec (Z * t) :=
  entry ← Go.index (table bc) (_PAIR n varset (Go.len (table bc)));
  if bool_decide (data4n.a entry = n ∧ data4n.b entry = varset
                  ∧ data4n.c entry = id bc)
  then mret (data4n.res entry, opHit bc)
  else mret (-1, opMiss bc).

Definition setquant (bc : t) (n varset res : Z) : exec (Z * t) :=
  tbl ← Go.store (table bc) (_PAIR n varset (Go.len (table bc)))
        (data4n.mk res n varset (id bc));
  mret (res, with_cache bc (data4ncache.with_table (data4ncache bc) tbl)).

End ops.

End quantcache.

Module appexcache.

Record t := mk { data4ncache : data4ncache.t; op : Z; id : Z }.

Definition table (bc : t) : list data4n.t := data4ncache.table (data4ncache bc).

Definition with_cache (bc : t) (d : data4ncache.t) : t := mk d (op bc) (id bc).

Definition with_id (bc : t) (i : Z) : t := mk (data4ncache bc) (op bc) i.

Definition reset (bc : t) : t := with_cache bc (data4ncache.reset (data4ncache bc)).

Section ops.
Context {E : Extern}.

Definition init (bc : t) (size ratio : Z) : exec t :=
  d ← data4ncache.init (data4ncache bc) size ratio; mret (with_cache bc d).

Definition resize (bc : t) (size : Z) : exec t :=
  d ← data4ncache.resize (data4ncache bc) size; mret (with_cache bc d).

Definition opHit (bc : t) : t :=
  if _DEBUG then with_cache bc (data4ncache.hit (data4ncache bc)) else bc.

Definition opMiss (bc : t) : t :=
  if _DEBUG then with_cache bc (data4ncache.miss (data4ncache bc)) else bc.

Definition matchappex (bc : t) (left right : Z) : exec (Z * t) :=
  entry ← Go.index (table bc) (_TRIPLE left right (id bc) (Go.len (table bc)));
  if bool_decide (data4n.a entry = left ∧ data4n.b entry = right
                  ∧ data4n.c entry = id bc)
  then mret (data4n.res entry, opHit bc)
  else mret (-1, opMiss bc).

Definition setappex (bc : t) (left right res : Z) : exec (Z * t) :=
  tbl ← Go.store (table bc) (_TRIPLE left right (id bc) (Go.len (table bc)))
        (data4n.mk res left right (id bc));
  mret (res, with_cache bc (data4ncache.with_table (data4ncache bc) tbl)).

End ops.

End appexcache.

Module replacecache.

Record t := mk { data3ncache : data3ncache.t; id : Z }.

Definition table (bc : t) : list data3n.t := data3ncache.table (data3ncache bc).

Definition with_cache (bc : t) (d : data3ncache.t) : t := mk d (id bc).

Definition with_id (bc : t) (i : Z) : t := mk (data3ncache bc) i.

Definition reset (bc : t) : t := with_cache bc (data3ncache.reset (data3ncache bc)).

Section ops.
Context {E : Extern}.

Definition init (bc : t) (size ratio : Z) : exec t :=
  d ← data3ncache.init (data3ncache bc) size ratio; mret (with_cache bc d).

Definition resize (bc : t) (size : Z) : exec t :=
  d ← data3ncache.resize (data3ncache bc) size; mret (with_cache bc d).

Definition opHit (bc : t) : t :=
  if _DEBUG then with_cache bc (data3ncache.hit (data3ncache bc)) else bc.

Definition opMiss (bc : t) : t :=
  if _DEBUG then with_cache bc (data3ncache.miss (data3ncache bc)) else bc.

Definition matchreplace (bc : t) (n : Z) : exec (Z * t) :=
  i ← Go.rem n (Go.len (table bc));
  entry ← Go.index (table bc) i;
  if bool_decide (data3n.a entry = n ∧ data3n.c entry = id bc)
  then mret (data3n.res entry, opHit bc)
  else mret (-1, opMiss bc).

Definition setreplace (bc : t) (n res : Z) : exec (Z * t) :=
  i ← Go.rem n (Go.len (table bc));
  tbl ← Go.store (table bc) i (data3n.mk res n (id bc));
  mret (res, with_cache bc (data3ncache.with_table (data3ncache bc) tbl)).

End ops.

End replacecache.

(** ** The engine state the cache layer reads and writes

    The struct [buddy] and its node type are declared outside [cache.go];
    the records keep the fields that [cache.go] mentions.  A Go [error] is
    [None] for [nil] and [Some] of its message otherwise. *)

Module buddynode.

Record t := mk { level : Z; low : Z; high : Z }.

End buddynode.

Module buddy.

Record t := mk {
  nodes : list buddynode.t;
  varnum : Z;
  error : option string;
  quantset : list Z;
  quantsetID : Z;
  quantlast : Z;
  applycache : applycache.t;
  itecache : itecache.t;
  quantcache : quantcache.t;
  appexcache : appexcache.t;
  replacecache : replacecache.t
}.

Definition with_error (b : t) (e : option string) : t :=
  mk (nodes b) (varnum b) e (quantset b) (quantsetID b) (quantlast b)
     (applycache b) (itecache b) (quantcache b) (appexcache b) (replacecache b).

Definition with_quantset (b : t) (qs : list Z) : t :=
  mk (nodes b) (varnum b) (error b) qs (quantsetID b) (quantlast b)
     (applycache b) (itecache b) (quantcache b) (appexcache b) (replacecache b).

Definition with_quantsetID (b : t) (i : Z) : t :=
  mk (nodes b) (varnum b) (error b) (quantset b) i (quantlast b)
     (applycache b) (itecache b) (quantcache b) (appexcache b) (replacecache b).

Definition with_quantlast (b : t) (l : Z) : t :=
  mk (nodes b) (varnum b) (error b) (quantset b) (quantsetID b) l
     (applycache b) (itecache b) (quantcache b) (appexcache b) (replacecache b).

Definition with_caches (b : t) (ac : applycache.t) (ic : itecache.t)
    (qc : quantcache.t) (xc : appexcache.t) (rc : replacecache.t) : t :=
  mk (nodes b) (varnum b) (error b) (quantset b) (quantsetID b) (quantlast b)
     ac ic qc xc rc.

(** [seterror] is a method of [buddy] defined outside [cache.go]. *)
Class Kernel := { seterror : t → string → Z → t }.

Definition cachereset (b : t) : t :=
  with_caches b
    (applycache.reset (applycache b))
    (itecache.reset (itecache b))
    (quantcache.reset (quantcache b))
    (appexcache.reset (appexcache b))
    (replacecache.reset (replacecache b)).

Section ops.
Context {E : Extern} {K : Kernel}.

Definition cacheinit (b : t) (size ratio : Z) : exec t :=
  qs ← Go.make 0 0;
  let b := with_quantset b qs in
  let size := if bool_decide (size ≤ 0) then Go.len (nodes b) ÷ 4 + 1 else size in
  let size := bdd_prime_gte size in
  ac ← applycache.init (applycache.mk (data4ncache.mk 0 0 0 []) 0) size ratio;
  ic ← itecache.init (itecache.mk (data4ncache.mk 0 0 0 [])) size ratio;
  qc ← quantcache.init (quantcache.mk (data4ncache.mk 0 0 0 []) 0) size ratio;
  xc ← appexcache.init (appexcache.mk (data4ncache.mk 0 0 0 []) 0 0) size ratio;
  rc ← replacecache.init (replacecache.mk (data3ncache.mk 0 0 0 []) 0) size ratio;
  mret (with_caches b ac ic qc xc rc).

Definition cacheresize (b : t) : exec t :=
  ac ← applycache.resize (applycache b) (Go.len (nodes b));
  ic ← itecache.resize (itecache b) (Go.len (nodes b));
  qc ← quantcache.resize (quantcache b) (Go.len (nodes b));
  xc ← appexcache.resize (appexcache b) (Go.len (nodes b));
  rc ← replacecache.resize (replacecache b) (Go.len (nodes b));
  mret (with_caches b ac ic qc xc rc).

(** The loop of [quantset2cache]; [i] is the loop variable. *)
Fixpoint quantset2cache_loop (fuel : nat) (b : t) (i : Z) : exec t :=
  if bool_decide (i > 1) then
    match fuel with
    | O => OutOfFuel
    | S fuel =>
        nd ← Go.index (nodes b) i;
        qs ← Go.store (quantset b) (buddynode.level nd) (quantsetID b);
        let b := with_quantlast (with_quantset b qs) (buddynode.level nd) in
        quantset2cache_loop fuel b (buddynode.high nd)
    end
  else mret b.

(** The generation step of [quantset2cache]: [b.quantsetID++] on an
    [int32], and the reallocation of the register when the counter reaches
    [math.MaxInt32]. *)
Definition quantset2cache_generation (b : t) : exec t :=
  let b := with_quantsetID b (Go.wrap 32 (quantsetID b + 1)) in
  if bool_decide (quantsetID b = Go.MaxInt32) then
    qs ← Go.make 0 (varnum b);
    mret (with_quantsetID (with_quantset b qs) 1)
  else mret b.

Definition quantset2cache (fuel : nat) (b : t) (n : Z) : exec (option string * t) :=
  if bool_decide (n < 2) then
    let b := seterror b "Illegal variable (%d) in varset to cache" n in
    mret (error b, b)
  else
    b ← quantset2cache_generation b;
    b ← quantset2cache_loop fuel b n;
    mret (None, b).

End ops.

End buddy.

(** ** What the development assumes of the collaborators *)

(** The hash functions map their operands to a slot index of a table of
    [len] slots. *)
Definition hash_in_range {E : Extern} : Prop :=
  (∀ a b len, 0 < len → 0 ≤ _PAIR a b len < len) ∧
  (∀ a b c len, 0 < len → 0 ≤ _TRIPLE a b c len < len).

(** A slot is empty when its first key field holds the sentinel -1. *)
Definition empty4 (tbl : list data4n.t) : Prop :=
  Forall (λ e, data4n.a e = -1) tbl.

Definition empty3 (tbl : list data3n.t) : Prop :=
  Forall (λ e, data3n.a e = -1) tbl.

(** [returns m v]: the call [m] returns the value [v] (in some state). *)
Definition returns {S : Type} (m : exec (Z * S)) (v : Z) : Prop :=
  ∃ s, m = Done (v, s).

(** Every lookup that goes through the slot table [d] misses, whichever
    specialized cache embeds it and whatever its discriminant, for keys of
    node ids: the first key field is not the sentinel, a unary key is not
    negative. *)
Definition misses4 {E : Extern} (d : data4ncache.t) : Prop :=
  (∀ op left right, left ≠ -1 →
     let bc := applycache.mk d op in
     applycache.matchapply bc left right = Done (-1, applycache.opMiss bc))
  ∧ (∀ op n, 0 ≤ n →
     let bc := applycache.mk d op in
     applycache.matchnot bc n = Done (-1, applycache.opMiss bc))
  ∧ (∀ f g h, f ≠ -1 →
     let bc := itecache.mk d in
     itecache.matchite bc f g h = Done (-1, itecache.opMiss bc))
  ∧ (∀ id n varset, n ≠ -1 →
     let bc := quantcache.mk d id in
     quantcache.matchquant bc n varset = Done (-1, quantcache.opMiss bc))
  ∧ (∀ op id left right, left ≠ -1 →
     let bc := appexcache.mk d op id in
     appexcache.matchappex bc left right = Done (-1, appexcache.opMiss bc)).

Definition misses3 {E : Extern} (d : data3ncache.t) : Prop :=
  ∀ id n, 0 ≤ n →
    let bc := replacecache.mk d id in
    replacecache.matchreplace bc n = Done (-1, replacecache.opMiss bc).

(** [d'] is the slot table [d] with every slot emptied and nothing else
    changed: same capacity, ratio and counters, and in every slot the same
    result and tag fields. *)
Definition invalidated4 {E : Extern} (d d' : data4ncache.t) : Prop :=
  Go.len (data4ncache.table d') = Go.len (data4ncache.table d)
  ∧ data4ncache.ratio d' = data4ncache.ratio d
  ∧ data4ncache.opHit d' = data4ncache.opHit d
  ∧ data4ncache.opMiss d' = data4ncache.opMiss d
  ∧ (∀ i e, data4ncache.table d !! i = Some e →
       data4ncache.table d' !! i
       = Some (data4n.mk (data4n.res e) (-1) (data4n.b e) (data4n.c e)))
  ∧ (data4ncache.table d ≠ [] → misses4 d').

Definition invalidated3 {E : Extern} (d d' : data3ncache.t) : Prop :=
  Go.len (data3ncache.table d') = Go.len (data3ncache.table d)
  ∧ data3ncache.ratio d' = data3ncache.ratio d
  ∧ data3ncache.opHit d' = data3ncache.opHit d
  ∧ data3ncache.opMiss d' = data3ncache.opMiss d
  ∧ (∀ i e, data3ncache.table d !! i = Some e →
       data3ncache.table d' !! i
       = Some (data3n.mk (data3n.res e) (-1) (data3n.c e)))
  ∧ (data3ncache.table d ≠ [] → misses3 d').

(** Modelled from the spec: [bdd_prime_gte], the prime search that sizes the
    tables, is defined outside [cache.go]; the specification has it return
    the smallest prime that is at least its argument. *)
Definition smallest_prime_ge (n p : Z) : Prop :=
  Z.prime p ∧ n ≤ p ∧ ∀ q, Z.prime q → n ≤ q → p ≤ q.

(** ** The variable-set chain

    [chain nodes i path]: started at [i], the loop of [quantset2cache]
    visits the nodes [path] in this order, following the [high] links, and
    stops at a terminal. *)
Inductive chain (nodes : list buddynode.t) : Z → list buddynode.t → Prop :=
| chain_stop i : i ≤ 1 → chain nodes i []
| chain_step i nd path :
    1 < i → Go.index nodes i = Done nd →
    chain nodes (buddynode.high nd) path →
    chain nodes i (nd :: path).

(** The register after the levels [ls] were marked with [id], first to
    last. *)
Definition mark (qs : list Z) (id : Z) (ls : list Z) : list Z :=
  foldl (λ qs l, <[Z.to_nat l := id]> qs) qs ls.

(** What [quantset2cache] relies on for the chain head [n]: the register
    has one entry per variable, and the chain from [n] ends, through nodes
    whose levels are levels of variables. *)
Definition varset_ok (b : buddy.t) (n : Z) (path : list buddynode.t) : Prop :=
  Go.len (buddy.quantset b) = buddy.varnum b
  ∧ chain (buddy.nodes b) n path
  ∧ Forall (λ nd, 0 ≤ buddynode.level nd < buddy.varnum b) path.

(** The order of a decision diagram: a node is above its [high] child. *)
Definition ordered (nodes : list buddynode.t) : Prop :=
  ∀ i nd c, Go.index nodes i = Done nd → 1 < buddynode.high nd →
    Go.index nodes (buddynode.high nd) = Done c →
    buddynode.level nd < buddynode.level c.

(** [seterror] leaves an error on the engine, and touches nothing else. *)
Definition seterror_records {K : buddy.Kernel} : Prop :=
  ∀ b f n, buddy.error (buddy.seterror b f n) ≠ None.

Definition seterror_frame {K : buddy.Kernel} : Prop :=
  ∀ b f n, buddy.seterror b f n
           = buddy.with_error b (buddy.error (buddy.seterror b f n)).

(** ** A concrete set of collaborators

    Used to run the definitions on concrete inputs: Cantor's pairing
    function reduced modulo the table length for the hashes, and a search
    for the next prime by trial division. *)

Definition cantor (a b : Z) : Z := ((a + b) * (a + b + 1)) `div` 2 + a.

Definition is_prime (p : Z) : bool :=
  bool_decide (1 < p) && forallb (λ d, negb (p `mod` d =? 0)) (seqZ 2 (p - 2)).

Definition next_prime (n : Z) : Z :=
  let m := Z.max n 2 in default 2 (List.find is_prime (seqZ m m)).

Definition sample : Extern := {|
  _DEBUG := true;
  _PAIR a b len := cantor a b `mod` len;
  _TRIPLE a b c len := cantor c (cantor a b `mod` len) `mod` len;
  bdd_prime_gte := next_prime;
  op_not := 10
|}.

(** A table of [n] slots as [make] allocates it. *)
Definition fresh4 (n : nat) : data4ncache.t :=
  data4ncache.mk 0 0 0 (replicate n data4n.zero).

Definition fresh3 (n : nat) : data3ncache.t :=
  data3ncache.mk 0 0 0 (replicate n data3n.zero).

Definition sample_kernel : buddy.Kernel :=
  {| buddy.seterror b f n := buddy.with_error b (Some f) |}.

(** An engine of eight variables.  Node 4 heads the chain of the variable
    set of levels 2, 4 and 7; node 6 heads the one of levels 4 and 6. *)
Definition sample_nodes : list buddynode.t :=
  [ buddynode.mk 8 0 0; buddynode.mk 8 1 1;
    buddynode.mk 7 0 1; buddynode.mk 4 0 2; buddynode.mk 2 0 3;
    buddynode.mk 6 0 1; buddynode.mk 4 0 5 ].

Definition sample_buddy : buddy.t :=
  buddy.mk sample_nodes 8 None (replicate 8 0) 0 0
    (applycache.mk (fresh4 7) 0) (itecache.mk (fresh4 7))
    (quantcache.mk (fresh4 7) 0) (appexcache.mk (fresh4 7) 0 0)
    (replacecache.mk (fresh3 7) 0).

(** The same engine when the generation counter is about to reach
    [math.MaxInt32], the levels 2, 4 and 7 marked by the last call. *)
Definition sample_buddy_late : buddy.t :=
  buddy.with_quantsetID
    (buddy.with_quantset sample_buddy
       [0; 0; 2147483646; 0; 2147483646; 0; 0; 2147483646])
    2147483646.

Definition sample_path4 : list buddynode.t :=
  [buddynode.mk 2 0 3; buddynode.mk 4 0 2; buddynode.mk 7 0 1].

Definition sample_path6 : list buddynode.t :=
  [buddynode.mk 4 0 5; buddynode.mk 6 0 1].

(** A node table that is not ordered: node 3, of level 5, has the node of
    level 3 for [high] child.  [quantset2cache] does not look at the order,
    and walks the chain from node 3 through the levels 5 and 3. *)
Definition unordered_nodes : list buddynode.t :=
  [ buddynode.mk 8 0 0; buddynode.mk 8 1 1;
    buddynode.mk 3 0 1; buddynode.mk 5 0 2 ].

Definition unordered_buddy : buddy.t :=
  buddy.mk unordered_nodes 8 None (replicate 8 0) 0 0
    (applycache.mk (fresh4 7) 0) (itecache.mk (fresh4 7))
    (quantcache.mk (fresh4 7) 0) (appexcache.mk (fresh4 7) 0 0)
    (replacecache.mk (fresh3 7) 0).

Definition unordered_path : list buddynode.t :=
  [buddynode.mk 5 0 2; buddynode.mk 3 0 1].

(** ** Memoization

    A table memoizes a function when every live slot holds the value of the
    function at the key and tag stored in the slot.  The table of the apply
    cache holds the results of two functions, told apart by the tag
    [op_not]. *)
Definition memo4 (F : Z → Z → Z → Z) (tbl : list data4n.t) : Prop :=
  Forall (λ e, data4n.a e ≠ -1 →
               data4n.res e = F (data4n.a e) (data4n.b e) (data4n.c e)) tbl.

Definition memo3 (F : Z → Z → Z) (tbl : list data3n.t) : Prop :=
  Forall (λ e, data3n.a e ≠ -1 →
               data3n.res e = F (data3n.a e) (data3n.c e)) tbl.

Definition memo_apply {E : Extern} (Fapply : Z → Z → Z → Z) (Fnot : Z → Z)
    (tbl : list data4n.t) : Prop :=
  Forall (λ e, data4n.a e ≠ -1 →
               (data4n.c e = op_not → data4n.res e = Fnot (data4n.a e))
               ∧ (data4n.c e ≠ op_not →
                  data4n.res e
                  = Fapply (data4n.a e) (data4n.b e) (data4n.c e))) tbl.

(** [d'] is the slot table [d] after one lookup: the slots and the ratio
    are the same; when [_DEBUG] is set one of the two counters went up by
    one, and otherwise nothing changed. *)
Definition counted4 {E : Extern} (d d' : data4ncache.t) : Prop :=
  data4ncache.table d' = data4ncache.table d
  ∧ data4ncache.ratio d' = data4ncache.ratio d
  ∧ if _DEBUG then
      (data4ncache.opHit d' = Go.wrap 64 (data4ncache.opHit d + 1)
       ∧ data4ncache.opMiss d' = data4ncache.opMiss d)
      ∨ (data4ncache.opHit d' = data4ncache.opHit d
         ∧ data4ncache.opMiss d' = Go.wrap 64 (data4ncache.opMiss d + 1))
    else d' = d.

Definition counted3 {E : Extern} (d d' : data3ncache.t) : Prop :=
  data3ncache.table d' = data3ncache.table d
  ∧ data3ncache.ratio d' = data3ncache.ratio d
  ∧ if _DEBUG then
      (data3ncache.opHit d' = Go.wrap 64 (data3ncache.opHit d + 1)
       ∧ data3ncache.opMiss d' = data3ncache.opMiss d)
      ∨ (data3ncache.opHit d' = data3ncache.opHit d
         ∧ data3ncache.opMiss d' = Go.wrap 64 (data3ncache.opMiss d + 1))
    else d' = d.

(** [d'] is what [resize size] makes of the slot table [d]: every slot is
    empty, the ratio and the counters are kept, and the capacity is what the
    prime search returns for [size / ratio] when the ratio is positive, the
    old capacity otherwise. *)
Definition resized4 {E : Extern} (size : Z) (d d' : data4ncache.t) : Prop :=
  empty4 (data4ncache.table d')
  ∧ data4ncache.ratio d' = data4ncache.ratio d
  ∧ data4ncache.opHit d' = data4ncache.opHit d
  ∧ data4ncache.opMiss d' = data4ncache.opMiss d
  ∧ Go.len (data4ncache.table d')
    = (if bool_decide (data4ncache.ratio d > 0)
       then bdd_prime_gte (size ÷ data4ncache.ratio d)
       else Go.len (data4ncache.table d)).

Definition resized3 {E : Extern} (size : Z) (d d' : data3ncache.t) : Prop :=
  empty3 (data3ncache.table d')
  ∧ data3ncache.ratio d' = data3ncache.ratio d
  ∧ data3ncache.opHit d' = data3ncache.opHit d
  ∧ data3ncache.opMiss d' = data3ncache.opMiss d
  ∧ Go.len (data3ncache.table d')
    = (if bool_decide (data3ncache.ratio d > 0)
       then bdd_prime_gte (size ÷ data3ncache.ratio d)
       else Go.len (data3ncache.table d)).

(** The size [cacheinit] starts from: the one asked for, or a quarter of the
    node table plus one when none is asked for. *)
Definition cacheinit_size (b : buddy.t) (size : Z) : Z :=
  if bool_decide (size ≤ 0) then Go.len (buddy.nodes b) ÷ 4 + 1 else size.

(** The empty slot tables of [p] slots, with their counters at zero. *)
Definition blank4 (ratio p : Z) : data4ncache.t :=
  data4ncache.mk ratio 0 0 (replicate (Z.to_nat p) (data4n.mk 0 (-1) 0 0)).

Definition blank3 (ratio p : Z) : data3ncache.t :=
  data3ncache.mk ratio 0 0 (replicate (Z.to_nat p) (data3n.mk 0 (-1) 0)).

(** The register agrees with its counter: the counter is a generation the
    next increment will not wrap past, and every mark is a generation
    already used. *)
Definition register_ok (b : buddy.t) : Prop :=
  0 ≤ buddy.quantsetID b < Go.MaxInt32
  ∧ Forall (λ g, 0 ≤ g ≤ buddy.quantsetID b) (buddy.quantset b).

(** [b'] is [b] but for the register, the generation counter and
    [quantlast]. *)
Definition same_engine (b b' : buddy.t) : Prop :=
  buddy.nodes b' = buddy.nodes b
  ∧ buddy.varnum b' = buddy.varnum b
  ∧ buddy.error b' = buddy.error b
  ∧ buddy.applycache b' = buddy.applycache b
  ∧ buddy.itecache b' = buddy.itecache b
  ∧ buddy.quantcache b' = buddy.quantcache b
  ∧ buddy.appexcache b' = buddy.appexcache b
  ∧ buddy.replacecache b' = buddy.replacecache b.

(** ** Statistics of the unique node table *)

(** The character that ["\n"] denotes in a Go string. *)
Definition newline : ascii := ascii_of_nat 10.

Module cacheStat.

Record t := mk {
  uniqueAccess : Z;
  uniqueChain : Z;
  uniqueHit : Z;
  uniqueMiss : Z
}.

(** [fmt.Sprintf(label + "%d\n", x)]: the label, [x] in decimal, a
    newline. *)
Definition Sprintf (label : string) (x : Z) : string :=
  label +:+ pretty x +:+ String newline "".

Definition String (c : t) : string :=
  let res := Sprintf "Unique Access:  " (uniqueAccess c) in
  let res := res +:+ Sprintf "Unique Chain:   " (uniqueChain c) in
  let res := res +:+ Sprintf "Unique Hit:     " (uniqueHit c) in
  let res := res +:+ Sprintf "Unique Miss:    " (uniqueMiss c) in
  res.

End cacheStat.

(** The number of newlines of a string. *)
Fixpoint newlines (s : string) : nat :=
  match s with
  | EmptyString => 0
  | String c s => (if Ascii.eqb c newline then 1 else 0) + newlines s
  end.

(** * Properties *)

(** ** Slices *)

Section slices.
Context {A : Type}.
Implicit Types (s : list A) (i j : Z) (x : A).

Lemma len_nonneg s : 0 ≤ Go.len s.
Proof. unfold Go.len. lia. Qed.

Lemma len_pos s : s ≠ [] → 0 < Go.len s.
Proof. unfold Go.len. destruct s; [done | simpl; lia]. Qed.

Lemma len_insert s (k : nat) x : Go.len (<[k := x]> s) = Go.len s.
Proof. unfold Go.len. by rewrite length_insert. Qed.

Lemma len_replicate (n : Z) x : 0 ≤ n → Go.len (replicate (Z.to_nat n) x) = n.
Proof. intros Hn. unfold Go.len. rewrite length_replicate. lia. Qed.

Lemma index_in_range s i :
  0 ≤ i < Go.len s → ∃ x, s !! Z.to_nat i = Some x ∧ Go.index s i = Done x.
Proof.
  intros Hi. unfold Go.index. rewrite bool_decide_eq_true_2 by done.
  destruct (lookup_lt_is_Some_2 s (Z.to_nat i)) as [x Hx].
  { unfold Go.len in Hi. lia. }
  exists x. by rewrite Hx.
Qed.

Lemma index_out_of_range s i : ¬ (0 ≤ i < Go.len s) → Go.index s i = Panic.
Proof. intros Hi. unfold Go.index. by rewrite bool_decide_eq_false_2. Qed.

Lemma index_Done s i x :
  Go.index s i = Done x → 0 ≤ i < Go.len s ∧ s !! Z.to_nat i = Some x.
Proof.
  unfold Go.index. case_bool_decide; [| done].
  destruct (s !! Z.to_nat i) eqn:E; [| done]. intros [= ->]. done.
Qed.

Lemma store_in_range s i x :
  0 ≤ i < Go.len s → Go.store s i x = Done (<[Z.to_nat i := x]> s).
Proof. intros Hi. unfold Go.store. by rewrite bool_decide_eq_true_2. Qed.

Lemma store_out_of_range s i x : ¬ (0 ≤ i < Go.len s) → Go.store s i x = Panic.
Proof. intros Hi. unfold Go.store. by rewrite bool_decide_eq_false_2. Qed.

Lemma index_insert_eq s i x :
  0 ≤ i < Go.len s → Go.index (<[Z.to_nat i := x]> s) i = Done x.
Proof.
  intros Hi. unfold Go.index. rewrite len_insert, bool_decide_eq_true_2 by done.
  rewrite list_lookup_insert_eq; [done |]. unfold Go.len in Hi. lia.
Qed.

Lemma index_insert_ne s i j x :
  0 ≤ i → 0 ≤ j → i ≠ j → Go.index (<[Z.to_nat i := x]> s) j = Go.index s j.
Proof.
  intros Hi Hj Hne. unfold Go.index. rewrite len_insert.
  rewrite list_lookup_insert_ne; [done | lia].
Qed.

Lemma rem_in_range n d : 0 ≤ n → 0 < d → 0 ≤ Z.rem n d < d.
Proof. intros Hn Hd. apply Z.rem_bound_pos; lia. Qed.

End slices.

Lemma len_fmap {A B} (f : A → B) (s : list A) : Go.len (f <$> s) = Go.len s.
Proof. unfold Go.len. by rewrite length_fmap. Qed.

Lemma index_fmap {A B} (f : A → B) (s : list A) i x :
  Go.index s i = Done x → Go.index (f <$> s) i = Done (f x).
Proof.
  intros [Hi Hx]%index_Done. unfold Go.index.
  rewrite len_fmap, bool_decide_eq_true_2 by done.
  by rewrite list_lookup_fmap, Hx.
Qed.

(** ** Emptied tables *)

Lemma empty4_invalidate tbl : empty4 (data4n.invalidate <$> tbl).
Proof. unfold empty4. rewrite Forall_fmap. by apply Forall_true. Qed.

Lemma empty3_invalidate tbl : empty3 (data3n.invalidate <$> tbl).
Proof. unfold empty3. rewrite Forall_fmap. by apply Forall_true. Qed.

Lemma empty4_index tbl i e : empty4 tbl → Go.index tbl i = Done e → data4n.a e = -1.
Proof.
  intros Hall [_ He]%index_Done.
  by apply (Forall_lookup_1 _ _ _ _ Hall He).
Qed.

Lemma empty3_index tbl i e : empty3 tbl → Go.index tbl i = Done e → data3n.a e = -1.
Proof.
  intros Hall [_ He]%index_Done.
  by apply (Forall_lookup_1 _ _ _ _ Hall He).
Qed.

(** ** Lookups and inserts of the specialized caches *)

Section caches.
Context {E : Extern}.
Hypothesis Hhash : hash_in_range.

Lemma triple_slot {A} (s : list A) a b c :
  s ≠ [] → 0 ≤ _TRIPLE a b c (Go.len s) < Go.len s.
Proof. intros Hs. apply Hhash. by apply len_pos. Qed.

Lemma pair_slot {A} (s : list A) a b :
  s ≠ [] → 0 ≤ _PAIR a b (Go.len s) < Go.len s.
Proof. intros Hs. apply Hhash. by apply len_pos. Qed.

(** *** Insert, then look the same key up *)

Lemma setapply_then_matchapply bc left right r :
  applycache.table bc ≠ [] →
  ∃ bc', applycache.setapply bc left right r = Done (r, bc')
       ∧ applycache.op bc' = applycache.op bc
       ∧ applycache.matchapply bc' left right = Done (r, applycache.opHit bc').
Proof.
  intros Hne. pose proof (triple_slot _ left right (applycache.op bc) Hne) as Hi.
  eexists. split; [| split].
  - unfold applycache.setapply. rewrite store_in_range by done. reflexivity.
  - reflexivity.
  - unfold applycache.matchapply, applycache.table. simpl.
    rewrite len_insert, index_insert_eq by done. simpl.
    by rewrite bool_decide_eq_true_2.
Qed.

Lemma setite_then_matchite bc f g h r :
  itecache.table bc ≠ [] →
  ∃ bc', itecache.setite bc f g h r = Done (r, bc')
       ∧ itecache.matchite bc' f g h = Done (r, itecache.opHit bc').
Proof.
  intros Hne. pose proof (triple_slot _ f g h Hne) as Hi.
  eexists. split.
  - unfold itecache.setite. rewrite store_in_range by done. reflexivity.
  - unfold itecache.matchite, itecache.table. simpl.
    rewrite len_insert, index_insert_eq by done. simpl.
    by rewrite bool_decide_eq_true_2.
Qed.

Lemma setquant_then_matchquant bc n varset r :
  quantcache.table bc ≠ [] →
  ∃ bc', quantcache.setquant bc n varset r = Done (r, bc')
       ∧ quantcache.id bc' = quantcache.id bc
       ∧ quantcache.matchquant bc' n varset = Done (r, quantcache.opHit bc').
Proof.
  intros Hne. pose proof (pair_slot _ n varset Hne) as Hi.
  eexists. split; [| split].
  - unfold quantcache.setquant. rewrite store_in_range by done. reflexivity.
  - reflexivity.
  - unfold quantcache.matchquant, quantcache.table. simpl.
    rewrite len_insert, index_insert_eq by done. simpl.
    by rewrite bool_decide_eq_true_2.
Qed.

Lemma setappex_then_matchappex bc left right r :
  appexcache.table bc ≠ [] →
  ∃ bc', appexcache.setappex bc left right r = Done (r, bc')
       ∧ appexcache.id bc' = appexcache.id bc
       ∧ appexcache.matchappex bc' left right = Done (r, appexcache.opHit bc').
Proof.
  intros Hne. pose proof (triple_slot _ left right (appexcache.id bc) Hne) as Hi.
  eexists. split; [| split].
  - unfold appexcache.setappex. rewrite store_in_range by done. reflexivity.
  - reflexivity.
  - unfold appexcache.matchappex, appexcache.table. simpl.
    rewrite len_insert, index_insert_eq by done. simpl.
    by rewrite bool_decide_eq_true_2.
Qed.

End caches.

(** The unary caches compute their slot themselves, by a remainder. *)

Lemma rem_Done {A} (s : list A) n :
  s ≠ [] → Go.rem n (Go.len s) = Done (Z.rem n (Go.len s)).
Proof.
  intros Hs%len_pos. unfold Go.rem. rewrite bool_decide_eq_false_2; [done | lia].
Qed.

Lemma rem_slot {A} (s : list A) n :
  s ≠ [] → 0 ≤ n → 0 ≤ Z.rem n (Go.len s) < Go.len s.
Proof. intros Hs%len_pos Hn. by apply rem_in_range. Qed.

Section unary.
Context {E : Extern}.

Lemma setnot_then_matchnot bc n r :
  applycache.table bc ≠ [] → 0 ≤ n →
  ∃ bc', applycache.setnot bc n r = Done (r, bc')
       ∧ applycache.matchnot bc' n = Done (r, applycache.opHit bc').
Proof.
  intros Hne Hn. pose proof (rem_slot _ n Hne Hn) as Hi.
  eexists. split.
  - unfold applycache.setnot. rewrite rem_Done by done. simpl.
    rewrite store_in_range by done. reflexivity.
  - unfold applycache.matchnot, applycache.table. simpl.
    rewrite len_insert. rewrite rem_Done by done. simpl.
    rewrite index_insert_eq by done. simpl.
    by rewrite bool_decide_eq_true_2.
Qed.

Lemma setreplace_then_matchreplace bc n r :
  replacecache.table bc ≠ [] → 0 ≤ n →
  ∃ bc', replacecache.setreplace bc n r = Done (r, bc')
       ∧ replacecache.id bc' = replacecache.id bc
       ∧ replacecache.matchreplace bc' n = Done (r, replacecache.opHit bc').
Proof.
  intros Hne Hn. pose proof (rem_slot _ n Hne Hn) as Hi.
  eexists. split; [| split].
  - unfold replacecache.setreplace. rewrite rem_Done by done. simpl.
    rewrite store_in_range by done. reflexivity.
  - reflexivity.
  - unfold replacecache.matchreplace, replacecache.table. simpl.
    rewrite len_insert. rewrite rem_Done by done. simpl.
    rewrite index_insert_eq by done. simpl.
    by rewrite bool_decide_eq_true_2.
Qed.

End unary.

Lemma sample_hash_in_range : hash_in_range (E := sample).
Proof. split; intros; simpl; apply Z.mod_pos_bound; lia. Qed.

(** ** Soundness of the caches *)

(** C1. On a non-empty table, an insert returns its result argument and an
    immediate lookup of the same key under the same discriminant returns the
    inserted result, for the apply, ite, quant, appex and replace caches
    (a replace key, which is its own slot number, is a node id: not
    negative). *)
Theorem insert_then_lookup {E : Extern} :
  hash_in_range →
  (∀ bc left right r, applycache.table bc ≠ [] →
     ∃ bc', applycache.setapply bc left right r = Done (r, bc')
          ∧ applycache.op bc' = applycache.op bc
          ∧ applycache.matchapply bc' left right = Done (r, applycache.opHit bc'))
  ∧ (∀ bc f g h r, itecache.table bc ≠ [] →
     ∃ bc', itecache.setite bc f g h r = Done (r, bc')
          ∧ itecache.matchite bc' f g h = Done (r, itecache.opHit bc'))
  ∧ (∀ bc n varset r, quantcache.table bc ≠ [] →
     ∃ bc', quantcache.setquant bc n varset r = Done (r, bc')
          ∧ quantcache.id bc' = quantcache.id bc
          ∧ quantcache.matchquant bc' n varset = Done (r, quantcache.opHit bc'))
  ∧ (∀ bc left right r, appexcache.table bc ≠ [] →
     ∃ bc', appexcache.setappex bc left right r = Done (r, bc')
          ∧ appexcache.id bc' = appexcache.id bc
          ∧ appexcache.matchappex bc' left right = Done (r, appexcache.opHit bc'))
  ∧ (∀ bc n r, replacecache.table bc ≠ [] → 0 ≤ n →
     ∃ bc', replacecache.setreplace bc n r = Done (r, bc')
          ∧ replacecache.id bc' = replacecache.id bc
          ∧ replacecache.matchreplace bc' n = Done (r, replacecache.opHit bc')).
Proof.
  intros Hhash. repeat split; intros.
  - by apply setapply_then_matchapply.
  - by apply setite_then_matchite.
  - by apply setquant_then_matchquant.
  - by apply setappex_then_matchappex.
  - by apply setreplace_then_matchreplace.
Qed.

Lemma insert_then_lookup_witness :
  let ac := applycache.mk (fresh4 7) 0 in
  let rc := replacecache.mk (fresh3 7) 4 in
  (∃ bc', applycache.setapply (E := sample) ac 3 5 9 = Done (9, bc')
        ∧ applycache.op bc' = 0
        ∧ applycache.matchapply (E := sample) bc' 3 5
          = Done (9, applycache.opHit (E := sample) bc'))
  ∧ (∃ bc', replacecache.setreplace rc 12 8 = Done (8, bc')
        ∧ replacecache.id bc' = 4
        ∧ replacecache.matchreplace (E := sample) bc' 12
          = Done (8, replacecache.opHit (E := sample) bc')).
Proof.
  intros ac rc.
  destruct (@insert_then_lookup sample sample_hash_in_range)
    as (Hap & _ & _ & _ & Hrp).
  split.
  - apply (Hap ac 3 5 9). discriminate.
  - apply (Hrp rc 12 8); [discriminate | lia].
Defined.

(** ** Lookups in an emptied table *)

Section misses.
Context {E : Extern}.
Hypothesis Hhash : hash_in_range.

Lemma matchapply_empty bc left right :
  applycache.table bc ≠ [] → empty4 (applycache.table bc) → left ≠ -1 →
  applycache.matchapply bc left right = Done (-1, applycache.opMiss bc).
Proof.
  intros Hne Hemp Hl.
  destruct (index_in_range (applycache.table bc) _
              (triple_slot Hhash _ left right (applycache.op bc) Hne))
    as (e & _ & He).
  unfold applycache.matchapply. rewrite He. simpl.
  rewrite bool_decide_eq_false_2; [done |].
  intros (Ha & _). apply Hl. rewrite <- Ha. by eapply empty4_index.
Qed.

Lemma matchite_empty bc f g h :
  itecache.table bc ≠ [] → empty4 (itecache.table bc) → f ≠ -1 →
  itecache.matchite bc f g h = Done (-1, itecache.opMiss bc).
Proof.
  intros Hne Hemp Hf.
  destruct (index_in_range (itecache.table bc) _
              (triple_slot Hhash _ f g h Hne)) as (e & _ & He).
  unfold itecache.matchite. rewrite He. simpl.
  rewrite bool_decide_eq_false_2; [done |].
  intros (Ha & _). apply Hf. rewrite <- Ha. by eapply empty4_index.
Qed.

Lemma matchquant_empty bc n varset :
  quantcache.table bc ≠ [] → empty4 (quantcache.table bc) → n ≠ -1 →
  quantcache.matchquant bc n varset = Done (-1, quantcache.opMiss bc).
Proof.
  intros Hne Hemp Hn.
  destruct (index_in_range (quantcache.table bc) _
              (pair_slot Hhash _ n varset Hne)) as (e & _ & He).
  unfold quantcache.matchquant. rewrite He. simpl.
  rewrite bool_decide_eq_false_2; [done |].
  intros (Ha & _). apply Hn. rewrite <- Ha. by eapply empty4_index.
Qed.

Lemma matchappex_empty bc left right :
  appexcache.table bc ≠ [] → empty4 (appexcache.table bc) → left ≠ -1 →
  appexcache.matchappex bc left right = Done (-1, appexcache.opMiss bc).
Proof.
  intros Hne Hemp Hl.
  destruct (index_in_range (appexcache.table bc) _
              (triple_slot Hhash _ left right (appexcache.id bc) Hne))
    as (e & _ & He).
  unfold appexcache.matchappex. rewrite He. simpl.
  rewrite bool_decide_eq_false_2; [done |].
  intros (Ha & _). apply Hl. rewrite <- Ha. by eapply empty4_index.
Qed.

End misses.

Section unary_misses.
Context {E : Extern}.

Lemma matchnot_empty bc n :
  applycache.table bc ≠ [] → empty4 (applycache.table bc) → 0 ≤ n →
  applycache.matchnot bc n = Done (-1, applycache.opMiss bc).
Proof.
  intros Hne Hemp Hn.
  destruct (index_in_range (applycache.table bc) _ (rem_slot _ n Hne Hn))
    as (e & _ & He).
  unfold applycache.matchnot. rewrite rem_Done by done. simpl.
  rewrite He. simpl. rewrite bool_decide_eq_false_2; [done |].
  intros (Ha & _). pose proof (empty4_index _ _ _ Hemp He). lia.
Qed.

Lemma matchreplace_empty bc n :
  replacecache.table bc ≠ [] → empty3 (replacecache.table bc) → 0 ≤ n →
  replacecache.matchreplace bc n = Done (-1, replacecache.opMiss bc).
Proof.
  intros Hne Hemp Hn.
  destruct (index_in_range (replacecache.table bc) _ (rem_slot _ n Hne Hn))
    as (e & _ & He).
  unfold replacecache.matchreplace. rewrite rem_Done by done. simpl.
  rewrite He. simpl. rewrite bool_decide_eq_false_2; [done |].
  intros (Ha & _). pose proof (empty3_index _ _ _ Hemp He). lia.
Qed.

End unary_misses.

(** [reset] empties a table and keeps its length. *)

Lemma reset4_empty bc : empty4 (data4ncache.table (data4ncache.reset bc)).
Proof. apply empty4_invalidate. Qed.

Lemma reset3_empty bc : empty3 (data3ncache.table (data3ncache.reset bc)).
Proof. apply empty3_invalidate. Qed.

Lemma reset4_len bc :
  Go.len (data4ncache.table (data4ncache.reset bc)) = Go.len (data4ncache.table bc).
Proof. apply len_fmap. Qed.

Lemma reset3_len bc :
  Go.len (data3ncache.table (data3ncache.reset bc)) = Go.len (data3ncache.table bc).
Proof. apply len_fmap. Qed.

Lemma fmap_nonempty {A B} (f : A → B) (s : list A) : s ≠ [] → f <$> s ≠ [].
Proof. by destruct s. Qed.

(** C3. [reset] keeps the capacity of a slot table, and after it every
    lookup of a key of node ids (the first key field is not the sentinel -1;
    a unary key is not negative) misses, whatever the discriminant. *)
Theorem reset_completeness {E : Extern} :
  hash_in_range →
  (∀ bc, Go.len (data4ncache.table (data4ncache.reset bc))
         = Go.len (data4ncache.table bc))
  ∧ (∀ bc, Go.len (data3ncache.table (data3ncache.reset bc))
           = Go.len (data3ncache.table bc))
  ∧ (∀ bc d left right, applycache.table bc ≠ [] → left ≠ -1 →
       let bc' := applycache.with_op (applycache.reset bc) d in
       applycache.matchapply bc' left right = Done (-1, applycache.opMiss bc'))
  ∧ (∀ bc n, applycache.table bc ≠ [] → 0 ≤ n →
       let bc' := applycache.reset bc in
       applycache.matchnot bc' n = Done (-1, applycache.opMiss bc'))
  ∧ (∀ bc f g h, itecache.table bc ≠ [] → f ≠ -1 →
       let bc' := itecache.reset bc in
       itecache.matchite bc' f g h = Done (-1, itecache.opMiss bc'))
  ∧ (∀ bc d n varset, quantcache.table bc ≠ [] → n ≠ -1 →
       let bc' := quantcache.with_id (quantcache.reset bc) d in
       quantcache.matchquant bc' n varset = Done (-1, quantcache.opMiss bc'))
  ∧ (∀ bc d left right, appexcache.table bc ≠ [] → left ≠ -1 →
       let bc' := appexcache.with_id (appexcache.reset bc) d in
       appexcache.matchappex bc' left right = Done (-1, appexcache.opMiss bc'))
  ∧ (∀ bc d n, replacecache.table bc ≠ [] → 0 ≤ n →
       let bc' := replacecache.with_id (replacecache.reset bc) d in
       replacecache.matchreplace bc' n = Done (-1, replacecache.opMiss bc')).
Proof.
  intros Hhash. split; [apply reset4_len |]. split; [apply reset3_len |].
  repeat split; intros.
  - apply matchapply_empty; [done | by apply fmap_nonempty | apply reset4_empty | done].
  - apply matchnot_empty; [by apply fmap_nonempty | apply reset4_empty | done].
  - apply matchite_empty; [done | by apply fmap_nonempty | apply reset4_empty | done].
  - apply matchquant_empty; [done | by apply fmap_nonempty | apply reset4_empty | done].
  - apply matchappex_empty; [done | by apply fmap_nonempty | apply reset4_empty | done].
  - apply matchreplace_empty; [by apply fmap_nonempty | apply reset3_empty | done].
Qed.

Lemma reset_completeness_witness :
  let bc := applycache.mk
              (data4ncache.mk 0 0 0 [data4n.mk 9 3 5 0; data4n.mk 4 1 1 2]) 0 in
  let bc' := applycache.with_op (applycache.reset bc) 0 in
  (applycache.table bc ≠ [] ∧ 3 ≠ -1)
  ∧ Go.len (applycache.table bc') = 2
  ∧ applycache.matchapply (E := sample) bc' 3 5
    = Done (-1, applycache.opMiss (E := sample) bc').
Proof.
  intros bc bc'.
  destruct (@reset_completeness sample sample_hash_in_range)
    as (Hlen & _ & Hap & _).
  split; [split; [discriminate | lia] |]. split.
  - apply (Hlen (applycache.data4ncache bc)).
  - apply (Hap bc 0 3 5); [discriminate | lia].
Defined.

(** ** Discriminant isolation *)

Section isolation.
Context {E : Extern}.
Hypothesis Hhash : hash_in_range.




(** Where the two discriminants send the key to different slots, the
    insert under [d1] leaves the answer under [d2] as it was. *)
Lemma apply_other_slot bc left right r d1 d2 v :
  applycache.table bc ≠ [] →
  _TRIPLE left right d1 (Go.len (applycache.table bc))
  ≠ _TRIPLE left right d2 (Go.len (applycache.table bc)) →
  returns (applycache.matchapply (applycache.with_op bc d2) left right) v →
  ∃ bc', applycache.setapply (applycache.with_op bc d1) left right r = Done (r, bc')
       ∧ returns (applycache.matchapply (applycache.with_op bc' d2) left right) v.
Proof.
  intros Hne Hslot [s0 Hbefore].
  pose proof (triple_slot Hhash _ left right d1 Hne) as Hi.
  pose proof (triple_slot Hhash _ left right d2 Hne) as Hj.
  eexists. split.
  { unfold applycache.setapply, applycache.table. simpl.
    rewrite store_in_range by done. reflexivity. }
  revert Hbefore. unfold returns, applycache.matchapply, applycache.table in *.
  simpl in *. rewrite len_insert, index_insert_ne by lia.
  destruct (Go.index _ _) as [e | |]; simpl; [| done | done].
  case_bool_decide; intros [= <-]; by eexists.
Qed.

End isolation.





(** ** Emptied tables miss *)

Lemma misses4_empty {E : Extern} d :
  hash_in_range → data4ncache.table d ≠ [] → empty4 (data4ncache.table d) →
  misses4 d.
Proof.
  intros Hhash Hne Hemp. repeat split; intros.
  - by apply matchapply_empty.
  - by apply matchnot_empty.
  - by apply matchite_empty.
  - by apply matchquant_empty.
  - by apply matchappex_empty.
Qed.

Lemma misses3_empty {E : Extern} d :
  data3ncache.table d ≠ [] → empty3 (data3ncache.table d) → misses3 d.
Proof. intros Hne Hemp id n Hn. by apply matchreplace_empty. Qed.

(** ** Primes by trial division *)

Lemma is_prime_correct p : is_prime p = true ↔ Z.prime p.
Proof.
  unfold is_prime, Z.prime.
  rewrite andb_true_iff, bool_decide_eq_true, forallb_forall.
  split; intros [Hp Hdiv]; (split; [done |]).
  - intros n Hn Hd. specialize (Hdiv n).
    rewrite <- list_elem_of_In, elem_of_seqZ in Hdiv.
    apply Z.mod_divide in Hd; [| lia].
    rewrite Hd in Hdiv. by specialize (Hdiv ltac:(lia)).
  - intros d Hd. rewrite <- list_elem_of_In, elem_of_seqZ in Hd.
    apply negb_true_iff, Z.eqb_neq. intros Hm.
    apply (Hdiv d); [lia |]. apply Z.mod_divide; [lia | done].
Qed.

Lemma is_prime_false p : is_prime p = false → ¬ Z.prime p.
Proof. intros Hp Hprime%is_prime_correct. congruence. Qed.

Lemma smallest_prime_ge_6 : smallest_prime_ge 6 7.
Proof.
  split; [by apply is_prime_correct |]. split; [lia |].
  intros q Hq Hle. destruct (decide (q = 6)) as [-> | Hne]; [| lia].
  by apply is_prime_false in Hq.
Qed.

(** ** Resizing *)

Lemma resize4_grow {E : Extern} bc size :
  data4ncache.ratio bc > 0 →
  0 ≤ bdd_prime_gte (size ÷ data4ncache.ratio bc) →
  let d := data4ncache.with_table bc
             (replicate (Z.to_nat (bdd_prime_gte (size ÷ data4ncache.ratio bc)))
                data4n.zero) in
  data4ncache.resize bc size = Done (data4ncache.reset d).
Proof.
  intros Hr Hp. unfold data4ncache.resize, Go.make.
  rewrite bool_decide_eq_true_2 by done.
  rewrite bool_decide_eq_false_2 by lia. reflexivity.
Qed.

Lemma resize4_fixed {E : Extern} bc size :
  data4ncache.ratio bc ≤ 0 → data4ncache.resize bc size = Done (data4ncache.reset bc).
Proof.
  intros Hr. unfold data4ncache.resize.
  rewrite bool_decide_eq_false_2 by lia. reflexivity.
Qed.

Lemma resize3_grow {E : Extern} bc size :
  data3ncache.ratio bc > 0 →
  0 ≤ bdd_prime_gte (size ÷ data3ncache.ratio bc) →
  let d := data3ncache.with_table bc
             (replicate (Z.to_nat (bdd_prime_gte (size ÷ data3ncache.ratio bc)))
                data3n.zero) in
  data3ncache.resize bc size = Done (data3ncache.reset d).
Proof.
  intros Hr Hp. unfold data3ncache.resize, Go.make.
  rewrite bool_decide_eq_true_2 by done.
  rewrite bool_decide_eq_false_2 by lia. reflexivity.
Qed.

Lemma resize3_fixed {E : Extern} bc size :
  data3ncache.ratio bc ≤ 0 → data3ncache.resize bc size = Done (data3ncache.reset bc).
Proof.
  intros Hr. unfold data3ncache.resize.
  rewrite bool_decide_eq_false_2 by lia. reflexivity.
Qed.

Lemma len_nonempty {A} (s : list A) : 0 < Go.len s → s ≠ [].
Proof. destruct s; [unfold Go.len; simpl; lia | done]. Qed.

(** C4. With a positive ratio, [resize n] reallocates the slot table: its
    capacity becomes what the prime search returns for [n / ratio], the
    smallest prime that is at least [n / ratio], and every slot is a fresh
    empty one, so every lookup misses.  With ratio 0, [resize n] is [reset]:
    the capacity is unchanged and every slot is emptied. *)
Theorem resize_invalidation {E : Extern} :
  hash_in_range →
  (∀ bc size, data4ncache.ratio bc > 0 →
     smallest_prime_ge (size ÷ data4ncache.ratio bc)
       (bdd_prime_gte (size ÷ data4ncache.ratio bc)) →
     ∃ bc', data4ncache.resize bc size = Done bc'
          ∧ smallest_prime_ge (size ÷ data4ncache.ratio bc)
              (Go.len (data4ncache.table bc'))
          ∧ data4ncache.ratio bc' = data4ncache.ratio bc
          ∧ data4ncache.table bc'
            = replicate (Z.to_nat (bdd_prime_gte (size ÷ data4ncache.ratio bc)))
                (data4n.mk 0 (-1) 0 0)
          ∧ misses4 bc')
  ∧ (∀ bc size, data4ncache.ratio bc = 0 →
     data4ncache.resize bc size = Done (data4ncache.reset bc)
     ∧ Go.len (data4ncache.table (data4ncache.reset bc))
       = Go.len (data4ncache.table bc)
     ∧ empty4 (data4ncache.table (data4ncache.reset bc))
     ∧ (data4ncache.table bc ≠ [] → misses4 (data4ncache.reset bc)))
  ∧ (∀ bc size, data3ncache.ratio bc > 0 →
     smallest_prime_ge (size ÷ data3ncache.ratio bc)
       (bdd_prime_gte (size ÷ data3ncache.ratio bc)) →
     ∃ bc', data3ncache.resize bc size = Done bc'
          ∧ smallest_prime_ge (size ÷ data3ncache.ratio bc)
              (Go.len (data3ncache.table bc'))
          ∧ data3ncache.ratio bc' = data3ncache.ratio bc
          ∧ data3ncache.table bc'
            = replicate (Z.to_nat (bdd_prime_gte (size ÷ data3ncache.ratio bc)))
                (data3n.mk 0 (-1) 0)
          ∧ misses3 bc')
  ∧ (∀ bc size, data3ncache.ratio bc = 0 →
     data3ncache.resize bc size = Done (data3ncache.reset bc)
     ∧ Go.len (data3ncache.table (data3ncache.reset bc))
       = Go.len (data3ncache.table bc)
     ∧ empty3 (data3ncache.table (data3ncache.reset bc))
     ∧ (data3ncache.table bc ≠ [] → misses3 (data3ncache.reset bc))).
Proof.
  intros Hhash. split; [| split; [| split]].
  - intros bc size Hr Hsp.
    assert (2 ≤ bdd_prime_gte (size ÷ data4ncache.ratio bc)) as Hp
      by (apply Z.prime_ge_2, Hsp).
    eexists. split; [apply resize4_grow; [done | lia] |].
    assert (Go.len (data4ncache.table (data4ncache.reset (data4ncache.with_table bc
              (replicate (Z.to_nat (bdd_prime_gte (size ÷ data4ncache.ratio bc)))
                 data4n.zero))))
            = bdd_prime_gte (size ÷ data4ncache.ratio bc)) as Hlen.
    { rewrite reset4_len. simpl. apply len_replicate. lia. }
    split; [by rewrite Hlen |]. split; [done |].
    split; [simpl; by rewrite fmap_replicate |].
    apply misses4_empty; [done | | apply reset4_empty].
    apply len_nonempty. rewrite Hlen. lia.
  - intros bc size Hr. split; [apply resize4_fixed; lia |].
    split; [apply reset4_len |]. split; [apply reset4_empty |].
    intros Hne. apply misses4_empty; [done | by apply fmap_nonempty | apply reset4_empty].
  - intros bc size Hr Hsp.
    assert (2 ≤ bdd_prime_gte (size ÷ data3ncache.ratio bc)) as Hp
      by (apply Z.prime_ge_2, Hsp).
    eexists. split; [apply resize3_grow; [done | lia] |].
    assert (Go.len (data3ncache.table (data3ncache.reset (data3ncache.with_table bc
              (replicate (Z.to_nat (bdd_prime_gte (size ÷ data3ncache.ratio bc)))
                 data3n.zero))))
            = bdd_prime_gte (size ÷ data3ncache.ratio bc)) as Hlen.
    { rewrite reset3_len. simpl. apply len_replicate. lia. }
    split; [by rewrite Hlen |]. split; [done |].
    split; [simpl; by rewrite fmap_replicate |].
    apply misses3_empty; [| apply reset3_empty].
    apply len_nonempty. rewrite Hlen. lia.
  - intros bc size Hr. split; [apply resize3_fixed; lia |].
    split; [apply reset3_len |]. split; [apply reset3_empty |].
    intros Hne. apply misses3_empty; [by apply fmap_nonempty | apply reset3_empty].
Qed.

Lemma resize_invalidation_witness :
  let bc := data4ncache.mk 3 0 0 [data4n.mk 9 3 5 0; data4n.mk 4 1 1 2] in
  (data4ncache.ratio bc > 0 ∧ smallest_prime_ge (20 ÷ 3) (next_prime (20 ÷ 3)))
  ∧ ∃ bc', data4ncache.resize (E := sample) bc 20 = Done bc'
         ∧ smallest_prime_ge (20 ÷ 3) (Go.len (data4ncache.table bc'))
         ∧ data4ncache.ratio bc' = 3
         ∧ data4ncache.table bc' = replicate 7 (data4n.mk 0 (-1) 0 0)
         ∧ misses4 (E := sample) bc'.
Proof.
  intros bc.
  destruct (@resize_invalidation sample sample_hash_in_range) as (Hgrow & _).
  split; [split; [simpl; lia | apply smallest_prime_ge_6] |].
  apply (Hgrow bc 20); [simpl; lia | apply smallest_prime_ge_6].
Defined.

(** ** The slot of a unary key *)

Lemma rem_negative n d : n < 0 → Z.rem n d ≠ 0 → Z.rem n d < 0.
Proof.
  intros Hn Hnz. destruct (decide (d = 0)) as [-> | Hd].
  - rewrite Z.rem_0_r_ext in * by done. lia.
  - pose proof (Z.rem_nonpos n d Hd ltac:(lia)). lia.
Qed.

Lemma rem_minus_one d : 2 ≤ d → Z.rem (-1) d = -1.
Proof.
  intros Hd. change (-1) with (- (1)). rewrite Z.rem_opp_l', Z.rem_small; lia.
Qed.

Section unary_slots.
Context {E : Extern}.

Lemma unary_apply_safe bc n res :
  applycache.table bc ≠ [] → 0 ≤ n →
  0 ≤ Z.rem n (Go.len (applycache.table bc)) < Go.len (applycache.table bc)
  ∧ (∃ r s, applycache.matchnot bc n = Done (r, s))
  ∧ (∃ s, applycache.setnot bc n res = Done (res, s)).
Proof.
  intros Hne Hn. pose proof (rem_slot _ n Hne Hn) as Hi.
  split; [done |]. split.
  - destruct (index_in_range _ _ Hi) as (e & _ & He).
    unfold applycache.matchnot. rewrite rem_Done by done. simpl. rewrite He. simpl.
    case_bool_decide; by do 2 eexists.
  - unfold applycache.setnot. rewrite rem_Done by done. simpl.
    rewrite store_in_range by done. by eexists.
Qed.

Lemma unary_replace_safe bc n res :
  replacecache.table bc ≠ [] → 0 ≤ n →
  0 ≤ Z.rem n (Go.len (replacecache.table bc)) < Go.len (replacecache.table bc)
  ∧ (∃ r s, replacecache.matchreplace bc n = Done (r, s))
  ∧ (∃ s, replacecache.setreplace bc n res = Done (res, s)).
Proof.
  intros Hne Hn. pose proof (rem_slot _ n Hne Hn) as Hi.
  split; [done |]. split.
  - destruct (index_in_range _ _ Hi) as (e & _ & He).
    unfold replacecache.matchreplace. rewrite rem_Done by done. simpl.
    rewrite He. simpl. case_bool_decide; by do 2 eexists.
  - unfold replacecache.setreplace. rewrite rem_Done by done. simpl.
    rewrite store_in_range by done. by eexists.
Qed.

Lemma unary_apply_empty bc n res :
  applycache.table bc = [] →
  applycache.matchnot bc n = Panic ∧ applycache.setnot bc n res = Panic.
Proof.
  intros Hemp. unfold applycache.matchnot, applycache.setnot. by rewrite Hemp.
Qed.

Lemma unary_replace_empty bc n res :
  replacecache.table bc = [] →
  replacecache.matchreplace bc n = Panic ∧ replacecache.setreplace bc n res = Panic.
Proof.
  intros Hemp. unfold replacecache.matchreplace, replacecache.setreplace.
  by rewrite Hemp.
Qed.

Lemma unary_apply_negative bc n res :
  n < 0 → Z.rem n (Go.len (applycache.table bc)) ≠ 0 →
  Z.rem n (Go.len (applycache.table bc)) < 0
  ∧ applycache.matchnot bc n = Panic ∧ applycache.setnot bc n res = Panic.
Proof.
  intros Hn Hnz. pose proof (rem_negative _ _ Hn Hnz) as Hi.
  split; [done |].
  unfold applycache.matchnot, applycache.setnot, Go.rem.
  case_bool_decide; [done |]. simpl.
  rewrite index_out_of_range, store_out_of_range by lia. done.
Qed.

Lemma unary_replace_negative bc n res :
  n < 0 → Z.rem n (Go.len (replacecache.table bc)) ≠ 0 →
  Z.rem n (Go.len (replacecache.table bc)) < 0
  ∧ replacecache.matchreplace bc n = Panic ∧ replacecache.setreplace bc n res = Panic.
Proof.
  intros Hn Hnz. pose proof (rem_negative _ _ Hn Hnz) as Hi.
  split; [done |].
  unfold replacecache.matchreplace, replacecache.setreplace, Go.rem.
  case_bool_decide; [done |]. simpl.
  rewrite index_out_of_range, store_out_of_range by lia. done.
Qed.

(** A negative multiple of the capacity has remainder 0: the slot is the
    first one, in bounds. *)
Lemma unary_apply_multiple bc n res :
  applycache.table bc ≠ [] → Z.rem n (Go.len (applycache.table bc)) = 0 →
  (∃ r s, applycache.matchnot bc n = Done (r, s))
  ∧ (∃ s, applycache.setnot bc n res = Done (res, s)).
Proof.
  intros Hne Hz. pose proof (len_pos _ Hne) as Hlen.
  assert (0 ≤ Z.rem n (Go.len (applycache.table bc))
          < Go.len (applycache.table bc)) as Hi by lia.
  split.
  - destruct (index_in_range _ _ Hi) as (e & _ & He).
    unfold applycache.matchnot. rewrite rem_Done by done. simpl. rewrite He. simpl.
    case_bool_decide; by do 2 eexists.
  - unfold applycache.setnot. rewrite rem_Done by done. simpl.
    rewrite store_in_range by done. by eexists.
Qed.

Lemma unary_replace_multiple bc n res :
  replacecache.table bc ≠ [] → Z.rem n (Go.len (replacecache.table bc)) = 0 →
  (∃ r s, replacecache.matchreplace bc n = Done (r, s))
  ∧ (∃ s, replacecache.setreplace bc n res = Done (res, s)).
Proof.
  intros Hne Hz. pose proof (len_pos _ Hne) as Hlen.
  assert (0 ≤ Z.rem n (Go.len (replacecache.table bc))
          < Go.len (replacecache.table bc)) as Hi by lia.
  split.
  - destruct (index_in_range _ _ Hi) as (e & _ & He).
    unfold replacecache.matchreplace. rewrite rem_Done by done. simpl.
    rewrite He. simpl. case_bool_decide; by do 2 eexists.
  - unfold replacecache.setreplace. rewrite rem_Done by done. simpl.
    rewrite store_in_range by done. by eexists.
Qed.

(** The keys at which the unary operations return. *)
Lemma unary_apply_returns bc n res :
  ((∃ r s, applycache.matchnot bc n = Done (r, s))
   ↔ applycache.table bc ≠ []
     ∧ (0 ≤ n ∨ Z.rem n (Go.len (applycache.table bc)) = 0))
  ∧ ((∃ s, applycache.setnot bc n res = Done (res, s))
     ↔ applycache.table bc ≠ []
       ∧ (0 ≤ n ∨ Z.rem n (Go.len (applycache.table bc)) = 0)).
Proof.
  assert (applycache.table bc ≠ []
          ∧ (0 ≤ n ∨ Z.rem n (Go.len (applycache.table bc)) = 0) →
          (∃ r s, applycache.matchnot bc n = Done (r, s))
          ∧ (∃ s, applycache.setnot bc n res = Done (res, s))) as Hret.
  { intros [Hne [Hn | Hz]].
    - by apply unary_apply_safe.
    - by apply unary_apply_multiple. }
  assert (¬ (applycache.table bc ≠ []
             ∧ (0 ≤ n ∨ Z.rem n (Go.len (applycache.table bc)) = 0)) →
          applycache.matchnot bc n = Panic
          ∧ applycache.setnot bc n res = Panic) as Hpanic.
  { intros Hnot. destruct (decide (applycache.table bc = [])) as [Hemp | Hne].
    - by apply unary_apply_empty.
    - assert (n < 0) as Hn.
      { destruct (decide (0 ≤ n)); [| lia]. exfalso. apply Hnot. by auto. }
      destruct (unary_apply_negative bc n res Hn) as (_ & Hm & Hs); [| done].
      intros Hz. apply Hnot. by auto. }
  split; (split; [| intros Hc; by destruct (Hret Hc)]).
  - intros (r & s & Hrun).
    destruct (decide (applycache.table bc ≠ []
                      ∧ (0 ≤ n ∨ Z.rem n (Go.len (applycache.table bc)) = 0)))
      as [| [Hp _]%Hpanic]; [done |].
    rewrite Hp in Hrun. discriminate.
  - intros (s & Hrun).
    destruct (decide (applycache.table bc ≠ []
                      ∧ (0 ≤ n ∨ Z.rem n (Go.len (applycache.table bc)) = 0)))
      as [| [_ Hp]%Hpanic]; [done |].
    rewrite Hp in Hrun. discriminate.
Qed.

Lemma unary_replace_returns bc n res :
  ((∃ r s, replacecache.matchreplace bc n = Done (r, s))
   ↔ replacecache.table bc ≠ []
     ∧ (0 ≤ n ∨ Z.rem n (Go.len (replacecache.table bc)) = 0))
  ∧ ((∃ s, replacecache.setreplace bc n res = Done (res, s))
     ↔ replacecache.table bc ≠ []
       ∧ (0 ≤ n ∨ Z.rem n (Go.len (replacecache.table bc)) = 0)).
Proof.
  assert (replacecache.table bc ≠ []
          ∧ (0 ≤ n ∨ Z.rem n (Go.len (replacecache.table bc)) = 0) →
          (∃ r s, replacecache.matchreplace bc n = Done (r, s))
          ∧ (∃ s, replacecache.setreplace bc n res = Done (res, s))) as Hret.
  { intros [Hne [Hn | Hz]].
    - by apply unary_replace_safe.
    - by apply unary_replace_multiple. }
  assert (¬ (replacecache.table bc ≠ []
             ∧ (0 ≤ n ∨ Z.rem n (Go.len (replacecache.table bc)) = 0)) →
          replacecache.matchreplace bc n = Panic
          ∧ replacecache.setreplace bc n res = Panic) as Hpanic.
  { intros Hnot. destruct (decide (replacecache.table bc = [])) as [Hemp | Hne].
    - by apply unary_replace_empty.
    - assert (n < 0) as Hn.
      { destruct (decide (0 ≤ n)); [| lia]. exfalso. apply Hnot. by auto. }
      destruct (unary_replace_negative bc n res Hn) as (_ & Hm & Hs); [| done].
      intros Hz. apply Hnot. by auto. }
  split; (split; [| intros Hc; by destruct (Hret Hc)]).
  - intros (r & s & Hrun).
    destruct (decide (replacecache.table bc ≠ []
                      ∧ (0 ≤ n ∨ Z.rem n (Go.len (replacecache.table bc)) = 0)))
      as [| [Hp _]%Hpanic]; [done |].
    rewrite Hp in Hrun. discriminate.
  - intros (s & Hrun).
    destruct (decide (replacecache.table bc ≠ []
                      ∧ (0 ≤ n ∨ Z.rem n (Go.len (replacecache.table bc)) = 0)))
      as [| [_ Hp]%Hpanic]; [done |].
    rewrite Hp in Hrun. discriminate.
Qed.

End unary_slots.

(** C9, amended. The unary operations index the table by [n % len(table)].
    When the table is non-empty and [n] is not negative the slot is in
    bounds and the four operations return.  The precondition is sufficient,
    not necessary: a negative multiple of the capacity has remainder 0 and
    lands on the first slot, so the operations return exactly when the
    table is non-empty and [n] is not negative or is a multiple of the
    capacity.  Otherwise they panic: on an empty table, and at a negative
    [n] whose remainder, never positive, is not zero; the sentinel -1
    panics on every table of two slots or more. *)
Theorem unary_slot_in_bounds {E : Extern} :
  (∀ bc n res, applycache.table bc ≠ [] → 0 ≤ n →
     0 ≤ Z.rem n (Go.len (applycache.table bc)) < Go.len (applycache.table bc)
     ∧ (∃ r s, applycache.matchnot bc n = Done (r, s))
     ∧ (∃ s, applycache.setnot bc n res = Done (res, s)))
  ∧ (∀ bc n res, replacecache.table bc ≠ [] → 0 ≤ n →
     0 ≤ Z.rem n (Go.len (replacecache.table bc)) < Go.len (replacecache.table bc)
     ∧ (∃ r s, replacecache.matchreplace bc n = Done (r, s))
     ∧ (∃ s, replacecache.setreplace bc n res = Done (res, s)))
  ∧ (∀ bc n res, applycache.table bc = [] →
     applycache.matchnot bc n = Panic ∧ applycache.setnot bc n res = Panic)
  ∧ (∀ bc n res, replacecache.table bc = [] →
     replacecache.matchreplace bc n = Panic
     ∧ replacecache.setreplace bc n res = Panic)
  ∧ (∀ bc n res, n < 0 → Z.rem n (Go.len (applycache.table bc)) ≠ 0 →
     Z.rem n (Go.len (applycache.table bc)) < 0
     ∧ applycache.matchnot bc n = Panic ∧ applycache.setnot bc n res = Panic)
  ∧ (∀ bc n res, n < 0 → Z.rem n (Go.len (replacecache.table bc)) ≠ 0 →
     Z.rem n (Go.len (replacecache.table bc)) < 0
     ∧ replacecache.matchreplace bc n = Panic
     ∧ replacecache.setreplace bc n res = Panic)
  ∧ (∀ bc res, 2 ≤ Go.len (applycache.table bc) →
     ¬ (0 ≤ -1)
     ∧ applycache.matchnot bc (-1) = Panic ∧ applycache.setnot bc (-1) res = Panic)
  ∧ (∀ bc res, 2 ≤ Go.len (replacecache.table bc) →
     ¬ (0 ≤ -1)
     ∧ replacecache.matchreplace bc (-1) = Panic
     ∧ replacecache.setreplace bc (-1) res = Panic)
  ∧ (∀ bc n res, applycache.table bc ≠ [] →
     Z.rem n (Go.len (applycache.table bc)) = 0 →
     (∃ r s, applycache.matchnot bc n = Done (r, s))
     ∧ (∃ s, applycache.setnot bc n res = Done (res, s)))
  ∧ (∀ bc n res, replacecache.table bc ≠ [] →
     Z.rem n (Go.len (replacecache.table bc)) = 0 →
     (∃ r s, replacecache.matchreplace bc n = Done (r, s))
     ∧ (∃ s, replacecache.setreplace bc n res = Done (res, s)))
  ∧ (∀ bc n res,
     ((∃ r s, applycache.matchnot bc n = Done (r, s))
      ↔ applycache.table bc ≠ []
        ∧ (0 ≤ n ∨ Z.rem n (Go.len (applycache.table bc)) = 0))
     ∧ ((∃ s, applycache.setnot bc n res = Done (res, s))
        ↔ applycache.table bc ≠ []
          ∧ (0 ≤ n ∨ Z.rem n (Go.len (applycache.table bc)) = 0)))
  ∧ (∀ bc n res,
     ((∃ r s, replacecache.matchreplace bc n = Done (r, s))
      ↔ replacecache.table bc ≠ []
        ∧ (0 ≤ n ∨ Z.rem n (Go.len (replacecache.table bc)) = 0))
     ∧ ((∃ s, replacecache.setreplace bc n res = Done (res, s))
        ↔ replacecache.table bc ≠ []
          ∧ (0 ≤ n ∨ Z.rem n (Go.len (replacecache.table bc)) = 0))).
Proof.
  split; [apply unary_apply_safe |]. split; [apply unary_replace_safe |].
  split; [apply unary_apply_empty |]. split; [apply unary_replace_empty |].
  split; [apply unary_apply_negative |]. split; [apply unary_replace_negative |].
  split; [| split].
  - intros bc res Hlen. split; [lia |].
    apply (unary_apply_negative bc (-1) res); [lia |].
    rewrite rem_minus_one by done. lia.
  - intros bc res Hlen. split; [lia |].
    apply (unary_replace_negative bc (-1) res); [lia |].
    rewrite rem_minus_one by done. lia.
  - split; [apply unary_apply_multiple |]. split; [apply unary_replace_multiple |].
    split; [apply unary_apply_returns | apply unary_replace_returns].
Qed.

Lemma unary_slot_in_bounds_witness :
  let ac := applycache.mk (fresh4 7) 0 in
  let rc := replacecache.mk (fresh3 7) 4 in
  (applycache.table ac ≠ [] ∧ 0 ≤ 12 ∧ 2 ≤ Go.len (replacecache.table rc)
   ∧ Z.rem (-14) (Go.len (applycache.table ac)) = 0)
  ∧ (0 ≤ Z.rem 12 (Go.len (applycache.table ac)) < Go.len (applycache.table ac)
     ∧ (∃ r s, applycache.matchnot (E := sample) ac 12 = Done (r, s))
     ∧ (∃ s, applycache.setnot (E := sample) ac 12 8 = Done (8, s)))
  ∧ (¬ (0 ≤ -1)
     ∧ replacecache.matchreplace (E := sample) rc (-1) = Panic
     ∧ replacecache.setreplace rc (-1) 8 = Panic)
  ∧ ((∃ r s, applycache.matchnot (E := sample) ac (-14) = Done (r, s))
     ∧ (∃ s, applycache.setnot (E := sample) ac (-14) 8 = Done (8, s))).
Proof.
  intros ac rc.
  destruct (@unary_slot_in_bounds sample)
    as (Hsafe & _ & _ & _ & _ & _ & _ & Hneg & Hmult & _).
  split; [repeat split; [discriminate | lia | vm_compute; discriminate] |].
  split; [| split].
  - apply (Hsafe ac 12 8); [discriminate | lia].
  - apply (Hneg rc 8). vm_compute. discriminate.
  - apply (Hmult ac (-14) 8); [discriminate | reflexivity].
Defined.

(** C9 as stated makes [n ≥ 0] necessary for an access in bounds.  It is
    not: on a table of 7 slots the key -7 has remainder 0, [setnot] stores
    its result in the first slot and [matchnot] finds it there; on a table
    of one slot [matchreplace] returns for the sentinel -1 itself. *)
Lemma unary_slot_in_bounds_counterexample :
  let ac := applycache.mk (fresh4 7) 0 in
  let rc := replacecache.mk (fresh3 1) 4 in
  (applycache.table ac ≠ [] ∧ ¬ (0 ≤ -7)
   ∧ Go.rem (-7) (Go.len (applycache.table ac)) = Done 0
   ∧ ∃ ac', applycache.setnot (E := sample) ac (-7) 8 = Done (8, ac')
          ∧ returns (applycache.matchnot (E := sample) ac' (-7)) 8)
  ∧ (replacecache.table rc ≠ [] ∧ ¬ (0 ≤ -1)
     ∧ Go.rem (-1) (Go.len (replacecache.table rc)) = Done 0
     ∧ returns (replacecache.matchreplace (E := sample) rc (-1)) (-1)
     ∧ ∃ rc', replacecache.setreplace rc (-1) 8 = Done (8, rc')).
Proof.
  intros ac rc. split.
  - split; [discriminate |]. split; [lia |]. split; [reflexivity |].
    eexists. split; [vm_compute; reflexivity |].
    eexists. vm_compute. reflexivity.
  - split; [discriminate |]. split; [lia |]. split; [reflexivity |].
    split; [eexists; vm_compute; reflexivity |].
    eexists. vm_compute. reflexivity.
Qed.

(** ** Resetting every cache *)

Lemma reset4_invalidated {E : Extern} d :
  hash_in_range → invalidated4 d (data4ncache.reset d).
Proof.
  intros Hhash. split; [apply reset4_len |]. do 3 (split; [done |]). split.
  - intros i e He. simpl. by rewrite list_lookup_fmap, He.
  - intros Hne.
    apply misses4_empty; [done | by apply fmap_nonempty | apply reset4_empty].
Qed.

Lemma reset3_invalidated {E : Extern} d : invalidated3 d (data3ncache.reset d).
Proof.
  split; [apply reset3_len |]. do 3 (split; [done |]). split.
  - intros i e He. simpl. by rewrite list_lookup_fmap, He.
  - intros Hne. apply misses3_empty; [by apply fmap_nonempty | apply reset3_empty].
Qed.

(** C8. [cachereset] empties the five caches and changes nothing else: the
    node table, the variable count, the error, the variable-set register,
    its generation counter and [quantlast] are the same, and every cache
    keeps its capacity, ratio, counters and discriminant fields. *)
Theorem cachereset_frame {E : Extern} (b : buddy.t) :
  hash_in_range →
  let b' := buddy.cachereset b in
  (buddy.quantset b' = buddy.quantset b
   ∧ buddy.quantsetID b' = buddy.quantsetID b
   ∧ buddy.quantlast b' = buddy.quantlast b
   ∧ buddy.nodes b' = buddy.nodes b
   ∧ buddy.varnum b' = buddy.varnum b
   ∧ buddy.error b' = buddy.error b)
  ∧ (invalidated4 (applycache.data4ncache (buddy.applycache b))
       (applycache.data4ncache (buddy.applycache b'))
     ∧ applycache.op (buddy.applycache b') = applycache.op (buddy.applycache b))
  ∧ invalidated4 (itecache.data4ncache (buddy.itecache b))
      (itecache.data4ncache (buddy.itecache b'))
  ∧ (invalidated4 (quantcache.data4ncache (buddy.quantcache b))
       (quantcache.data4ncache (buddy.quantcache b'))
     ∧ quantcache.id (buddy.quantcache b') = quantcache.id (buddy.quantcache b))
  ∧ (invalidated4 (appexcache.data4ncache (buddy.appexcache b))
       (appexcache.data4ncache (buddy.appexcache b'))
     ∧ appexcache.op (buddy.appexcache b') = appexcache.op (buddy.appexcache b)
     ∧ appexcache.id (buddy.appexcache b') = appexcache.id (buddy.appexcache b))
  ∧ (invalidated3 (replacecache.data3ncache (buddy.replacecache b))
       (replacecache.data3ncache (buddy.replacecache b'))
     ∧ replacecache.id (buddy.replacecache b')
       = replacecache.id (buddy.replacecache b)).
Proof.
  intros Hhash b'. split; [done |].
  repeat split; try done; simpl;
    first [by apply reset4_invalidated | apply reset3_invalidated].
Qed.

Lemma cachereset_frame_witness :
  let b' := buddy.cachereset sample_buddy in
  buddy.quantset b' = replicate 8 0
  ∧ buddy.quantsetID b' = 0
  ∧ invalidated4 (E := sample) (fresh4 7) (applycache.data4ncache (buddy.applycache b'))
  ∧ invalidated3 (E := sample) (fresh3 7)
      (replacecache.data3ncache (buddy.replacecache b')).
Proof.
  intros b'.
  destruct (@cachereset_frame sample sample_buddy sample_hash_in_range)
    as ((Hqs & Hid & _) & (Hap & _) & _ & _ & _ & (Hrp & _)).
  split; [apply Hqs |]. split; [apply Hid |]. split; [apply Hap | apply Hrp].
Defined.

(** ** Marking the register *)

Lemma mark_length qs id ls : length (mark qs id ls) = length qs.
Proof.
  revert qs. induction ls as [| l ls IH]; intros qs; [done |].
  simpl. by rewrite IH, length_insert.
Qed.

Lemma len_mark qs id ls : Go.len (mark qs id ls) = Go.len qs.
Proof. unfold Go.len. by rewrite mark_length. Qed.

Lemma mark_index_other qs id ls l :
  Forall (λ k, 0 ≤ k) ls → 0 ≤ l → l ∉ ls →
  Go.index (mark qs id ls) l = Go.index qs l.
Proof.
  revert qs. induction ls as [| k ls IH]; intros qs Hpos Hl Hnot; [done |].
  apply Forall_cons in Hpos as [Hk Hpos].
  apply not_elem_of_cons in Hnot as [Hne Hnot].
  simpl. rewrite IH by done. apply index_insert_ne; [done | done | congruence].
Qed.

Lemma mark_index_marked qs id ls l :
  Forall (λ k, 0 ≤ k < Go.len qs) ls → l ∈ ls →
  Go.index (mark qs id ls) l = Done id.
Proof.
  revert qs. induction ls as [| k ls IH]; intros qs Hin Hl.
  { by apply elem_of_nil in Hl. }
  apply Forall_cons in Hin as [Hk Hin]. simpl.
  destruct (decide (l ∈ ls)) as [Hmem | Hnot].
  - apply IH; [| done]. by rewrite len_insert.
  - apply elem_of_cons in Hl as [-> | Hl]; [| done].
    rewrite mark_index_other; [by apply index_insert_eq | | lia | done].
    eapply Forall_impl; [exact Hin |]. simpl. intros; lia.
Qed.

(** ** The walk along the chain *)

Lemma last_cons_default {A} (x d : A) (l : list A) :
  default d (last (x :: l)) = default x (last l).
Proof. rewrite last_cons. by destruct (last l). Qed.

(** Given fuel for every node of the chain, the loop returns: each level of
    the chain is marked with the generation and [quantlast] is the level of
    the last node visited. *)
Lemma quantset2cache_loop_chain nodes i path :
  chain nodes i path →
  ∀ b fuel,
    buddy.nodes b = nodes →
    Forall (λ nd, 0 ≤ buddynode.level nd < Go.len (buddy.quantset b)) path →
    (length path ≤ fuel)%nat →
    ∃ b', buddy.quantset2cache_loop fuel b i = Done b'
        ∧ buddy.quantset b'
          = mark (buddy.quantset b) (buddy.quantsetID b) (buddynode.level <$> path)
        ∧ buddy.quantlast b'
          = default (buddy.quantlast b) (last (buddynode.level <$> path))
        ∧ buddy.quantsetID b' = buddy.quantsetID b
        ∧ buddy.error b' = buddy.error b.
Proof.
  induction 1 as [i Hi | i nd path Hi Hnd Hchain IH];
    intros b fuel Hnodes Hbound Hfuel.
  - exists b. destruct fuel; simpl; rewrite bool_decide_eq_false_2 by lia; done.
  - apply Forall_cons in Hbound as [Hlvl Hbound].
    destruct fuel as [| fuel]; [simpl in Hfuel; lia |].
    simpl. rewrite bool_decide_eq_true_2 by lia.
    rewrite Hnodes, Hnd. simpl. rewrite store_in_range by done. simpl.
    edestruct IH as (b' & Hrun & Hqs & Hlast & Hid & Herr);
      [ | | | exists b'; split; [exact Hrun |] ].
    + exact Hnodes.
    + simpl. by rewrite len_insert.
    + simpl in Hfuel. lia.
    + simpl in *. rewrite Hqs, Hlast, Hid, Herr.
      by rewrite last_cons_default.
Qed.

(** The loop needs one unit of fuel per node of the chain. *)
Lemma quantset2cache_loop_fuel nodes i path :
  chain nodes i path →
  ∀ b fuel, buddy.nodes b = nodes →
    Forall (λ nd, 0 ≤ buddynode.level nd < Go.len (buddy.quantset b)) path →
    (fuel < length path)%nat →
    buddy.quantset2cache_loop fuel b i = OutOfFuel.
Proof.
  induction 1 as [i Hi | i nd path Hi Hnd Hchain IH];
    intros b fuel Hnodes Hbound Hfuel; [simpl in Hfuel; lia |].
  apply Forall_cons in Hbound as [Hlvl Hbound].
  destruct fuel as [| fuel]; simpl; rewrite bool_decide_eq_true_2 by lia; [done |].
  rewrite Hnodes, Hnd. simpl. rewrite store_in_range by done. simpl.
  apply IH; [done | simpl; by rewrite len_insert | simpl in Hfuel; lia].
Qed.

(** Whatever the chain, a loop that returns has changed the register and
    [quantlast] only. *)
Lemma quantset2cache_loop_frame fuel :
  ∀ b i b', buddy.quantset2cache_loop fuel b i = Done b' →
    buddy.quantsetID b' = buddy.quantsetID b
    ∧ Go.len (buddy.quantset b') = Go.len (buddy.quantset b)
    ∧ buddy.nodes b' = buddy.nodes b
    ∧ buddy.varnum b' = buddy.varnum b
    ∧ buddy.error b' = buddy.error b.
Proof.
  induction fuel as [| fuel IH]; intros b i b'; simpl.
  - case_bool_decide; [done |]. by intros [= ->].
  - case_bool_decide; [| by intros [= ->]].
    destruct (Go.index (buddy.nodes b) i) as [nd | |]; simpl; [| done | done].
    unfold Go.store. case_bool_decide; simpl; [| done].
    intros (Hid & Hlen & Hrest)%IH. simpl in *.
    rewrite len_insert in Hlen. done.
Qed.

(** ** The generation step *)

Lemma wrap32_small x : -2147483648 ≤ x ≤ 2147483647 → Go.wrap 32 x = x.
Proof.
  intros Hx. unfold Go.wrap.
  change (2 ^ (32 - 1)) with 2147483648. change (2 ^ 32) with 4294967296.
  rewrite Z.mod_small; lia.
Qed.

Lemma generation_Done b :
  0 ≤ buddy.varnum b → Go.len (buddy.quantset b) = buddy.varnum b →
  ∃ b1, buddy.quantset2cache_generation b = Done b1
      ∧ buddy.nodes b1 = buddy.nodes b
      ∧ buddy.quantlast b1 = buddy.quantlast b
      ∧ buddy.error b1 = buddy.error b
      ∧ Go.len (buddy.quantset b1) = buddy.varnum b.
Proof.
  intros Hv Hlen. unfold buddy.quantset2cache_generation. simpl.
  case_bool_decide.
  - unfold Go.make. rewrite bool_decide_eq_false_2 by lia. simpl.
    eexists. split; [done |]. simpl. by rewrite len_replicate.
  - eexists. split; [done |]. done.
Qed.

Lemma generation_next b :
  -2147483648 ≤ buddy.quantsetID b < Go.MaxInt32 - 1 →
  buddy.quantset2cache_generation b
  = Done (buddy.with_quantsetID b (buddy.quantsetID b + 1)).
Proof.
  unfold Go.MaxInt32. intros Hid. unfold buddy.quantset2cache_generation. simpl.
  rewrite wrap32_small by lia.
  rewrite bool_decide_eq_false_2; [done |]. unfold Go.MaxInt32. lia.
Qed.

Lemma generation_wrap b :
  buddy.quantsetID b = Go.MaxInt32 - 1 → 0 ≤ buddy.varnum b →
  ∃ b1, buddy.quantset2cache_generation b = Done b1
      ∧ buddy.quantsetID b1 = 1
      ∧ buddy.quantset b1 = replicate (Z.to_nat (buddy.varnum b)) 0
      ∧ buddy.nodes b1 = buddy.nodes b
      ∧ buddy.quantlast b1 = buddy.quantlast b.
Proof.
  intros Hid Hv. unfold buddy.quantset2cache_generation. simpl.
  rewrite Hid. unfold Go.MaxInt32. rewrite wrap32_small by lia.
  rewrite bool_decide_eq_true_2 by lia.
  unfold Go.make. rewrite bool_decide_eq_false_2 by lia. simpl.
  eexists. split; [done |]. done.
Qed.

(** ** quantset2cache on a variable set *)

Section varsets.
Context {K : buddy.Kernel}.

Lemma varset_nonneg b n path : varset_ok b n path → 0 ≤ buddy.varnum b.
Proof. intros (Hlen & _). rewrite <- Hlen. apply len_nonneg. Qed.

(** Where the generation step returns [b1], the call returns with the
    levels of the chain marked in the register of [b1]. *)
Lemma quantset2cache_after_generation b b1 n path fuel :
  2 ≤ n → varset_ok b n path → (length path ≤ fuel)%nat →
  buddy.quantset2cache_generation b = Done b1 →
  buddy.nodes b1 = buddy.nodes b →
  Go.len (buddy.quantset b1) = buddy.varnum b →
  ∃ b', buddy.quantset2cache fuel b n = Done (None, b')
      ∧ buddy.quantsetID b' = buddy.quantsetID b1
      ∧ buddy.quantset b'
        = mark (buddy.quantset b1) (buddy.quantsetID b1) (buddynode.level <$> path)
      ∧ buddy.quantlast b'
        = default (buddy.quantlast b1) (last (buddynode.level <$> path))
      ∧ buddy.error b' = buddy.error b1.
Proof.
  intros Hn (Hlen & Hchain & Hbound) Hfuel Hgen Hnodes Hlen1.
  destruct (quantset2cache_loop_chain _ _ _ Hchain b1 fuel Hnodes)
    as (b' & Hrun & Hqs & Hlast & Hid & Herr); [by rewrite Hlen1 | done |].
  exists b'. split; [| done].
  unfold buddy.quantset2cache. rewrite bool_decide_eq_false_2 by lia.
  rewrite Hgen. simpl. rewrite Hrun. done.
Qed.

Lemma quantset2cache_varset b n path fuel :
  2 ≤ n → varset_ok b n path → (length path ≤ fuel)%nat →
  ∃ b1 b', buddy.quantset2cache_generation b = Done b1
      ∧ buddy.quantset2cache fuel b n = Done (None, b')
      ∧ Go.len (buddy.quantset b1) = buddy.varnum b
      ∧ buddy.quantsetID b' = buddy.quantsetID b1
      ∧ buddy.quantset b'
        = mark (buddy.quantset b1) (buddy.quantsetID b1) (buddynode.level <$> path)
      ∧ buddy.quantlast b'
        = default (buddy.quantlast b) (last (buddynode.level <$> path))
      ∧ buddy.error b' = buddy.error b.
Proof.
  intros Hn Hok Hfuel.
  destruct (generation_Done b) as (b1 & Hgen & Hnodes & Hql & Herr & Hlen1);
    [by eapply varset_nonneg | apply Hok |].
  destruct (quantset2cache_after_generation b b1 n path fuel)
    as (b' & Hrun & Hid & Hqs & Hlast & Herr'); try done.
  exists b1, b'. rewrite <- Hql, <- Herr. done.
Qed.

(** A call on a terminal records the error and returns it. *)
Lemma quantset2cache_terminal fuel b n :
  n < 2 →
  let b' := buddy.seterror b "Illegal variable (%d) in varset to cache" n in
  buddy.quantset2cache fuel b n = Done (buddy.error b', b').
Proof.
  intros Hn. unfold buddy.quantset2cache. by rewrite bool_decide_eq_true_2.
Qed.

(** A call that returns an error was given a chain head below 2. *)
Lemma quantset2cache_error fuel b n e b' :
  buddy.quantset2cache fuel b n = Done (Some e, b') → n < 2.
Proof.
  unfold buddy.quantset2cache. case_bool_decide; [done |].
  destruct (buddy.quantset2cache_generation b) as [b1 | |]; simpl; [| done | done].
  destruct (buddy.quantset2cache_loop fuel b1 n); simpl; done.
Qed.

(** A call that returns without error has run the generation step. *)
Lemma quantset2cache_counter fuel b n b' :
  2 ≤ n → buddy.quantset2cache fuel b n = Done (None, b') →
  ∃ b1, buddy.quantset2cache_generation b = Done b1
      ∧ buddy.quantsetID b' = buddy.quantsetID b1.
Proof.
  intros Hn. unfold buddy.quantset2cache. rewrite bool_decide_eq_false_2 by lia.
  destruct (buddy.quantset2cache_generation b) as [b1 | |]; simpl; [| done | done].
  destruct (buddy.quantset2cache_loop fuel b1 n) as [b2 | |] eqn:Hloop;
    simpl; [| done | done].
  intros [= ->]. exists b1. split; [done |].
  by apply quantset2cache_loop_frame in Hloop as (Hid & _).
Qed.

End varsets.

(** The register that [cacheinit] allocates has no entry: until the engine
    has sized it, the walk panics at its first node. *)
Lemma quantset2cache_unsized_register {K : buddy.Kernel} fuel b n nd :
  2 ≤ n → buddy.quantset b = [] →
  Go.wrap 32 (buddy.quantsetID b + 1) ≠ Go.MaxInt32 →
  Go.index (buddy.nodes b) n = Done nd →
  buddy.quantset2cache (S fuel) b n = Panic.
Proof.
  intros Hn Hqs Hid Hnd. unfold buddy.quantset2cache, buddy.quantset2cache_generation.
  rewrite bool_decide_eq_false_2 by lia.
  rewrite bool_decide_eq_false_2 by exact Hid. simpl.
  rewrite bool_decide_eq_true_2 by lia. rewrite Hnd. simpl.
  rewrite Hqs, store_out_of_range; [done |]. unfold Go.len. simpl. lia.
Qed.

(** ** Levels along an ordered chain *)

Lemma chain_nonempty nodes n path : 2 ≤ n → chain nodes n path → path ≠ [].
Proof. intros Hn Hchain. inversion Hchain; [lia | done]. Qed.

(** In a sorted list no element is above the last one. *)
Lemma sorted_below_last (ls : list Z) d :
  Sorted Z.le ls → Forall (λ l, l ≤ default d (last ls)) ls.
Proof.
  intros Hs. apply (Sorted_StronglySorted _) in Hs. revert d.
  induction Hs as [| x ls Hs IH Hx]; intros d; [done |].
  rewrite last_cons_default. apply Forall_cons. split; [| apply IH].
  destruct (last ls) as [y |] eqn:Hl; simpl; [| lia].
  apply last_Some_elem_of in Hl. rewrite Forall_forall in Hx. by apply Hx.
Qed.

(** In an ordered node table the levels grow along every chain. *)
Lemma ordered_chain_sorted nodes i path :
  ordered nodes → chain nodes i path → Sorted Z.le (buddynode.level <$> path).
Proof.
  intros Hord Hchain.
  induction Hchain as [i Hi | i nd path Hi Hnd Hchain IH]; [constructor |].
  rewrite fmap_cons. constructor; [done |].
  inversion Hchain as [j Hj | j c path' Hj Hc Hrest]; subst; [constructor |].
  rewrite fmap_cons. constructor.
  pose proof (Hord i nd c Hnd Hj Hc). lia.
Qed.

Lemma last_default_elem_of {A} (l : list A) d : l ≠ [] → default d (last l) ∈ l.
Proof.
  intros Hne. destruct (last l) as [x |] eqn:Hlast.
  - by apply last_Some_elem_of.
  - by apply last_None in Hlast.
Qed.

Lemma index_replicate {A} (x : A) (n : nat) l :
  0 ≤ l < Z.of_nat n → Go.index (replicate n x) l = Done x.
Proof.
  intros Hl. unfold Go.index, Go.len. rewrite length_replicate.
  rewrite bool_decide_eq_true_2 by done.
  rewrite lookup_replicate_2; [done | lia].
Qed.

(** ** The sample engine *)

Lemma sample_chain4 : chain sample_nodes 4 sample_path4.
Proof.
  apply chain_step; [lia | done |]. apply chain_step; [simpl; lia | done |].
  apply chain_step; [simpl; lia | done |]. apply chain_stop. simpl. lia.
Qed.

Lemma sample_chain6 : chain sample_nodes 6 sample_path6.
Proof.
  apply chain_step; [lia | done |]. apply chain_step; [simpl; lia | done |].
  apply chain_stop. simpl. lia.
Qed.

Lemma sample_levels (path : list buddynode.t) :
  forallb (λ nd, (0 <=? buddynode.level nd) && (buddynode.level nd <? 8)) path = true →
  Forall (λ nd, 0 ≤ buddynode.level nd < 8) path.
Proof.
  rewrite forallb_forall, Forall_forall. intros Hall nd Hnd%list_elem_of_In.
  specialize (Hall nd Hnd). apply andb_true_iff in Hall as [?%Z.leb_le ?%Z.ltb_lt].
  done.
Qed.

Lemma sample_varset4 : varset_ok sample_buddy 4 sample_path4.
Proof.
  split; [done |]. split; [apply sample_chain4 |]. by apply sample_levels.
Qed.

Lemma sample_varset6_late : varset_ok sample_buddy_late 6 sample_path6.
Proof.
  split; [done |]. split; [apply sample_chain6 |]. by apply sample_levels.
Qed.

Lemma unordered_chain : chain unordered_nodes 3 unordered_path.
Proof.
  apply chain_step; [lia | done |]. apply chain_step; [simpl; lia | done |].
  apply chain_stop. simpl. lia.
Qed.

Lemma unordered_varset : varset_ok unordered_buddy 3 unordered_path.
Proof.
  split; [done |]. split; [apply unordered_chain |]. by apply sample_levels.
Qed.

Lemma sample_ordered : ordered sample_nodes.
Proof.
  intros i nd c [Hi Hnd]%index_Done Hhigh [_ Hc]%index_Done.
  unfold Go.len in Hi. simpl in Hi.
  assert (i = 0 ∨ i = 1 ∨ i = 2 ∨ i = 3 ∨ i = 4 ∨ i = 5 ∨ i = 6) as Hcases by lia.
  destruct Hcases as [-> | [-> | [-> | [-> | [-> | [-> | ->]]]]]];
    simpl in Hnd; injection Hnd as <-; simpl in *;
    first [lia | injection Hc as <-; simpl; lia].
Qed.

(** ** The generation counter *)

(** C5. On a variable set, a call of [quantset2cache] adds one to the
    generation counter, which stays below [math.MaxInt32]; when the
    increment reaches [math.MaxInt32] the register is reallocated to zeros,
    the counter restarts at 1 and only the levels of the new chain are
    marked: a level that carried an earlier generation reads 0 and does not
    match the counter.  Every call that returns without error has moved the
    counter so. *)
Theorem generation_monotonic {K : buddy.Kernel} :
  (∀ b n path fuel, 2 ≤ n → varset_ok b n path → (length path ≤ fuel)%nat →
     -2147483648 ≤ buddy.quantsetID b < Go.MaxInt32 - 1 →
     ∃ b', buddy.quantset2cache fuel b n = Done (None, b')
         ∧ buddy.quantsetID b' = buddy.quantsetID b + 1
         ∧ buddy.quantsetID b < buddy.quantsetID b' < Go.MaxInt32)
  ∧ (∀ b n path fuel, 2 ≤ n → varset_ok b n path → (length path ≤ fuel)%nat →
     buddy.quantsetID b = Go.MaxInt32 - 1 →
     ∃ b', buddy.quantset2cache fuel b n = Done (None, b')
         ∧ buddy.quantsetID b' = 1
         ∧ buddy.quantset b'
           = mark (replicate (Z.to_nat (buddy.varnum b)) 0) 1
               (buddynode.level <$> path)
         ∧ (∀ l, 0 ≤ l < buddy.varnum b → l ∉ buddynode.level <$> path →
              Go.index (buddy.quantset b') l = Done 0)
         ∧ (∀ l, Go.index (buddy.quantset b') l = Done (buddy.quantsetID b') →
              l ∈ buddynode.level <$> path))
  ∧ (∀ fuel b n b', 2 ≤ n → buddy.quantset2cache fuel b n = Done (None, b') →
     (-2147483648 ≤ buddy.quantsetID b < Go.MaxInt32 - 1 →
        buddy.quantsetID b' = buddy.quantsetID b + 1)
     ∧ (buddy.quantsetID b = Go.MaxInt32 - 1 → buddy.quantsetID b' = 1)).
Proof.
  split; [| split].
  - intros b n path fuel Hn Hok Hfuel Hid.
    destruct (quantset2cache_after_generation b
                (buddy.with_quantsetID b (buddy.quantsetID b + 1)) n path fuel)
      as (b' & Hrun & Hid' & _); try done.
    { by apply generation_next. }
    { apply Hok. }
    exists b'. simpl in Hid'. split; [done |]. split; [done |]. lia.
  - intros b n path fuel Hn Hok Hfuel Hid.
    pose proof (varset_nonneg _ _ _ Hok) as Hv.
    destruct (generation_wrap b Hid Hv) as (b1 & Hgen & Hid1 & Hqs1 & Hnodes & _).
    destruct (quantset2cache_after_generation b b1 n path fuel)
      as (b' & Hrun & Hid' & Hqs & _); try done.
    { rewrite Hqs1. by apply len_replicate. }
    rewrite Hid1 in Hid', Hqs. rewrite Hqs1 in Hqs.
    assert (Forall (λ k, 0 ≤ k) (buddynode.level <$> path)) as Hpos.
    { rewrite Forall_fmap. eapply Forall_impl; [apply Hok |]. simpl. intros; lia. }
    assert (∀ l, 0 ≤ l < buddy.varnum b → l ∉ buddynode.level <$> path →
              Go.index (buddy.quantset b') l = Done 0) as Hzero.
    { intros l Hl Hnot. rewrite Hqs, mark_index_other by (done || lia).
      apply index_replicate. lia. }
    exists b'. do 4 (split; [done |]).
    intros l Hidx. destruct (decide (l ∈ buddynode.level <$> path)) as [| Hnot]; [done |].
    pose proof Hidx as [Hl _]%index_Done.
    rewrite Hqs, len_mark, len_replicate in Hl by done.
    rewrite (Hzero l Hl Hnot), Hid' in Hidx. discriminate.
  - intros fuel b n b' Hn (b1 & Hgen & Hid')%quantset2cache_counter; [| done].
    rewrite Hid'. split; intros Hid.
    + rewrite generation_next in Hgen by done. by injection Hgen as <-.
    + revert Hgen. unfold buddy.quantset2cache_generation. simpl.
      rewrite Hid. unfold Go.MaxInt32. rewrite wrap32_small by lia.
      rewrite bool_decide_eq_true_2 by lia.
      destruct (Go.make 0 (buddy.varnum b)); simpl; [| done | done].
      by intros [= <-].
Qed.

Lemma generation_monotonic_witness :
  (2 ≤ 4 ∧ varset_ok sample_buddy 4 sample_path4
   ∧ (length sample_path4 ≤ 3)%nat
   ∧ -2147483648 ≤ buddy.quantsetID sample_buddy < Go.MaxInt32 - 1)
  ∧ (∃ b', buddy.quantset2cache (K := sample_kernel) 3 sample_buddy 4
           = Done (None, b')
         ∧ buddy.quantsetID b' = 0 + 1
         ∧ 0 < buddy.quantsetID b' < Go.MaxInt32)
  ∧ (∃ b', buddy.quantset2cache (K := sample_kernel) 2 sample_buddy_late 6
           = Done (None, b')
         ∧ buddy.quantsetID b' = 1
         ∧ buddy.quantset b' = [0; 0; 0; 0; 1; 0; 1; 0]
         ∧ (∀ l, 0 ≤ l < 8 → l ∉ buddynode.level <$> sample_path6 →
              Go.index (buddy.quantset b') l = Done 0)
         ∧ (∀ l, Go.index (buddy.quantset b') l = Done (buddy.quantsetID b') →
              l ∈ buddynode.level <$> sample_path6)).
Proof.
  destruct (@generation_monotonic sample_kernel) as (Hstep & Hwrap & _).
  split; [| split].
  - split; [lia |]. split; [apply sample_varset4 |]. split; [simpl; lia |].
    vm_compute. split; [discriminate | reflexivity].
  - apply (Hstep sample_buddy 4 sample_path4 3%nat);
      [lia | apply sample_varset4 | simpl; lia |].
    vm_compute. split; [discriminate | reflexivity].
  - apply (Hwrap sample_buddy_late 6 sample_path6 2%nat);
      [lia | apply sample_varset6_late | simpl; lia | reflexivity].
Defined.

(** ** What a successful call leaves *)

(** C6, amended. After a call of [quantset2cache] on a non-terminal chain
    head, every level of a node on the chain of [high] links is marked with
    the current generation, and [quantlast] is the level of the last node
    visited.  It is the greatest of the levels visited when these do not
    decrease along the chain; the loop itself compares no levels. *)
Theorem quantlast_last_visited {K : buddy.Kernel} b n path fuel :
  2 ≤ n → varset_ok b n path → (length path ≤ fuel)%nat →
  ∃ b', buddy.quantset2cache fuel b n = Done (None, b')
      ∧ last (buddynode.level <$> path) = Some (buddy.quantlast b')
      ∧ (Sorted Z.le (buddynode.level <$> path) →
         Forall (λ nd, buddynode.level nd ≤ buddy.quantlast b') path)
      ∧ Forall (λ nd, Go.index (buddy.quantset b') (buddynode.level nd)
                      = Done (buddy.quantsetID b')) path.
Proof.
  intros Hn Hok Hfuel.
  destruct (quantset2cache_varset b n path fuel Hn Hok Hfuel)
    as (b1 & b' & _ & Hrun & Hlen1 & Hid & Hqs & Hlast & _).
  destruct Hok as (_ & Hchain & Hbound).
  exists b'. split; [done |]. rewrite Hlast. split; [| split].
  - destruct (last (buddynode.level <$> path)) eqn:Hl; [done |].
    apply last_None, fmap_nil_inv in Hl.
    by destruct (chain_nonempty _ _ _ Hn Hchain).
  - intros Hsorted.
    pose proof (sorted_below_last _ (buddy.quantlast b) Hsorted) as Hmax.
    rewrite Forall_forall in Hmax. apply Forall_forall. intros nd Hnd.
    apply Hmax. by apply list_elem_of_fmap_2.
  - rewrite Hqs, Hid. apply Forall_forall. intros nd Hnd.
    apply mark_index_marked.
    + rewrite Forall_fmap, Hlen1. exact Hbound.
    + by apply list_elem_of_fmap_2.
Qed.

Lemma quantlast_last_visited_witness :
  (2 ≤ 4 ∧ varset_ok sample_buddy 4 sample_path4 ∧ (length sample_path4 ≤ 3)%nat)
  ∧ (2 ≤ 3 ∧ varset_ok unordered_buddy 3 unordered_path
     ∧ (length unordered_path ≤ 2)%nat)
  ∧ (∃ b', buddy.quantset2cache (K := sample_kernel) 3 sample_buddy 4
           = Done (None, b')
         ∧ last (buddynode.level <$> sample_path4) = Some (buddy.quantlast b')
         ∧ (Sorted Z.le (buddynode.level <$> sample_path4) →
            Forall (λ nd, buddynode.level nd ≤ buddy.quantlast b') sample_path4)
         ∧ Forall (λ nd, Go.index (buddy.quantset b') (buddynode.level nd)
                         = Done (buddy.quantsetID b')) sample_path4)
  ∧ (∃ b', buddy.quantset2cache (K := sample_kernel) 2 unordered_buddy 3
           = Done (None, b')
         ∧ last (buddynode.level <$> unordered_path) = Some (buddy.quantlast b')
         ∧ (Sorted Z.le (buddynode.level <$> unordered_path) →
            Forall (λ nd, buddynode.level nd ≤ buddy.quantlast b') unordered_path)
         ∧ Forall (λ nd, Go.index (buddy.quantset b') (buddynode.level nd)
                         = Done (buddy.quantsetID b')) unordered_path).
Proof.
  split; [| split; [| split]].
  - split; [lia |]. split; [apply sample_varset4 | simpl; lia].
  - split; [lia |]. split; [apply unordered_varset | simpl; lia].
  - apply (@quantlast_last_visited sample_kernel sample_buddy 4 sample_path4 3%nat);
      [lia | apply sample_varset4 | simpl; lia].
  - apply (@quantlast_last_visited sample_kernel unordered_buddy 3 unordered_path
             2%nat); [lia | apply unordered_varset | simpl; lia].
Defined.

(** C6 as stated makes [quantlast] the greatest level visited.  On the
    chain of [unordered_nodes] from node 3 the call returns without error,
    the levels 5 and 3 are visited and marked, and [quantlast] is 3, the
    level visited last, below the level 5 of the chain head. *)
Lemma quantlast_maximal_counterexample :
  (2 ≤ 3 ∧ varset_ok unordered_buddy 3 unordered_path)
  ∧ ∃ b', buddy.quantset2cache (K := sample_kernel) 2 unordered_buddy 3
          = Done (None, b')
        ∧ buddy.quantlast b' = 3
        ∧ buddy.quantset b' = [0; 0; 0; 1; 0; 1; 0; 0]
        ∧ buddy.quantsetID b' = 1
        ∧ buddynode.mk 5 0 2 ∈ unordered_path
        ∧ ¬ Forall (λ nd, buddynode.level nd ≤ buddy.quantlast b') unordered_path.
Proof.
  split; [split; [lia | apply unordered_varset] |].
  eexists. split; [vm_compute; reflexivity |]. simpl.
  do 3 (split; [reflexivity |]). split; [by apply elem_of_cons; left |].
  intros [Hhead _]%Forall_cons. simpl in Hhead. lia.
Qed.

(** In an ordered node table, the invariant of a decision diagram, the
    levels grow along the chain and [quantlast] is the greatest. *)
Lemma quantlast_ordered {K : buddy.Kernel} b n path fuel :
  2 ≤ n → varset_ok b n path → ordered (buddy.nodes b) →
  (length path ≤ fuel)%nat →
  ∃ b', buddy.quantset2cache fuel b n = Done (None, b')
      ∧ buddy.quantlast b' ∈ buddynode.level <$> path
      ∧ Forall (λ nd, buddynode.level nd ≤ buddy.quantlast b') path.
Proof.
  intros Hn Hok Hord Hfuel.
  destruct (quantset2cache_varset b n path fuel Hn Hok Hfuel)
    as (b1 & b' & _ & Hrun & _ & _ & _ & Hlast & _).
  destruct Hok as (_ & Hchain & _).
  exists b'. split; [done |]. rewrite Hlast. split.
  - apply last_default_elem_of.
    intros Hnil%fmap_nil_inv. by apply (chain_nonempty _ _ _ Hn Hchain Hnil).
  - pose proof (sorted_below_last _ (buddy.quantlast b)
                  (ordered_chain_sorted _ n path Hord Hchain)) as Hmax.
    rewrite Forall_forall in Hmax. apply Forall_forall. intros nd Hnd.
    apply Hmax. by apply list_elem_of_fmap_2.
Qed.

Lemma quantlast_ordered_sample :
  ∃ b', buddy.quantset2cache (K := sample_kernel) 3 sample_buddy 4
        = Done (None, b')
      ∧ buddy.quantlast b' ∈ buddynode.level <$> sample_path4
      ∧ Forall (λ nd, buddynode.level nd ≤ buddy.quantlast b') sample_path4.
Proof.
  apply (quantlast_ordered (K := sample_kernel) sample_buddy 4 sample_path4 3%nat);
    [lia | apply sample_varset4 | apply sample_ordered | simpl; lia].
Qed.

(** ** The error *)

(** C7. [quantset2cache] returns the error that [seterror] records for
    "Illegal variable (%d) in varset to cache" when its chain head is below
    2; for a node id, which is not negative, that is exactly when the chain
    head is one of the terminals 0 and 1.  On the head of a variable set it
    returns without error. *)
Theorem illegal_varset {K : buddy.Kernel} :
  seterror_records →
  (∀ fuel b n, n < 2 →
     ∃ e, buddy.quantset2cache fuel b n
          = Done (Some e,
                  buddy.seterror b "Illegal variable (%d) in varset to cache" n))
  ∧ (∀ fuel b n e b', 0 ≤ n →
     buddy.quantset2cache fuel b n = Done (Some e, b') → n = 0 ∨ n = 1)
  ∧ (∀ b n path fuel, 2 ≤ n → varset_ok b n path → (length path ≤ fuel)%nat →
     ∃ b', buddy.quantset2cache fuel b n = Done (None, b')).
Proof.
  intros Hrec. split; [| split].
  - intros fuel b n Hn. rewrite quantset2cache_terminal by done.
    destruct (buddy.error (buddy.seterror b _ n)) as [e |] eqn:He.
    + by exists e.
    + by apply Hrec in He.
  - intros fuel b n e b' Hn Hrun%quantset2cache_error. lia.
  - intros b n path fuel Hn Hok Hfuel.
    destruct (quantset2cache_varset b n path fuel Hn Hok Hfuel)
      as (b1 & b' & _ & Hrun & _).
    by exists b'.
Qed.

Lemma sample_seterror_records : seterror_records (K := sample_kernel).
Proof. intros b f n. done. Qed.

Lemma sample_seterror_frame : seterror_frame (K := sample_kernel).
Proof. intros b f n. done. Qed.

Lemma illegal_varset_witness :
  (1 < 2 ∧ 2 ≤ 4 ∧ varset_ok sample_buddy 4 sample_path4
   ∧ (length sample_path4 ≤ 3)%nat)
  ∧ (∃ e, buddy.quantset2cache (K := sample_kernel) 3 sample_buddy 1
          = Done (Some e,
                  buddy.seterror (Kernel := sample_kernel) sample_buddy
                    "Illegal variable (%d) in varset to cache" 1))
  ∧ (∃ b', buddy.quantset2cache (K := sample_kernel) 3 sample_buddy 4
           = Done (None, b')).
Proof.
  destruct (@illegal_varset sample_kernel sample_seterror_records)
    as (Herr & _ & Hok).
  split; [| split].
  - split; [lia |]. split; [lia |]. split; [apply sample_varset4 | simpl; lia].
  - apply (Herr 3%nat sample_buddy 1). lia.
  - apply (Hok sample_buddy 4 sample_path4 3%nat);
      [lia | apply sample_varset4 | simpl; lia].
Defined.

(** C10. When [quantset2cache] returns an error the generation counter,
    the register and [quantlast] are what they were: the call only went
    through [seterror], which touches the error alone. *)
Theorem error_leaves_state {K : buddy.Kernel} :
  seterror_frame →
  (∀ fuel b n, n < 2 →
     ∃ e b', buddy.quantset2cache fuel b n = Done (e, b')
           ∧ b' = buddy.with_error b e)
  ∧ (∀ fuel b n e b', buddy.quantset2cache fuel b n = Done (Some e, b') →
     buddy.quantsetID b' = buddy.quantsetID b
     ∧ buddy.quantset b' = buddy.quantset b
     ∧ buddy.quantlast b' = buddy.quantlast b
     ∧ b' = buddy.with_error b (Some e)).
Proof.
  intros Hframe. split.
  - intros fuel b n Hn. rewrite quantset2cache_terminal by done.
    do 2 eexists. split; [done |]. apply Hframe.
  - intros fuel b n e b' Hrun.
    pose proof (quantset2cache_error _ _ _ _ _ Hrun) as Hn.
    rewrite quantset2cache_terminal in Hrun by done.
    injection Hrun as He Hb.
    assert (b' = buddy.with_error b (Some e)) as ->.
    { subst b'. rewrite <- He. apply Hframe. }
    done.
Qed.

Lemma error_leaves_state_witness :
  (∃ e b', buddy.quantset2cache (K := sample_kernel) 0 sample_buddy_late 1
           = Done (e, b')
         ∧ b' = buddy.with_error sample_buddy_late e)
  ∧ (∀ e b', buddy.quantset2cache (K := sample_kernel) 0 sample_buddy_late 1
             = Done (Some e, b') →
     buddy.quantsetID b' = 2147483646
     ∧ buddy.quantset b' = [0; 0; 2147483646; 0; 2147483646; 0; 0; 2147483646]
     ∧ buddy.quantlast b' = 0
     ∧ b' = buddy.with_error sample_buddy_late (Some e)).
Proof.
  destruct (@error_leaves_state sample_kernel sample_seterror_frame)
    as (Hret & Hsame).
  split.
  - apply (Hret 0%nat sample_buddy_late 1). lia.
  - intros e b'. apply (Hsame 0%nat sample_buddy_late 1 e b').
Defined.

(** ** The scenarios of the specification, run on the sample engine *)

(** An apply cache of 7 slots: (3,5) is inserted with result 9 under
    operator 0; it is found under operator 0, missed under operator 2, and
    missed under operator 0 after a reset. *)
Example apply_scenario :
  let bc := applycache.mk (fresh4 7) 0 in
  (bc1 ← snd <$> applycache.setapply (E := sample) bc 3 5 9;
   r1 ← fst <$> applycache.matchapply (E := sample) bc1 3 5;
   r2 ← fst <$> applycache.matchapply (E := sample) (applycache.with_op bc1 2) 3 5;
   r3 ← fst <$> applycache.matchapply (E := sample) (applycache.reset bc1) 3 5;
   mret (r1, r2, r3))
  = Done (9, -1, -1).
Proof. vm_compute. reflexivity. Qed.

(** The variable set of levels 2, 4 and 7, then the one of levels 4 and 6:
    level 4 is marked with the current generation both times, level 5
    never, level 2 only the first time. *)
Example varset_scenario :
  (r1 ← buddy.quantset2cache (K := sample_kernel) 3 sample_buddy 4;
   r2 ← buddy.quantset2cache (K := sample_kernel) 2 r1.2 6;
   let member b l :=
     match Go.index (buddy.quantset b) l with
     | Done g => g =? buddy.quantsetID b
     | _ => false
     end in
   mret (member r1.2 4, member r1.2 5, member r2.2 4, member r2.2 2,
         buddy.quantlast r1.2, buddy.quantlast r2.2))
  = Done (true, false, true, false, 7, 6).
Proof. vm_compute. reflexivity. Qed.

(** * Further properties of cache.go *)

(** ** Tables that memoize a function *)

Lemma empty4_memo4 F tbl : empty4 tbl → memo4 F tbl.
Proof. intros Hemp. eapply Forall_impl; [exact Hemp |]. intros e He Ha. done. Qed.

Lemma empty3_memo3 F tbl : empty3 tbl → memo3 F tbl.
Proof. intros Hemp. eapply Forall_impl; [exact Hemp |]. intros e He Ha. done. Qed.

Lemma empty4_memo_apply {E : Extern} Fa Fn tbl : empty4 tbl → memo_apply Fa Fn tbl.
Proof. intros Hemp. eapply Forall_impl; [exact Hemp |]. intros e He Ha. done. Qed.

Lemma memo4_index F tbl i e :
  memo4 F tbl → Go.index tbl i = Done e → data4n.a e ≠ -1 →
  data4n.res e = F (data4n.a e) (data4n.b e) (data4n.c e).
Proof.
  intros Hall [_ He]%index_Done. by apply (Forall_lookup_1 _ _ _ _ Hall He).
Qed.

Lemma memo3_index F tbl i e :
  memo3 F tbl → Go.index tbl i = Done e → data3n.a e ≠ -1 →
  data3n.res e = F (data3n.a e) (data3n.c e).
Proof.
  intros Hall [_ He]%index_Done. by apply (Forall_lookup_1 _ _ _ _ Hall He).
Qed.

(** What [resize] and [init] return is an emptied table. *)

Lemma resize4_Done_empty {E : Extern} bc size bc' :
  data4ncache.resize bc size = Done bc' → empty4 (data4ncache.table bc').
Proof.
  unfold data4ncache.resize. case_bool_decide.
  - destruct (Go.make _ _) as [tbl | |]; simpl; [| done | done].
    intros [= <-]. apply reset4_empty.
  - intros [= <-]. apply reset4_empty.
Qed.

Lemma init4_Done_empty {E : Extern} bc size ratio bc' :
  data4ncache.init bc size ratio = Done bc' → empty4 (data4ncache.table bc').
Proof.
  unfold data4ncache.init.
  destruct (Go.make _ _) as [tbl | |]; simpl; [| done | done].
  intros [= <-]. apply reset4_empty.
Qed.

Lemma resize3_Done_empty {E : Extern} bc size bc' :
  data3ncache.resize bc size = Done bc' → empty3 (data3ncache.table bc').
Proof.
  unfold data3ncache.resize. case_bool_decide.
  - destruct (Go.make _ _) as [tbl | |]; simpl; [| done | done].
    intros [= <-]. apply reset3_empty.
  - intros [= <-]. apply reset3_empty.
Qed.

Lemma init3_Done_empty {E : Extern} bc size ratio bc' :
  data3ncache.init bc size ratio = Done bc' → empty3 (data3ncache.table bc').
Proof.
  unfold data3ncache.init.
  destruct (Go.make _ _) as [tbl | |]; simpl; [| done | done].
  intros [= <-]. apply reset3_empty.
Qed.

(** ** The ite cache memoizes *)

Section ite_memo.
Context {E : Extern}.
Variable F : Z → Z → Z → Z.

Lemma itecache_resize_empty bc size bc' :
  itecache.resize bc size = Done bc' → empty4 (itecache.table bc').
Proof.
  unfold itecache.resize.
  destruct (data4ncache.resize _ _) as [d | |] eqn:Hd; simpl; [| done | done].
  intros [= <-]. by eapply resize4_Done_empty.
Qed.

Lemma itecache_init_empty bc size ratio bc' :
  itecache.init bc size ratio = Done bc' → empty4 (itecache.table bc').
Proof.
  unfold itecache.init.
  destruct (data4ncache.init _ _ _) as [d | |] eqn:Hd; simpl; [| done | done].
  intros [= <-]. by eapply init4_Done_empty.
Qed.

Lemma setite_memo bc f g h :
  hash_in_range → itecache.table bc ≠ [] → memo4 F (itecache.table bc) →
  ∃ bc', itecache.setite bc f g h (F f g h) = Done (F f g h, bc')
       ∧ memo4 F (itecache.table bc').
Proof.
  intros Hhash Hne Hmemo. pose proof (triple_slot Hhash _ f g h Hne) as Hi.
  eexists. split.
  - unfold itecache.setite. rewrite store_in_range by done. reflexivity.
  - apply Forall_insert; [done |]. done.
Qed.

Lemma matchite_memo bc f g h :
  hash_in_range → itecache.table bc ≠ [] → memo4 F (itecache.table bc) → f ≠ -1 →
  ∃ v bc', itecache.matchite bc f g h = Done (v, bc')
         ∧ (v = -1 ∨ v = F f g h)
         ∧ itecache.table bc' = itecache.table bc.
Proof.
  intros Hhash Hne Hmemo Hf.
  destruct (index_in_range (itecache.table bc) _ (triple_slot Hhash _ f g h Hne))
    as (e & _ & He).
  unfold itecache.matchite. rewrite He. simpl. case_bool_decide as Hkey.
  - destruct Hkey as (Ha & Hb & Hc). do 2 eexists. split; [done |]. split.
    + right. rewrite (memo4_index F _ _ _ Hmemo He) by congruence. congruence.
    + unfold itecache.opHit. by destruct _DEBUG.
  - do 2 eexists. split; [done |]. split; [by left |].
    unfold itecache.opMiss. by destruct _DEBUG.
Qed.

End ite_memo.

(** X1. If every result given to [setite] is the value of a function [F] at
    the key, the ite cache never returns a wrong answer: the property that
    each live slot holds [F] at its key holds after [init], [resize] and
    [reset], is kept by [setite], and under it [matchite] returns -1 or the
    value of [F] at the key it is asked, for a key whose first node id is
    not the sentinel. *)
Theorem ite_memoizes {E : Extern} (F : Z → Z → Z → Z) :
  hash_in_range →
  (∀ bc, memo4 F (itecache.table (itecache.reset bc)))
  ∧ (∀ bc size bc', itecache.resize bc size = Done bc' →
       memo4 F (itecache.table bc'))
  ∧ (∀ bc size ratio bc', itecache.init bc size ratio = Done bc' →
       memo4 F (itecache.table bc'))
  ∧ (∀ bc f g h, itecache.table bc ≠ [] → memo4 F (itecache.table bc) →
       ∃ bc', itecache.setite bc f g h (F f g h) = Done (F f g h, bc')
            ∧ memo4 F (itecache.table bc'))
  ∧ (∀ bc f g h, itecache.table bc ≠ [] → memo4 F (itecache.table bc) → f ≠ -1 →
       ∃ v bc', itecache.matchite bc f g h = Done (v, bc')
              ∧ (v = -1 ∨ v = F f g h)
              ∧ itecache.table bc' = itecache.table bc).
Proof.
  intros Hhash. split; [| split; [| split; [| split]]].
  - intros bc. apply empty4_memo4, reset4_empty.
  - intros bc size bc' Hrun. by eapply empty4_memo4, itecache_resize_empty.
  - intros bc size ratio bc' Hrun. by eapply empty4_memo4, itecache_init_empty.
  - intros. by apply setite_memo.
  - intros. by apply matchite_memo.
Qed.

Lemma ite_memoizes_witness :
  let F := λ f g h : Z, f + g + h in
  let bc := itecache.reset (itecache.mk (fresh4 7)) in
  ∃ bc1 v bc2,
    itecache.setite (E := sample) bc 3 5 2 (F 3 5 2) = Done (10, bc1)
    ∧ itecache.matchite (E := sample) bc1 3 5 2 = Done (v, bc2)
    ∧ (v = -1 ∨ v = F 3 5 2).
Proof.
  intros F bc.
  destruct (@ite_memoizes sample F sample_hash_in_range)
    as (Hreset & _ & _ & Hset & Hmatch).
  destruct (Hset bc 3 5 2) as (bc1 & Hrun & Hmemo);
    [discriminate | apply Hreset |].
  destruct (Hmatch bc1 3 5 2) as (v & bc2 & Hlook & Hv & _);
    [| exact Hmemo | lia |].
  { vm_compute in Hrun. injection Hrun as <-. discriminate. }
  exists bc1, v, bc2. done.
Defined.

(** ** The quant, appex and replace caches memoize *)

Section tagged_memo.
Context {E : Extern}.
Variable F : Z → Z → Z → Z.
Variable G : Z → Z → Z.

Lemma quantcache_resize_empty bc size bc' :
  quantcache.resize bc size = Done bc' → empty4 (quantcache.table bc').
Proof.
  unfold quantcache.resize.
  destruct (data4ncache.resize _ _) as [d | |] eqn:Hd; simpl; [| done | done].
  intros [= <-]. by eapply resize4_Done_empty.
Qed.

Lemma quantcache_init_empty bc size ratio bc' :
  quantcache.init bc size ratio = Done bc' → empty4 (quantcache.table bc').
Proof.
  unfold quantcache.init.
  destruct (data4ncache.init _ _ _) as [d | |] eqn:Hd; simpl; [| done | done].
  intros [= <-]. by eapply init4_Done_empty.
Qed.

Lemma setquant_memo bc n varset :
  hash_in_range → quantcache.table bc ≠ [] → memo4 F (quantcache.table bc) →
  ∃ bc', quantcache.setquant bc n varset (F n varset (quantcache.id bc))
         = Done (F n varset (quantcache.id bc), bc')
       ∧ quantcache.id bc' = quantcache.id bc
       ∧ memo4 F (quantcache.table bc').
Proof.
  intros Hhash Hne Hmemo. pose proof (pair_slot Hhash _ n varset Hne) as Hi.
  eexists. split; [| split].
  - unfold quantcache.setquant. rewrite store_in_range by done. reflexivity.
  - done.
  - apply Forall_insert; [done |]. done.
Qed.

Lemma matchquant_memo bc n varset :
  hash_in_range → quantcache.table bc ≠ [] → memo4 F (quantcache.table bc) →
  n ≠ -1 →
  ∃ v bc', quantcache.matchquant bc n varset = Done (v, bc')
         ∧ (v = -1 ∨ v = F n varset (quantcache.id bc))
         ∧ quantcache.table bc' = quantcache.table bc
         ∧ quantcache.id bc' = quantcache.id bc.
Proof.
  intros Hhash Hne Hmemo Hn.
  destruct (index_in_range (quantcache.table bc) _ (pair_slot Hhash _ n varset Hne))
    as (e & _ & He).
  unfold quantcache.matchquant. rewrite He. simpl. case_bool_decide as Hkey.
  - destruct Hkey as (Ha & Hb & Hc). do 2 eexists. split; [done |]. split.
    + right. rewrite (memo4_index F _ _ _ Hmemo He) by congruence. congruence.
    + unfold quantcache.opHit. by destruct _DEBUG.
  - do 2 eexists. split; [done |]. split; [by left |].
    unfold quantcache.opMiss. by destruct _DEBUG.
Qed.

Lemma appexcache_resize_empty bc size bc' :
  appexcache.resize bc size = Done bc' → empty4 (appexcache.table bc').
Proof.
  unfold appexcache.resize.
  destruct (data4ncache.resize _ _) as [d | |] eqn:Hd; simpl; [| done | done].
  intros [= <-]. by eapply resize4_Done_empty.
Qed.

Lemma appexcache_init_empty bc size ratio bc' :
  appexcache.init bc size ratio = Done bc' → empty4 (appexcache.table bc').
Proof.
  unfold appexcache.init.
  destruct (data4ncache.init _ _ _) as [d | |] eqn:Hd; simpl; [| done | done].
  intros [= <-]. by eapply init4_Done_empty.
Qed.

Lemma setappex_memo bc left right :
  hash_in_range → appexcache.table bc ≠ [] → memo4 F (appexcache.table bc) →
  ∃ bc', appexcache.setappex bc left right (F left right (appexcache.id bc))
         = Done (F left right (appexcache.id bc), bc')
       ∧ appexcache.id bc' = appexcache.id bc
       ∧ memo4 F (appexcache.table bc').
Proof.
  intros Hhash Hne Hmemo.
  pose proof (triple_slot Hhash _ left right (appexcache.id bc) Hne) as Hi.
  eexists. split; [| split].
  - unfold appexcache.setappex. rewrite store_in_range by done. reflexivity.
  - done.
  - apply Forall_insert; [done |]. done.
Qed.

Lemma matchappex_memo bc left right :
  hash_in_range → appexcache.table bc ≠ [] → memo4 F (appexcache.table bc) →
  left ≠ -1 →
  ∃ v bc', appexcache.matchappex bc left right = Done (v, bc')
         ∧ (v = -1 ∨ v = F left right (appexcache.id bc))
         ∧ appexcache.table bc' = appexcache.table bc
         ∧ appexcache.id bc' = appexcache.id bc.
Proof.
  intros Hhash Hne Hmemo Hl.
  destruct (index_in_range (appexcache.table bc) _
              (triple_slot Hhash _ left right (appexcache.id bc) Hne))
    as (e & _ & He).
  unfold appexcache.matchappex. rewrite He. simpl. case_bool_decide as Hkey.
  - destruct Hkey as (Ha & Hb & Hc). do 2 eexists. split; [done |]. split.
    + right. rewrite (memo4_index F _ _ _ Hmemo He) by congruence. congruence.
    + unfold appexcache.opHit. by destruct _DEBUG.
  - do 2 eexists. split; [done |]. split; [by left |].
    unfold appexcache.opMiss. by destruct _DEBUG.
Qed.

Lemma replacecache_resize_empty bc size bc' :
  replacecache.resize bc size = Done bc' → empty3 (replacecache.table bc').
Proof.
  unfold replacecache.resize.
  destruct (data3ncache.resize _ _) as [d | |] eqn:Hd; simpl; [| done | done].
  intros [= <-]. by eapply resize3_Done_empty.
Qed.

Lemma replacecache_init_empty bc size ratio bc' :
  replacecache.init bc size ratio = Done bc' → empty3 (replacecache.table bc').
Proof.
  unfold replacecache.init.
  destruct (data3ncache.init _ _ _) as [d | |] eqn:Hd; simpl; [| done | done].
  intros [= <-]. by eapply init3_Done_empty.
Qed.

Lemma setreplace_memo bc n :
  replacecache.table bc ≠ [] → 0 ≤ n → memo3 G (replacecache.table bc) →
  ∃ bc', replacecache.setreplace bc n (G n (replacecache.id bc))
         = Done (G n (replacecache.id bc), bc')
       ∧ replacecache.id bc' = replacecache.id bc
       ∧ memo3 G (replacecache.table bc').
Proof.
  intros Hne Hn Hmemo. pose proof (rem_slot _ n Hne Hn) as Hi.
  eexists. split; [| split].
  - unfold replacecache.setreplace. rewrite rem_Done by done. simpl.
    rewrite store_in_range by done. reflexivity.
  - done.
  - apply Forall_insert; [done |]. done.
Qed.

Lemma matchreplace_memo bc n :
  replacecache.table bc ≠ [] → 0 ≤ n → memo3 G (replacecache.table bc) →
  ∃ v bc', replacecache.matchreplace bc n = Done (v, bc')
         ∧ (v = -1 ∨ v = G n (replacecache.id bc))
         ∧ replacecache.table bc' = replacecache.table bc
         ∧ replacecache.id bc' = replacecache.id bc.
Proof.
  intros Hne Hn Hmemo.
  destruct (index_in_range (replacecache.table bc) _ (rem_slot _ n Hne Hn))
    as (e & _ & He).
  unfold replacecache.matchreplace. rewrite rem_Done by done. simpl.
  rewrite He. simpl. case_bool_decide as Hkey.
  - destruct Hkey as (Ha & Hc). do 2 eexists. split; [done |]. split.
    + right. rewrite (memo3_index G _ _ _ Hmemo He) by lia. congruence.
    + unfold replacecache.opHit. by destruct _DEBUG.
  - do 2 eexists. split; [done |]. split; [by left |].
    unfold replacecache.opMiss. by destruct _DEBUG.
Qed.

End tagged_memo.

(** X2. The quant cache never returns a wrong answer: if every result given
    to [setquant] is the value of [F] at the key and the current id, each
    live slot holds [F] at its key and tag after [init], [resize], [reset]
    and [setquant], and [matchquant] then returns -1 or the value of [F] at
    the key and the current id, whatever ids the earlier inserts ran
    under. *)
Theorem quant_memoizes {E : Extern} (F : Z → Z → Z → Z) :
  hash_in_range →
  (∀ bc, memo4 F (quantcache.table (quantcache.reset bc)))
  ∧ (∀ bc size bc', quantcache.resize bc size = Done bc' →
       memo4 F (quantcache.table bc'))
  ∧ (∀ bc size ratio bc', quantcache.init bc size ratio = Done bc' →
       memo4 F (quantcache.table bc'))
  ∧ (∀ bc n varset, quantcache.table bc ≠ [] → memo4 F (quantcache.table bc) →
       ∃ bc', quantcache.setquant bc n varset (F n varset (quantcache.id bc))
              = Done (F n varset (quantcache.id bc), bc')
            ∧ quantcache.id bc' = quantcache.id bc
            ∧ memo4 F (quantcache.table bc'))
  ∧ (∀ bc n varset, quantcache.table bc ≠ [] → memo4 F (quantcache.table bc) →
       n ≠ -1 →
       ∃ v bc', quantcache.matchquant bc n varset = Done (v, bc')
              ∧ (v = -1 ∨ v = F n varset (quantcache.id bc))
              ∧ quantcache.table bc' = quantcache.table bc
              ∧ quantcache.id bc' = quantcache.id bc).
Proof.
  intros Hhash. split; [| split; [| split; [| split]]].
  - intros bc. apply empty4_memo4, reset4_empty.
  - intros bc size bc' Hrun. by eapply empty4_memo4, quantcache_resize_empty.
  - intros bc size ratio bc' Hrun. by eapply empty4_memo4, quantcache_init_empty.
  - intros. by apply setquant_memo.
  - intros. by apply matchquant_memo.
Qed.

Lemma quant_memoizes_witness :
  let F := λ n varset id : Z, n + 2 * varset + 3 * id in
  let bc := quantcache.reset (quantcache.mk (fresh4 7) 4) in
  ∃ bc1 v bc2,
    quantcache.setquant (E := sample) bc 3 5 (F 3 5 4) = Done (25, bc1)
    ∧ quantcache.matchquant (E := sample) (quantcache.with_id bc1 6) 3 5
      = Done (v, bc2)
    ∧ (v = -1 ∨ v = F 3 5 6).
Proof.
  intros F bc.
  destruct (@quant_memoizes sample F sample_hash_in_range)
    as (Hreset & _ & _ & Hset & Hmatch).
  destruct (Hset bc 3 5) as (bc1 & Hrun & _ & Hmemo);
    [discriminate | apply Hreset |].
  destruct (Hmatch (quantcache.with_id bc1 6) 3 5) as (v & bc2 & Hlook & Hv & _);
    [| exact Hmemo | lia |].
  { vm_compute in Hrun. injection Hrun as <-. discriminate. }
  exists bc1, v, bc2. done.
Defined.

(** X3. The appex cache never returns a wrong answer: with results that are
    the value of [F] at the key and the current id, each live slot holds
    [F] at its key and tag after [init], [resize], [reset] and [setappex],
    and [matchappex] returns -1 or the value of [F] at the key and the
    current id. *)
Theorem appex_memoizes {E : Extern} (F : Z → Z → Z → Z) :
  hash_in_range →
  (∀ bc, memo4 F (appexcache.table (appexcache.reset bc)))
  ∧ (∀ bc size bc', appexcache.resize bc size = Done bc' →
       memo4 F (appexcache.table bc'))
  ∧ (∀ bc size ratio bc', appexcache.init bc size ratio = Done bc' →
       memo4 F (appexcache.table bc'))
  ∧ (∀ bc left right, appexcache.table bc ≠ [] →
       memo4 F (appexcache.table bc) →
       ∃ bc', appexcache.setappex bc left right (F left right (appexcache.id bc))
              = Done (F left right (appexcache.id bc), bc')
            ∧ appexcache.id bc' = appexcache.id bc
            ∧ memo4 F (appexcache.table bc'))
  ∧ (∀ bc left right, appexcache.table bc ≠ [] →
       memo4 F (appexcache.table bc) → left ≠ -1 →
       ∃ v bc', appexcache.matchappex bc left right = Done (v, bc')
              ∧ (v = -1 ∨ v = F left right (appexcache.id bc))
              ∧ appexcache.table bc' = appexcache.table bc
              ∧ appexcache.id bc' = appexcache.id bc).
Proof.
  intros Hhash. split; [| split; [| split; [| split]]].
  - intros bc. apply empty4_memo4, reset4_empty.
  - intros bc size bc' Hrun. by eapply empty4_memo4, appexcache_resize_empty.
  - intros bc size ratio bc' Hrun. by eapply empty4_memo4, appexcache_init_empty.
  - intros. by apply setappex_memo.
  - intros. by apply matchappex_memo.
Qed.

Lemma appex_memoizes_witness :
  let F := λ left right id : Z, left * right + id in
  let bc := appexcache.reset (appexcache.mk (fresh4 7) 0 4) in
  ∃ bc1 v bc2,
    appexcache.setappex (E := sample) bc 3 5 (F 3 5 4) = Done (19, bc1)
    ∧ appexcache.matchappex (E := sample) bc1 3 5 = Done (v, bc2)
    ∧ (v = -1 ∨ v = F 3 5 4).
Proof.
  intros F bc.
  destruct (@appex_memoizes sample F sample_hash_in_range)
    as (Hreset & _ & _ & Hset & Hmatch).
  destruct (Hset bc 3 5) as (bc1 & Hrun & Hid & Hmemo);
    [discriminate | apply Hreset |].
  destruct (Hmatch bc1 3 5) as (v & bc2 & Hlook & Hv & _);
    [| exact Hmemo | lia |].
  { vm_compute in Hrun. injection Hrun as <-. discriminate. }
  rewrite Hid in Hv. exists bc1, v, bc2. done.
Defined.

(** X4. The replace cache never returns a wrong answer: with results that
    are the value of [G] at the node id and the current id, each live slot
    holds [G] at its key and tag after [init], [resize], [reset] and
    [setreplace], and [matchreplace] returns -1 or the value of [G] at the
    node id and the current id. *)
Theorem replace_memoizes {E : Extern} (G : Z → Z → Z) :
  (∀ bc, memo3 G (replacecache.table (replacecache.reset bc)))
  ∧ (∀ bc size bc', replacecache.resize bc size = Done bc' →
       memo3 G (replacecache.table bc'))
  ∧ (∀ bc size ratio bc', replacecache.init bc size ratio = Done bc' →
       memo3 G (replacecache.table bc'))
  ∧ (∀ bc n, replacecache.table bc ≠ [] → 0 ≤ n →
       memo3 G (replacecache.table bc) →
       ∃ bc', replacecache.setreplace bc n (G n (replacecache.id bc))
              = Done (G n (replacecache.id bc), bc')
            ∧ replacecache.id bc' = replacecache.id bc
            ∧ memo3 G (replacecache.table bc'))
  ∧ (∀ bc n, replacecache.table bc ≠ [] → 0 ≤ n →
       memo3 G (replacecache.table bc) →
       ∃ v bc', replacecache.matchreplace bc n = Done (v, bc')
              ∧ (v = -1 ∨ v = G n (replacecache.id bc))
              ∧ replacecache.table bc' = replacecache.table bc
              ∧ replacecache.id bc' = replacecache.id bc).
Proof.
  split; [| split; [| split; [| split]]].
  - intros bc. apply empty3_memo3, reset3_empty.
  - intros bc size bc' Hrun. by eapply empty3_memo3, replacecache_resize_empty.
  - intros bc size ratio bc' Hrun. by eapply empty3_memo3, replacecache_init_empty.
  - intros. by apply setreplace_memo.
  - intros. by apply matchreplace_memo.
Qed.

Lemma replace_memoizes_witness :
  let G := λ n id : Z, n + 10 * id in
  let bc := replacecache.reset (replacecache.mk (fresh3 7) 4) in
  ∃ bc1 v bc2,
    replacecache.setreplace bc 12 (G 12 4) = Done (52, bc1)
    ∧ replacecache.matchreplace (E := sample) bc1 12 = Done (v, bc2)
    ∧ (v = -1 ∨ v = G 12 4).
Proof.
  intros G bc.
  destruct (@replace_memoizes sample G) as (Hreset & _ & _ & Hset & Hmatch).
  destruct (Hset bc 12) as (bc1 & Hrun & Hid & Hmemo);
    [discriminate | lia | apply Hreset |].
  destruct (Hmatch bc1 12) as (v & bc2 & Hlook & Hv & _);
    [| lia | exact Hmemo |].
  { vm_compute in Hrun. injection Hrun as <-. discriminate. }
  rewrite Hid in Hv. exists bc1, v, bc2. done.
Defined.

(** ** The table shared by apply and not memoizes both *)

Section apply_memo.
Context {E : Extern}.
Variable Fa : Z → Z → Z → Z.
Variable Fn : Z → Z.

Lemma memo_apply_index tbl i e :
  memo_apply Fa Fn tbl → Go.index tbl i = Done e → data4n.a e ≠ -1 →
  (data4n.c e = op_not → data4n.res e = Fn (data4n.a e))
  ∧ (data4n.c e ≠ op_not →
     data4n.res e = Fa (data4n.a e) (data4n.b e) (data4n.c e)).
Proof.
  intros Hall [_ He]%index_Done. by apply (Forall_lookup_1 _ _ _ _ Hall He).
Qed.

Lemma applycache_resize_empty bc size bc' :
  applycache.resize bc size = Done bc' → empty4 (applycache.table bc').
Proof.
  unfold applycache.resize.
  destruct (data4ncache.resize _ _) as [d | |] eqn:Hd; simpl; [| done | done].
  intros [= <-]. by eapply resize4_Done_empty.
Qed.

Lemma applycache_init_empty bc size ratio bc' :
  applycache.init bc size ratio = Done bc' → empty4 (applycache.table bc').
Proof.
  unfold applycache.init.
  destruct (data4ncache.init _ _ _) as [d | |] eqn:Hd; simpl; [| done | done].
  intros [= <-]. by eapply init4_Done_empty.
Qed.

Lemma setapply_memo bc left right :
  hash_in_range → applycache.table bc ≠ [] → applycache.op bc ≠ op_not →
  memo_apply Fa Fn (applycache.table bc) →
  ∃ bc', applycache.setapply bc left right (Fa left right (applycache.op bc))
         = Done (Fa left right (applycache.op bc), bc')
       ∧ applycache.op bc' = applycache.op bc
       ∧ memo_apply Fa Fn (applycache.table bc').
Proof.
  intros Hhash Hne Hop Hmemo.
  pose proof (triple_slot Hhash _ left right (applycache.op bc) Hne) as Hi.
  eexists. split; [| split].
  - unfold applycache.setapply. rewrite store_in_range by done. reflexivity.
  - done.
  - apply Forall_insert; [done |]. simpl. done.
Qed.

Lemma setnot_memo bc n :
  applycache.table bc ≠ [] → 0 ≤ n → memo_apply Fa Fn (applycache.table bc) →
  ∃ bc', applycache.setnot bc n (Fn n) = Done (Fn n, bc')
       ∧ applycache.op bc' = applycache.op bc
       ∧ memo_apply Fa Fn (applycache.table bc').
Proof.
  intros Hne Hn Hmemo. pose proof (rem_slot _ n Hne Hn) as Hi.
  eexists. split; [| split].
  - unfold applycache.setnot. rewrite rem_Done by done. simpl.
    rewrite store_in_range by done. reflexivity.
  - done.
  - apply Forall_insert; [done |]. simpl. done.
Qed.

Lemma matchapply_memo bc left right :
  hash_in_range → applycache.table bc ≠ [] → applycache.op bc ≠ op_not →
  memo_apply Fa Fn (applycache.table bc) → left ≠ -1 →
  ∃ v bc', applycache.matchapply bc left right = Done (v, bc')
         ∧ (v = -1 ∨ v = Fa left right (applycache.op bc))
         ∧ applycache.table bc' = applycache.table bc
         ∧ applycache.op bc' = applycache.op bc.
Proof.
  intros Hhash Hne Hop Hmemo Hl.
  destruct (index_in_range (applycache.table bc) _
              (triple_slot Hhash _ left right (applycache.op bc) Hne))
    as (e & _ & He).
  unfold applycache.matchapply. rewrite He. simpl. case_bool_decide as Hkey.
  - destruct Hkey as (Ha & Hb & Hc). do 2 eexists. split; [done |]. split.
    + right. destruct (memo_apply_index _ _ _ Hmemo He) as [_ Hres]; [congruence |].
      rewrite Hres by congruence. congruence.
    + unfold applycache.opHit. by destruct _DEBUG.
  - do 2 eexists. split; [done |]. split; [by left |].
    unfold applycache.opMiss. by destruct _DEBUG.
Qed.

Lemma matchnot_memo bc n :
  applycache.table bc ≠ [] → 0 ≤ n → memo_apply Fa Fn (applycache.table bc) →
  ∃ v bc', applycache.matchnot bc n = Done (v, bc')
         ∧ (v = -1 ∨ v = Fn n)
         ∧ applycache.table bc' = applycache.table bc
         ∧ applycache.op bc' = applycache.op bc.
Proof.
  intros Hne Hn Hmemo.
  destruct (index_in_range (applycache.table bc) _ (rem_slot _ n Hne Hn))
    as (e & _ & He).
  unfold applycache.matchnot. rewrite rem_Done by done. simpl.
  rewrite He. simpl. case_bool_decide as Hkey.
  - destruct Hkey as (Ha & Hc). do 2 eexists. split; [done |]. split.
    + right. destruct (memo_apply_index _ _ _ Hmemo He) as [Hres _]; [lia |].
      rewrite Hres by done. congruence.
    + unfold applycache.opHit. by destruct _DEBUG.
  - do 2 eexists. split; [done |]. split; [by left |].
    unfold applycache.opMiss. by destruct _DEBUG.
Qed.

End apply_memo.

(** X5. The apply cache holds the results of the binary operators and of
    negation in one table and never confuses them, as long as no binary
    operator has the code [op_not].  If every result given to [setapply] is
    the value of [Fa] at the operands and the current operator, and every
    result given to [setnot] the value of [Fn] at the node, then
    [matchapply] returns -1 or [Fa] at its operands and the current
    operator, and [matchnot] returns -1 or [Fn] at its node. *)
Theorem apply_not_memoize {E : Extern} (Fa : Z → Z → Z → Z) (Fn : Z → Z) :
  hash_in_range →
  (∀ bc, memo_apply Fa Fn (applycache.table (applycache.reset bc)))
  ∧ (∀ bc size bc', applycache.resize bc size = Done bc' →
       memo_apply Fa Fn (applycache.table bc'))
  ∧ (∀ bc size ratio bc', applycache.init bc size ratio = Done bc' →
       memo_apply Fa Fn (applycache.table bc'))
  ∧ (∀ bc left right, applycache.table bc ≠ [] → applycache.op bc ≠ op_not →
       memo_apply Fa Fn (applycache.table bc) →
       ∃ bc', applycache.setapply bc left right
                (Fa left right (applycache.op bc))
              = Done (Fa left right (applycache.op bc), bc')
            ∧ applycache.op bc' = applycache.op bc
            ∧ memo_apply Fa Fn (applycache.table bc'))
  ∧ (∀ bc n, applycache.table bc ≠ [] → 0 ≤ n →
       memo_apply Fa Fn (applycache.table bc) →
       ∃ bc', applycache.setnot bc n (Fn n) = Done (Fn n, bc')
            ∧ applycache.op bc' = applycache.op bc
            ∧ memo_apply Fa Fn (applycache.table bc'))
  ∧ (∀ bc left right, applycache.table bc ≠ [] → applycache.op bc ≠ op_not →
       memo_apply Fa Fn (applycache.table bc) → left ≠ -1 →
       ∃ v bc', applycache.matchapply bc left right = Done (v, bc')
              ∧ (v = -1 ∨ v = Fa left right (applycache.op bc))
              ∧ applycache.table bc' = applycache.table bc
              ∧ applycache.op bc' = applycache.op bc)
  ∧ (∀ bc n, applycache.table bc ≠ [] → 0 ≤ n →
       memo_apply Fa Fn (applycache.table bc) →
       ∃ v bc', applycache.matchnot bc n = Done (v, bc')
              ∧ (v = -1 ∨ v = Fn n)
              ∧ applycache.table bc' = applycache.table bc
              ∧ applycache.op bc' = applycache.op bc).
Proof.
  intros Hhash. split; [| split; [| split; [| split; [| split; [| split]]]]].
  - intros bc. apply empty4_memo_apply, reset4_empty.
  - intros bc size bc' Hrun%applycache_resize_empty. by apply empty4_memo_apply.
  - intros bc size ratio bc' Hrun%applycache_init_empty.
    by apply empty4_memo_apply.
  - intros. by apply setapply_memo.
  - intros. by apply setnot_memo.
  - intros. by apply (matchapply_memo Fa Fn).
  - intros. by apply (matchnot_memo Fa Fn).
Qed.

Lemma apply_not_memoize_witness :
  let Fa := λ left right op : Z, left * right + op in
  let Fn := λ n : Z, n + 1 in
  let bc := applycache.reset (applycache.mk (fresh4 7) 2) in
  ∃ bc1 bc2 v w bc3 bc4,
    applycache.setapply (E := sample) bc 3 5 (Fa 3 5 2) = Done (17, bc1)
    ∧ applycache.setnot (E := sample) bc1 3 (Fn 3) = Done (4, bc2)
    ∧ applycache.matchapply (E := sample) bc2 3 5 = Done (v, bc3)
    ∧ (v = -1 ∨ v = Fa 3 5 2)
    ∧ applycache.matchnot (E := sample) bc2 3 = Done (w, bc4)
    ∧ (w = -1 ∨ w = Fn 3).
Proof.
  intros Fa Fn bc.
  destruct (@apply_not_memoize sample Fa Fn sample_hash_in_range)
    as (Hreset & _ & _ & Hset & Hsetnot & Hmatch & Hmatchnot).
  destruct (Hset bc 3 5) as (bc1 & Hrun1 & Hop1 & Hmemo1);
    [discriminate | discriminate | apply Hreset |].
  assert (applycache.table bc1 ≠ []) as Hne1.
  { vm_compute in Hrun1. injection Hrun1 as <-. discriminate. }
  destruct (Hsetnot bc1 3) as (bc2 & Hrun2 & Hop2 & Hmemo2);
    [exact Hne1 | lia | exact Hmemo1 |].
  assert (applycache.table bc2 ≠ []) as Hne2.
  { vm_compute in Hrun1. injection Hrun1 as <-.
    vm_compute in Hrun2. injection Hrun2 as <-. discriminate. }
  assert (applycache.op bc2 = 2) as Hop by (rewrite Hop2, Hop1; reflexivity).
  destruct (Hmatch bc2 3 5) as (v & bc3 & Hlook & Hv & _);
    [exact Hne2 | rewrite Hop; discriminate | exact Hmemo2 | lia |].
  destruct (Hmatchnot bc2 3) as (w & bc4 & Hlooknot & Hw & _);
    [exact Hne2 | lia | exact Hmemo2 |].
  rewrite Hop in Hv. exists bc1, bc2, v, w, bc3, bc4. done.
Defined.

(** ** An insert and the other keys *)

Section other_keys.
Context {E : Extern}.
Hypothesis Hhash : hash_in_range.

Lemma setite_other_key bc f g h r f' g' h' :
  itecache.table bc ≠ [] → (f', g', h') ≠ (f, g, h) →
  ∃ bc', itecache.setite bc f g h r = Done (r, bc')
       ∧ ∀ v, returns (itecache.matchite bc' f' g' h') v →
              v = -1 ∨ returns (itecache.matchite bc f' g' h') v.
Proof.
  intros Hne Hkey.
  pose proof (triple_slot Hhash _ f g h Hne) as Hi.
  pose proof (triple_slot Hhash _ f' g' h' Hne) as Hj.
  eexists. split.
  { unfold itecache.setite. rewrite store_in_range by done. reflexivity. }
  intros v. unfold returns, itecache.matchite, itecache.table in *. simpl.
  rewrite len_insert.
  destruct (decide (_TRIPLE f g h (Go.len (data4ncache.table (itecache.data4ncache bc)))
                    = _TRIPLE f' g' h'
                        (Go.len (data4ncache.table (itecache.data4ncache bc)))))
    as [Heq | Hneq].
  - rewrite <- Heq, index_insert_eq by done. simpl.
    rewrite bool_decide_eq_false_2 by (simpl; intros (-> & -> & ->); done).
    intros [s [= <-]]. by left.
  - rewrite index_insert_ne by lia.
    destruct (Go.index _ _) as [e | |]; simpl; [| by intros [? ?] ..].
    case_bool_decide; intros [s [= <-]]; right; by eexists.
Qed.

Lemma setquant_other_key bc n varset r d n' varset' d' :
  quantcache.table bc ≠ [] → (n', varset', d') ≠ (n, varset, d) →
  ∃ bc', quantcache.setquant (quantcache.with_id bc d) n varset r = Done (r, bc')
       ∧ ∀ v, returns (quantcache.matchquant (quantcache.with_id bc' d') n' varset') v →
              v = -1
              ∨ returns (quantcache.matchquant (quantcache.with_id bc d') n' varset') v.
Proof.
  intros Hne Hkey.
  pose proof (pair_slot Hhash _ n varset Hne) as Hi.
  pose proof (pair_slot Hhash _ n' varset' Hne) as Hj.
  eexists. split.
  { unfold quantcache.setquant, quantcache.table. simpl.
    rewrite store_in_range by done. reflexivity. }
  intros v. unfold returns, quantcache.matchquant, quantcache.table in *. simpl.
  rewrite len_insert.
  destruct (decide (_PAIR n varset
                      (Go.len (data4ncache.table (quantcache.data4ncache bc)))
                    = _PAIR n' varset'
                        (Go.len (data4ncache.table (quantcache.data4ncache bc)))))
    as [Heq | Hneq].
  - rewrite <- Heq, index_insert_eq by done. simpl.
    rewrite bool_decide_eq_false_2 by (simpl; intros (-> & -> & ->); done).
    intros [s [= <-]]. by left.
  - rewrite index_insert_ne by lia.
    destruct (Go.index _ _) as [e | |]; simpl; [| by intros [? ?] ..].
    case_bool_decide; intros [s [= <-]]; right; by eexists.
Qed.

Lemma setappex_other_key bc left right r d left' right' d' :
  appexcache.table bc ≠ [] → (left', right', d') ≠ (left, right, d) →
  ∃ bc', appexcache.setappex (appexcache.with_id bc d) left right r = Done (r, bc')
       ∧ ∀ v, returns (appexcache.matchappex (appexcache.with_id bc' d') left' right') v →
              v = -1
              ∨ returns (appexcache.matchappex (appexcache.with_id bc d') left' right') v.
Proof.
  intros Hne Hkey.
  pose proof (triple_slot Hhash _ left right d Hne) as Hi.
  pose proof (triple_slot Hhash _ left' right' d' Hne) as Hj.
  eexists. split.
  { unfold appexcache.setappex, appexcache.table. simpl.
    rewrite store_in_range by done. reflexivity. }
  intros v. unfold returns, appexcache.matchappex, appexcache.table in *. simpl.
  rewrite len_insert.
  destruct (decide (_TRIPLE left right d
                      (Go.len (data4ncache.table (appexcache.data4ncache bc)))
                    = _TRIPLE left' right' d'
                        (Go.len (data4ncache.table (appexcache.data4ncache bc)))))
    as [Heq | Hneq].
  - rewrite <- Heq, index_insert_eq by done. simpl.
    rewrite bool_decide_eq_false_2 by (simpl; intros (-> & -> & ->); done).
    intros [s [= <-]]. by left.
  - rewrite index_insert_ne by lia.
    destruct (Go.index _ _) as [e | |]; simpl; [| by intros [? ?] ..].
    case_bool_decide; intros [s [= <-]]; right; by eexists.
Qed.

End other_keys.

Lemma setreplace_other_key {E : Extern} bc n r d n' d' :
  replacecache.table bc ≠ [] → 0 ≤ n → 0 ≤ n' → (n', d') ≠ (n, d) →
  ∃ bc', replacecache.setreplace (replacecache.with_id bc d) n r = Done (r, bc')
       ∧ ∀ v, returns (replacecache.matchreplace (replacecache.with_id bc' d') n') v →
              v = -1
              ∨ returns (replacecache.matchreplace (replacecache.with_id bc d') n') v.
Proof.
  intros Hne Hn Hn' Hkey.
  pose proof (rem_slot _ n Hne Hn) as Hi. pose proof (rem_slot _ n' Hne Hn') as Hj.
  eexists. split.
  { unfold replacecache.setreplace, replacecache.table. simpl.
    rewrite rem_Done by done. simpl. rewrite store_in_range by done. reflexivity. }
  intros v. unfold returns, replacecache.matchreplace, replacecache.table in *.
  simpl. rewrite len_insert, !rem_Done by done. simpl.
  destruct (decide (Z.rem n (Go.len (data3ncache.table (replacecache.data3ncache bc)))
                    = Z.rem n'
                        (Go.len (data3ncache.table (replacecache.data3ncache bc)))))
    as [Heq | Hneq].
  - rewrite <- Heq, index_insert_eq by done. simpl.
    rewrite bool_decide_eq_false_2 by (simpl; intros (-> & ->); done).
    intros [s [= <-]]. by left.
  - rewrite index_insert_ne by lia.
    destruct (Go.index _ _) as [e | |]; simpl; [| by intros [? ?] ..].
    case_bool_decide; intros [s [= <-]]; right; by eexists.
Qed.

(** X6. In the ite, quant, appex and replace caches an insert never makes
    the lookup of another key hit: after the insert of one key, the lookup
    of any other key (another operand or another discriminant) returns what
    it returned before the insert, or -1 when the insert took its slot. *)
Theorem insert_keeps_or_evicts {E : Extern} :
  hash_in_range →
  (∀ bc f g h r f' g' h', itecache.table bc ≠ [] → (f', g', h') ≠ (f, g, h) →
     ∃ bc', itecache.setite bc f g h r = Done (r, bc')
          ∧ ∀ v, returns (itecache.matchite bc' f' g' h') v →
                 v = -1 ∨ returns (itecache.matchite bc f' g' h') v)
  ∧ (∀ bc n varset r d n' varset' d', quantcache.table bc ≠ [] →
     (n', varset', d') ≠ (n, varset, d) →
     ∃ bc', quantcache.setquant (quantcache.with_id bc d) n varset r
            = Done (r, bc')
          ∧ ∀ v, returns (quantcache.matchquant
                            (quantcache.with_id bc' d') n' varset') v →
                 v = -1
                 ∨ returns (quantcache.matchquant
                              (quantcache.with_id bc d') n' varset') v)
  ∧ (∀ bc left right r d left' right' d', appexcache.table bc ≠ [] →
     (left', right', d') ≠ (left, right, d) →
     ∃ bc', appexcache.setappex (appexcache.with_id bc d) left right r
            = Done (r, bc')
          ∧ ∀ v, returns (appexcache.matchappex
                            (appexcache.with_id bc' d') left' right') v →
                 v = -1
                 ∨ returns (appexcache.matchappex
                              (appexcache.with_id bc d') left' right') v)
  ∧ (∀ bc n r d n' d', replacecache.table bc ≠ [] → 0 ≤ n → 0 ≤ n' →
     (n', d') ≠ (n, d) →
     ∃ bc', replacecache.setreplace (replacecache.with_id bc d) n r
            = Done (r, bc')
          ∧ ∀ v, returns (replacecache.matchreplace
                            (replacecache.with_id bc' d') n') v →
                 v = -1
                 ∨ returns (replacecache.matchreplace
                              (replacecache.with_id bc d') n') v).
Proof.
  intros Hhash. split; [| split; [| split]]; intros.
  - by apply setite_other_key.
  - by apply setquant_other_key.
  - by apply setappex_other_key.
  - by apply setreplace_other_key.
Qed.

Lemma insert_keeps_or_evicts_witness :
  let bc := replacecache.mk (fresh3 7) 4 in
  (replacecache.table bc ≠ [] ∧ 0 ≤ 5 ∧ 0 ≤ 12 ∧ (12, 4) ≠ (5, 4))
  ∧ ∃ bc', replacecache.setreplace (replacecache.with_id bc 4) 5 8 = Done (8, bc')
         ∧ ∀ v, returns (replacecache.matchreplace (E := sample)
                           (replacecache.with_id bc' 4) 12) v →
                v = -1
                ∨ returns (replacecache.matchreplace (E := sample)
                             (replacecache.with_id bc 4) 12) v.
Proof.
  intros bc.
  destruct (@insert_keeps_or_evicts sample sample_hash_in_range)
    as (_ & _ & _ & Hrp).
  split; [repeat split; [discriminate | lia | lia | discriminate] |].
  apply (Hrp bc 5 8 4 12 4); [discriminate | lia | lia | discriminate].
Defined.

(** ** One table for apply and not *)

Section shared_table.
Context {E : Extern}.
Hypothesis Hhash : hash_in_range.

Lemma setapply_other_key bc left right r d left' right' d' :
  applycache.table bc ≠ [] → (left', right', d') ≠ (left, right, d) →
  ∃ bc', applycache.setapply (applycache.with_op bc d) left right r = Done (r, bc')
       ∧ ∀ v, returns (applycache.matchapply (applycache.with_op bc' d') left' right') v →
              v = -1
              ∨ returns (applycache.matchapply (applycache.with_op bc d') left' right') v.
Proof.
  intros Hne Hkey.
  pose proof (triple_slot Hhash _ left right d Hne) as Hi.
  pose proof (triple_slot Hhash _ left' right' d' Hne) as Hj.
  eexists. split.
  { unfold applycache.setapply, applycache.table. simpl.
    rewrite store_in_range by done. reflexivity. }
  intros v. unfold returns, applycache.matchapply, applycache.table in *. simpl.
  rewrite len_insert.
  destruct (decide (_TRIPLE left right d
                      (Go.len (data4ncache.table (applycache.data4ncache bc)))
                    = _TRIPLE left' right' d'
                        (Go.len (data4ncache.table (applycache.data4ncache bc)))))
    as [Heq | Hneq].
  - rewrite <- Heq, index_insert_eq by done. simpl.
    rewrite bool_decide_eq_false_2 by (simpl; intros (-> & -> & ->); done).
    intros [s [= <-]]. by left.
  - rewrite index_insert_ne by lia.
    destruct (Go.index _ _) as [e | |]; simpl; [| by intros [? ?] ..].
    case_bool_decide; intros [s [= <-]]; right; by eexists.
Qed.

Lemma setapply_then_matchnot bc left right r d n :
  applycache.table bc ≠ [] → 0 ≤ n → d ≠ op_not →
  ∃ bc', applycache.setapply (applycache.with_op bc d) left right r = Done (r, bc')
       ∧ ∀ v, returns (applycache.matchnot bc' n) v →
              v = -1 ∨ returns (applycache.matchnot bc n) v.
Proof.
  intros Hne Hn Hd.
  pose proof (triple_slot Hhash _ left right d Hne) as Hi.
  pose proof (rem_slot _ n Hne Hn) as Hj.
  eexists. split.
  { unfold applycache.setapply, applycache.table. simpl.
    rewrite store_in_range by done. reflexivity. }
  intros v. unfold returns, applycache.matchnot, applycache.table in *. simpl.
  rewrite len_insert, rem_Done by done. simpl.
  destruct (decide (_TRIPLE left right d
                      (Go.len (data4ncache.table (applycache.data4ncache bc)))
                    = Z.rem n (Go.len (data4ncache.table (applycache.data4ncache bc)))))
    as [Heq | Hneq].
  - rewrite <- Heq, index_insert_eq by done. simpl.
    rewrite bool_decide_eq_false_2 by (simpl; intros (_ & ?); done).
    intros [s [= <-]]. by left.
  - rewrite index_insert_ne by lia.
    destruct (Go.index _ _) as [e | |]; simpl; [| by intros [? ?] ..].
    case_bool_decide; intros [s [= <-]]; right; by eexists.
Qed.

Lemma setnot_then_matchapply bc n r left right :
  applycache.table bc ≠ [] → 0 ≤ n → applycache.op bc ≠ op_not →
  ∃ bc', applycache.setnot bc n r = Done (r, bc')
       ∧ applycache.op bc' = applycache.op bc
       ∧ ∀ v, returns (applycache.matchapply bc' left right) v →
              v = -1 ∨ returns (applycache.matchapply bc left right) v.
Proof.
  intros Hne Hn Hd.
  pose proof (rem_slot _ n Hne Hn) as Hi.
  pose proof (triple_slot Hhash _ left right (applycache.op bc) Hne) as Hj.
  eexists. split; [| split].
  { unfold applycache.setnot, applycache.table. rewrite rem_Done by done. simpl.
    rewrite store_in_range by done. reflexivity. }
  { done. }
  intros v. unfold returns, applycache.matchapply, applycache.table in *. simpl.
  rewrite len_insert.
  destruct (decide (Z.rem n (Go.len (data4ncache.table (applycache.data4ncache bc)))
                    = _TRIPLE left right (applycache.op bc)
                        (Go.len (data4ncache.table (applycache.data4ncache bc)))))
    as [Heq | Hneq].
  - rewrite <- Heq, index_insert_eq by done. simpl.
    rewrite bool_decide_eq_false_2 by (simpl; intros (_ & _ & ?); done).
    intros [s [= <-]]. by left.
  - rewrite index_insert_ne by lia.
    destruct (Go.index _ _) as [e | |]; simpl; [| by intros [? ?] ..].
    case_bool_decide; intros [s [= <-]]; right; by eexists.
Qed.

End shared_table.

Lemma setnot_other_key {E : Extern} bc n r n' :
  applycache.table bc ≠ [] → 0 ≤ n → 0 ≤ n' → n' ≠ n →
  ∃ bc', applycache.setnot bc n r = Done (r, bc')
       ∧ ∀ v, returns (applycache.matchnot bc' n') v →
              v = -1 ∨ returns (applycache.matchnot bc n') v.
Proof.
  intros Hne Hn Hn' Hkey.
  pose proof (rem_slot _ n Hne Hn) as Hi. pose proof (rem_slot _ n' Hne Hn') as Hj.
  eexists. split.
  { unfold applycache.setnot, applycache.table. rewrite rem_Done by done. simpl.
    rewrite store_in_range by done. reflexivity. }
  intros v. unfold returns, applycache.matchnot, applycache.table in *. simpl.
  rewrite len_insert, !rem_Done by done. simpl.
  destruct (decide (Z.rem n (Go.len (data4ncache.table (applycache.data4ncache bc)))
                    = Z.rem n'
                        (Go.len (data4ncache.table (applycache.data4ncache bc)))))
    as [Heq | Hneq].
  - rewrite <- Heq, index_insert_eq by done. simpl.
    rewrite bool_decide_eq_false_2 by (simpl; intros (-> & _); done).
    intros [s [= <-]]. by left.
  - rewrite index_insert_ne by lia.
    destruct (Go.index _ _) as [e | |]; simpl; [| by intros [? ?] ..].
    case_bool_decide; intros [s [= <-]]; right; by eexists.
Qed.

(** X7. The apply cache and its not entries share one table without
    answering for each other.  After [setapply] the lookup of another
    (left, right, operator) returns what it returned before or -1, and so
    does any [matchnot] when the operator is not [op_not]; after [setnot]
    the [matchnot] of another node returns what it returned before or -1,
    and so does any [matchapply] when the current operator is not
    [op_not]. *)
Theorem apply_table_keeps_or_evicts {E : Extern} :
  hash_in_range →
  (∀ bc left right r d left' right' d', applycache.table bc ≠ [] →
     (left', right', d') ≠ (left, right, d) →
     ∃ bc', applycache.setapply (applycache.with_op bc d) left right r
            = Done (r, bc')
          ∧ ∀ v, returns (applycache.matchapply
                            (applycache.with_op bc' d') left' right') v →
                 v = -1
                 ∨ returns (applycache.matchapply
                              (applycache.with_op bc d') left' right') v)
  ∧ (∀ bc left right r d n, applycache.table bc ≠ [] → 0 ≤ n → d ≠ op_not →
     ∃ bc', applycache.setapply (applycache.with_op bc d) left right r
            = Done (r, bc')
          ∧ ∀ v, returns (applycache.matchnot bc' n) v →
                 v = -1 ∨ returns (applycache.matchnot bc n) v)
  ∧ (∀ bc n r n', applycache.table bc ≠ [] → 0 ≤ n → 0 ≤ n' → n' ≠ n →
     ∃ bc', applycache.setnot bc n r = Done (r, bc')
          ∧ ∀ v, returns (applycache.matchnot bc' n') v →
                 v = -1 ∨ returns (applycache.matchnot bc n') v)
  ∧ (∀ bc n r left right, applycache.table bc ≠ [] → 0 ≤ n →
     applycache.op bc ≠ op_not →
     ∃ bc', applycache.setnot bc n r = Done (r, bc')
          ∧ applycache.op bc' = applycache.op bc
          ∧ ∀ v, returns (applycache.matchapply bc' left right) v →
                 v = -1 ∨ returns (applycache.matchapply bc left right) v).
Proof.
  intros Hhash. split; [| split; [| split]]; intros.
  - by apply setapply_other_key.
  - by apply setapply_then_matchnot.
  - by apply setnot_other_key.
  - by apply setnot_then_matchapply.
Qed.

Lemma apply_table_keeps_or_evicts_witness :
  let bc := applycache.mk (fresh4 7) 2 in
  (applycache.table bc ≠ [] ∧ 0 ≤ 3 ∧ applycache.op bc ≠ op_not (Extern := sample))
  ∧ ∃ bc', applycache.setnot (E := sample) bc 3 8 = Done (8, bc')
         ∧ applycache.op bc' = 2
         ∧ ∀ v, returns (applycache.matchapply (E := sample) bc' 3 0) v →
                v = -1 ∨ returns (applycache.matchapply (E := sample) bc 3 0) v.
Proof.
  intros bc.
  destruct (@apply_table_keeps_or_evicts sample sample_hash_in_range)
    as (_ & _ & _ & Hnot).
  split; [repeat split; [discriminate | lia | discriminate] |].
  apply (Hnot bc 3 8 3 0); [discriminate | lia | discriminate].
Defined.

(** X8. On a non-empty table and for a node id that is not negative,
    [setnot] returns its result argument and an immediate [matchnot] of the
    same node returns that result, whatever the current operator of the
    apply cache. *)
Theorem setnot_matchnot {E : Extern} bc n r :
  applycache.table bc ≠ [] → 0 ≤ n →
  ∃ bc', applycache.setnot bc n r = Done (r, bc')
       ∧ ∀ d, returns (applycache.matchnot (applycache.with_op bc' d) n) r.
Proof.
  intros Hne Hn. pose proof (rem_slot _ n Hne Hn) as Hi.
  eexists. split.
  - unfold applycache.setnot. rewrite rem_Done by done. simpl.
    rewrite store_in_range by done. reflexivity.
  - intros d. unfold returns, applycache.matchnot, applycache.table. simpl.
    rewrite len_insert. rewrite rem_Done by done. simpl.
    rewrite index_insert_eq by done. simpl.
    rewrite bool_decide_eq_true_2 by done. by eexists.
Qed.

Lemma setnot_matchnot_witness :
  let bc := applycache.mk (fresh4 7) 2 in
  (applycache.table bc ≠ [] ∧ 0 ≤ 12)
  ∧ ∃ bc', applycache.setnot (E := sample) bc 12 8 = Done (8, bc')
         ∧ ∀ d, returns (applycache.matchnot (E := sample)
                           (applycache.with_op bc' d) 12) 8.
Proof.
  intros bc. split; [split; [discriminate | lia] |].
  apply (@setnot_matchnot sample bc 12 8); [discriminate | lia].
Defined.

(** ** Two inserts in one slot *)

(** Runs the inserts and lookups of a goal whose slots are known to be in
    range. *)
Ltac cache_run :=
  repeat first
    [ rewrite len_insert
    | rewrite rem_Done by done
    | rewrite store_in_range by (rewrite ?len_insert; done)
    | rewrite index_insert_eq by (rewrite ?len_insert; done)
    | progress simpl ].

Section evictions.
Context {E : Extern}.
Hypothesis Hhash : hash_in_range.

Lemma setite_evicts bc f g h r f' g' h' r' :
  itecache.table bc ≠ [] → (f, g, h) ≠ (f', g', h') →
  _TRIPLE f g h (Go.len (itecache.table bc))
  = _TRIPLE f' g' h' (Go.len (itecache.table bc)) →
  ∃ bc1 bc2, itecache.setite bc f g h r = Done (r, bc1)
           ∧ itecache.setite bc1 f' g' h' r' = Done (r', bc2)
           ∧ returns (itecache.matchite bc2 f g h) (-1)
           ∧ returns (itecache.matchite bc2 f' g' h') r'.
Proof.
  intros Hne Hkey Hslot.
  pose proof (triple_slot Hhash _ f g h Hne) as Hi.
  pose proof (triple_slot Hhash _ f' g' h' Hne) as Hj.
  unfold returns, itecache.setite, itecache.matchite, itecache.table in *.
  do 2 eexists. split; [cache_run; reflexivity |].
  split; [cache_run; reflexivity |]. cache_run. split.
  - rewrite Hslot. cache_run.
    rewrite bool_decide_eq_false_2 by (intros (-> & -> & ->); done). by eexists.
  - rewrite bool_decide_eq_true_2 by done. by eexists.
Qed.

Lemma setapply_evicts bc left right r left' right' r' :
  applycache.table bc ≠ [] → (left, right) ≠ (left', right') →
  _TRIPLE left right (applycache.op bc) (Go.len (applycache.table bc))
  = _TRIPLE left' right' (applycache.op bc) (Go.len (applycache.table bc)) →
  ∃ bc1 bc2, applycache.setapply bc left right r = Done (r, bc1)
           ∧ applycache.setapply bc1 left' right' r' = Done (r', bc2)
           ∧ returns (applycache.matchapply bc2 left right) (-1)
           ∧ returns (applycache.matchapply bc2 left' right') r'.
Proof.
  intros Hne Hkey Hslot.
  pose proof (triple_slot Hhash _ left right (applycache.op bc) Hne) as Hi.
  pose proof (triple_slot Hhash _ left' right' (applycache.op bc) Hne) as Hj.
  unfold returns, applycache.setapply, applycache.matchapply, applycache.table in *.
  do 2 eexists. split; [cache_run; reflexivity |].
  split; [cache_run; reflexivity |]. cache_run. split.
  - rewrite Hslot. cache_run.
    rewrite bool_decide_eq_false_2 by (intros (-> & -> & _); done). by eexists.
  - rewrite bool_decide_eq_true_2 by done. by eexists.
Qed.

Lemma setquant_evicts bc n varset r n' varset' r' :
  quantcache.table bc ≠ [] → (n, varset) ≠ (n', varset') →
  _PAIR n varset (Go.len (quantcache.table bc))
  = _PAIR n' varset' (Go.len (quantcache.table bc)) →
  ∃ bc1 bc2, quantcache.setquant bc n varset r = Done (r, bc1)
           ∧ quantcache.setquant bc1 n' varset' r' = Done (r', bc2)
           ∧ returns (quantcache.matchquant bc2 n varset) (-1)
           ∧ returns (quantcache.matchquant bc2 n' varset') r'.
Proof.
  intros Hne Hkey Hslot.
  pose proof (pair_slot Hhash _ n varset Hne) as Hi.
  pose proof (pair_slot Hhash _ n' varset' Hne) as Hj.
  unfold returns, quantcache.setquant, quantcache.matchquant, quantcache.table in *.
  do 2 eexists. split; [cache_run; reflexivity |].
  split; [cache_run; reflexivity |]. cache_run. split.
  - rewrite Hslot. cache_run.
    rewrite bool_decide_eq_false_2 by (intros (-> & -> & _); done). by eexists.
  - rewrite bool_decide_eq_true_2 by done. by eexists.
Qed.

Lemma setappex_evicts bc left right r left' right' r' :
  appexcache.table bc ≠ [] → (left, right) ≠ (left', right') →
  _TRIPLE left right (appexcache.id bc) (Go.len (appexcache.table bc))
  = _TRIPLE left' right' (appexcache.id bc) (Go.len (appexcache.table bc)) →
  ∃ bc1 bc2, appexcache.setappex bc left right r = Done (r, bc1)
           ∧ appexcache.setappex bc1 left' right' r' = Done (r', bc2)
           ∧ returns (appexcache.matchappex bc2 left right) (-1)
           ∧ returns (appexcache.matchappex bc2 left' right') r'.
Proof.
  intros Hne Hkey Hslot.
  pose proof (triple_slot Hhash _ left right (appexcache.id bc) Hne) as Hi.
  pose proof (triple_slot Hhash _ left' right' (appexcache.id bc) Hne) as Hj.
  unfold returns, appexcache.setappex, appexcache.matchappex, appexcache.table in *.
  do 2 eexists. split; [cache_run; reflexivity |].
  split; [cache_run; reflexivity |]. cache_run. split.
  - rewrite Hslot. cache_run.
    rewrite bool_decide_eq_false_2 by (intros (-> & -> & _); done). by eexists.
  - rewrite bool_decide_eq_true_2 by done. by eexists.
Qed.

End evictions.

Lemma setnot_evicts {E : Extern} bc n r n' r' :
  applycache.table bc ≠ [] → 0 ≤ n → 0 ≤ n' → n ≠ n' →
  Z.rem n (Go.len (applycache.table bc)) = Z.rem n' (Go.len (applycache.table bc)) →
  ∃ bc1 bc2, applycache.setnot bc n r = Done (r, bc1)
           ∧ applycache.setnot bc1 n' r' = Done (r', bc2)
           ∧ returns (applycache.matchnot bc2 n) (-1)
           ∧ returns (applycache.matchnot bc2 n') r'.
Proof.
  intros Hne Hn Hn' Hkey Hslot.
  pose proof (rem_slot _ n Hne Hn) as Hi. pose proof (rem_slot _ n' Hne Hn') as Hj.
  unfold returns, applycache.setnot, applycache.matchnot, applycache.table in *.
  do 2 eexists. split; [cache_run; reflexivity |].
  split; [cache_run; reflexivity |]. cache_run. split.
  - rewrite Hslot. cache_run.
    rewrite bool_decide_eq_false_2 by (intros (-> & _); done). by eexists.
  - rewrite bool_decide_eq_true_2 by done. by eexists.
Qed.

Lemma setreplace_evicts {E : Extern} bc n r n' r' :
  replacecache.table bc ≠ [] → 0 ≤ n → 0 ≤ n' → n ≠ n' →
  Z.rem n (Go.len (replacecache.table bc))
  = Z.rem n' (Go.len (replacecache.table bc)) →
  ∃ bc1 bc2, replacecache.setreplace bc n r = Done (r, bc1)
           ∧ replacecache.setreplace bc1 n' r' = Done (r', bc2)
           ∧ returns (replacecache.matchreplace bc2 n) (-1)
           ∧ returns (replacecache.matchreplace bc2 n') r'.
Proof.
  intros Hne Hn Hn' Hkey Hslot.
  pose proof (rem_slot _ n Hne Hn) as Hi. pose proof (rem_slot _ n' Hne Hn') as Hj.
  unfold returns, replacecache.setreplace, replacecache.matchreplace,
    replacecache.table in *.
  do 2 eexists. split; [cache_run; reflexivity |].
  split; [cache_run; reflexivity |]. cache_run. split.
  - rewrite Hslot. cache_run.
    rewrite bool_decide_eq_false_2 by (intros (-> & _); done). by eexists.
  - rewrite bool_decide_eq_true_2 by done. by eexists.
Qed.

(** X9. The caches are direct mapped: when two different keys fall in the
    same slot, the insert of the second evicts the first.  After both
    inserts the lookup of the first key returns -1 and the lookup of the
    second its result.  The unary caches share a slot exactly when the node
    ids have the same remainder modulo the capacity. *)
Theorem same_slot_evicts {E : Extern} :
  hash_in_range →
  (∀ bc left right r left' right' r', applycache.table bc ≠ [] →
     (left, right) ≠ (left', right') →
     _TRIPLE left right (applycache.op bc) (Go.len (applycache.table bc))
     = _TRIPLE left' right' (applycache.op bc) (Go.len (applycache.table bc)) →
     ∃ bc1 bc2, applycache.setapply bc left right r = Done (r, bc1)
              ∧ applycache.setapply bc1 left' right' r' = Done (r', bc2)
              ∧ returns (applycache.matchapply bc2 left right) (-1)
              ∧ returns (applycache.matchapply bc2 left' right') r')
  ∧ (∀ bc n r n' r', applycache.table bc ≠ [] → 0 ≤ n → 0 ≤ n' → n ≠ n' →
     Z.rem n (Go.len (applycache.table bc))
     = Z.rem n' (Go.len (applycache.table bc)) →
     ∃ bc1 bc2, applycache.setnot bc n r = Done (r, bc1)
              ∧ applycache.setnot bc1 n' r' = Done (r', bc2)
              ∧ returns (applycache.matchnot bc2 n) (-1)
              ∧ returns (applycache.matchnot bc2 n') r')
  ∧ (∀ bc f g h r f' g' h' r', itecache.table bc ≠ [] →
     (f, g, h) ≠ (f', g', h') →
     _TRIPLE f g h (Go.len (itecache.table bc))
     = _TRIPLE f' g' h' (Go.len (itecache.table bc)) →
     ∃ bc1 bc2, itecache.setite bc f g h r = Done (r, bc1)
              ∧ itecache.setite bc1 f' g' h' r' = Done (r', bc2)
              ∧ returns (itecache.matchite bc2 f g h) (-1)
              ∧ returns (itecache.matchite bc2 f' g' h') r')
  ∧ (∀ bc n varset r n' varset' r', quantcache.table bc ≠ [] →
     (n, varset) ≠ (n', varset') →
     _PAIR n varset (Go.len (quantcache.table bc))
     = _PAIR n' varset' (Go.len (quantcache.table bc)) →
     ∃ bc1 bc2, quantcache.setquant bc n varset r = Done (r, bc1)
              ∧ quantcache.setquant bc1 n' varset' r' = Done (r', bc2)
              ∧ returns (quantcache.matchquant bc2 n varset) (-1)
              ∧ returns (quantcache.matchquant bc2 n' varset') r')
  ∧ (∀ bc left right r left' right' r', appexcache.table bc ≠ [] →
     (left, right) ≠ (left', right') →
     _TRIPLE left right (appexcache.id bc) (Go.len (appexcache.table bc))
     = _TRIPLE left' right' (appexcache.id bc) (Go.len (appexcache.table bc)) →
     ∃ bc1 bc2, appexcache.setappex bc left right r = Done (r, bc1)
              ∧ appexcache.setappex bc1 left' right' r' = Done (r', bc2)
              ∧ returns (appexcache.matchappex bc2 left right) (-1)
              ∧ returns (appexcache.matchappex bc2 left' right') r')
  ∧ (∀ bc n r n' r', replacecache.table bc ≠ [] → 0 ≤ n → 0 ≤ n' → n ≠ n' →
     Z.rem n (Go.len (replacecache.table bc))
     = Z.rem n' (Go.len (replacecache.table bc)) →
     ∃ bc1 bc2, replacecache.setreplace bc n r = Done (r, bc1)
              ∧ replacecache.setreplace bc1 n' r' = Done (r', bc2)
              ∧ returns (replacecache.matchreplace bc2 n) (-1)
              ∧ returns (replacecache.matchreplace bc2 n') r').
Proof.
  intros Hhash. split; [| split; [| split; [| split; [| split]]]]; intros.
  - by apply setapply_evicts.
  - by apply setnot_evicts.
  - by apply setite_evicts.
  - by apply setquant_evicts.
  - by apply setappex_evicts.
  - by apply setreplace_evicts.
Qed.

Lemma same_slot_evicts_witness :
  let bc := replacecache.mk (fresh3 7) 4 in
  (replacecache.table bc ≠ [] ∧ 0 ≤ 5 ∧ 0 ≤ 12 ∧ 5 ≠ 12
   ∧ Z.rem 5 (Go.len (replacecache.table bc))
     = Z.rem 12 (Go.len (replacecache.table bc)))
  ∧ ∃ bc1 bc2, replacecache.setreplace bc 5 8 = Done (8, bc1)
             ∧ replacecache.setreplace bc1 12 9 = Done (9, bc2)
             ∧ returns (replacecache.matchreplace (E := sample) bc2 5) (-1)
             ∧ returns (replacecache.matchreplace (E := sample) bc2 12) 9.
Proof.
  intros bc.
  destruct (@same_slot_evicts sample sample_hash_in_range)
    as (_ & _ & _ & _ & _ & Hrp).
  split; [repeat split; [discriminate | lia | lia | lia] |].
  apply (Hrp bc 5 8 12 9); [discriminate | lia | lia | lia | reflexivity].
Defined.

(** X10. The field [op] of the appex cache takes no part in the key: the slot
    and the tag of an entry are computed from [id] alone, so an entry
    inserted under one value of [op] is returned under any other value of
    [op] as long as [id] is the same. *)
Theorem appex_ignores_op {E : Extern} bc left right r o :
  hash_in_range → appexcache.table bc ≠ [] →
  ∃ bc', appexcache.setappex bc left right r = Done (r, bc')
       ∧ returns (appexcache.matchappex
                    (appexcache.mk (appexcache.data4ncache bc') o
                       (appexcache.id bc')) left right) r.
Proof.
  intros Hhash Hne.
  pose proof (triple_slot Hhash _ left right (appexcache.id bc) Hne) as Hi.
  unfold returns, appexcache.setappex, appexcache.matchappex, appexcache.table in *.
  eexists. split; [cache_run; reflexivity |]. cache_run.
  rewrite bool_decide_eq_true_2 by done. by eexists.
Qed.

Lemma appex_ignores_op_witness :
  let bc := appexcache.mk (fresh4 7) 0 4 in
  appexcache.table bc ≠ []
  ∧ ∃ bc', appexcache.setappex (E := sample) bc 3 5 9 = Done (9, bc')
         ∧ returns (appexcache.matchappex (E := sample)
                      (appexcache.mk (appexcache.data4ncache bc') 3
                         (appexcache.id bc')) 3 5) 9.
Proof.
  intros bc. split; [discriminate |].
  apply (@appex_ignores_op sample bc 3 5 9 3 sample_hash_in_range). discriminate.
Defined.

(** ** Lookups leave the table alone *)

Ltac lookup_frame :=
  simpl;
  repeat match goal with
         | |- context [Go.rem ?n ?d] => destruct (Go.rem n d); simpl; [| done | done]
         | |- context [Go.index ?s ?i] => destruct (Go.index s i); simpl; [| done | done]
         end;
  case_bool_decide; intros [= <- <-];
  unfold applycache.opHit, applycache.opMiss, itecache.opHit, itecache.opMiss,
    quantcache.opHit, quantcache.opMiss, appexcache.opHit, appexcache.opMiss,
    replacecache.opHit, replacecache.opMiss, counted4, counted3;
  destruct _DEBUG; simpl; repeat split; auto.

Section lookups.
Context {E : Extern}.

Lemma matchapply_frame bc left right v bc' :
  applycache.matchapply bc left right = Done (v, bc') →
  counted4 (applycache.data4ncache bc) (applycache.data4ncache bc')
  ∧ applycache.op bc' = applycache.op bc.
Proof. unfold applycache.matchapply. lookup_frame. Qed.

Lemma matchnot_frame bc n v bc' :
  applycache.matchnot bc n = Done (v, bc') →
  counted4 (applycache.data4ncache bc) (applycache.data4ncache bc')
  ∧ applycache.op bc' = applycache.op bc.
Proof. unfold applycache.matchnot. lookup_frame. Qed.

Lemma matchite_frame bc f g h v bc' :
  itecache.matchite bc f g h = Done (v, bc') →
  counted4 (itecache.data4ncache bc) (itecache.data4ncache bc').
Proof. unfold itecache.matchite. lookup_frame. Qed.

Lemma matchquant_frame bc n varset v bc' :
  quantcache.matchquant bc n varset = Done (v, bc') →
  counted4 (quantcache.data4ncache bc) (quantcache.data4ncache bc')
  ∧ quantcache.id bc' = quantcache.id bc.
Proof. unfold quantcache.matchquant. lookup_frame. Qed.

Lemma matchappex_frame bc left right v bc' :
  appexcache.matchappex bc left right = Done (v, bc') →
  counted4 (appexcache.data4ncache bc) (appexcache.data4ncache bc')
  ∧ appexcache.op bc' = appexcache.op bc
  ∧ appexcache.id bc' = appexcache.id bc.
Proof. unfold appexcache.matchappex. lookup_frame. Qed.

Lemma matchreplace_frame bc n v bc' :
  replacecache.matchreplace bc n = Done (v, bc') →
  counted3 (replacecache.data3ncache bc) (replacecache.data3ncache bc')
  ∧ replacecache.id bc' = replacecache.id bc.
Proof. unfold replacecache.matchreplace. lookup_frame. Qed.

End lookups.

Section lookups_again.
Context {E : Extern}.

Lemma matchapply_again bc left right v bc' :
  applycache.matchapply bc left right = Done (v, bc') →
  returns (applycache.matchapply bc' left right) v.
Proof.
  intros Hrun. destruct (matchapply_frame _ _ _ _ _ Hrun) as ((Htbl & _) & Hop).
  revert Hrun. unfold returns, applycache.matchapply, applycache.table.
  rewrite Htbl, Hop.
  destruct (Go.index _ _); simpl; [| done | done].
  case_bool_decide; intros [= <- _]; by eexists.
Qed.

Lemma matchnot_again bc n v bc' :
  applycache.matchnot bc n = Done (v, bc') →
  returns (applycache.matchnot bc' n) v.
Proof.
  intros Hrun. destruct (matchnot_frame _ _ _ _ Hrun) as ((Htbl & _) & Hop).
  revert Hrun. unfold returns, applycache.matchnot, applycache.table.
  rewrite Htbl.
  destruct (Go.rem _ _); simpl; [| done | done].
  destruct (Go.index _ _); simpl; [| done | done].
  case_bool_decide; intros [= <- _]; by eexists.
Qed.

Lemma matchite_again bc f g h v bc' :
  itecache.matchite bc f g h = Done (v, bc') →
  returns (itecache.matchite bc' f g h) v.
Proof.
  intros Hrun. destruct (matchite_frame _ _ _ _ _ _ Hrun) as (Htbl & _).
  revert Hrun. unfold returns, itecache.matchite, itecache.table.
  rewrite Htbl.
  destruct (Go.index _ _); simpl; [| done | done].
  case_bool_decide; intros [= <- _]; by eexists.
Qed.

Lemma matchquant_again bc n varset v bc' :
  quantcache.matchquant bc n varset = Done (v, bc') →
  returns (quantcache.matchquant bc' n varset) v.
Proof.
  intros Hrun. destruct (matchquant_frame _ _ _ _ _ Hrun) as ((Htbl & _) & Hid).
  revert Hrun. unfold returns, quantcache.matchquant, quantcache.table.
  rewrite Htbl, Hid.
  destruct (Go.index _ _); simpl; [| done | done].
  case_bool_decide; intros [= <- _]; by eexists.
Qed.

Lemma matchappex_again bc left right v bc' :
  appexcache.matchappex bc left right = Done (v, bc') →
  returns (appexcache.matchappex bc' left right) v.
Proof.
  intros Hrun.
  destruct (matchappex_frame _ _ _ _ _ Hrun) as ((Htbl & _) & _ & Hid).
  revert Hrun. unfold returns, appexcache.matchappex, appexcache.table.
  rewrite Htbl, Hid.
  destruct (Go.index _ _); simpl; [| done | done].
  case_bool_decide; intros [= <- _]; by eexists.
Qed.

Lemma matchreplace_again bc n v bc' :
  replacecache.matchreplace bc n = Done (v, bc') →
  returns (replacecache.matchreplace bc' n) v.
Proof.
  intros Hrun. destruct (matchreplace_frame _ _ _ _ Hrun) as ((Htbl & _) & Hid).
  revert Hrun. unfold returns, replacecache.matchreplace, replacecache.table.
  rewrite Htbl, Hid.
  destruct (Go.rem _ _); simpl; [| done | done].
  destruct (Go.index _ _); simpl; [| done | done].
  case_bool_decide; intros [= <- _]; by eexists.
Qed.

End lookups_again.

(** X11. A lookup never writes a slot: whatever it returns, the table, the
    ratio and the discriminants are what they were, and the same lookup
    repeated returns the same value.  With [_DEBUG] set exactly one of the
    counters [opHit] and [opMiss] goes up by one (wrapping on 64 bits);
    without it the cache is unchanged. *)
Theorem lookups_read_only {E : Extern} :
  (∀ bc left right v bc', applycache.matchapply bc left right = Done (v, bc') →
     counted4 (applycache.data4ncache bc) (applycache.data4ncache bc')
     ∧ applycache.op bc' = applycache.op bc
     ∧ returns (applycache.matchapply bc' left right) v)
  ∧ (∀ bc n v bc', applycache.matchnot bc n = Done (v, bc') →
     counted4 (applycache.data4ncache bc) (applycache.data4ncache bc')
     ∧ applycache.op bc' = applycache.op bc
     ∧ returns (applycache.matchnot bc' n) v)
  ∧ (∀ bc f g h v bc', itecache.matchite bc f g h = Done (v, bc') →
     counted4 (itecache.data4ncache bc) (itecache.data4ncache bc')
     ∧ returns (itecache.matchite bc' f g h) v)
  ∧ (∀ bc n varset v bc', quantcache.matchquant bc n varset = Done (v, bc') →
     counted4 (quantcache.data4ncache bc) (quantcache.data4ncache bc')
     ∧ quantcache.id bc' = quantcache.id bc
     ∧ returns (quantcache.matchquant bc' n varset) v)
  ∧ (∀ bc left right v bc', appexcache.matchappex bc left right = Done (v, bc') →
     counted4 (appexcache.data4ncache bc) (appexcache.data4ncache bc')
     ∧ appexcache.op bc' = appexcache.op bc
     ∧ appexcache.id bc' = appexcache.id bc
     ∧ returns (appexcache.matchappex bc' left right) v)
  ∧ (∀ bc n v bc', replacecache.matchreplace bc n = Done (v, bc') →
     counted3 (replacecache.data3ncache bc) (replacecache.data3ncache bc')
     ∧ replacecache.id bc' = replacecache.id bc
     ∧ returns (replacecache.matchreplace bc' n) v).
Proof.
  split; [| split; [| split; [| split; [| split]]]].
  - intros bc left right v bc' Hrun.
    destruct (matchapply_frame _ _ _ _ _ Hrun) as (? & ?).
    by pose proof (matchapply_again _ _ _ _ _ Hrun).
  - intros bc n v bc' Hrun. destruct (matchnot_frame _ _ _ _ Hrun) as (? & ?).
    by pose proof (matchnot_again _ _ _ _ Hrun).
  - intros bc f g h v bc' Hrun.
    pose proof (matchite_frame _ _ _ _ _ _ Hrun).
    by pose proof (matchite_again _ _ _ _ _ _ Hrun).
  - intros bc n varset v bc' Hrun.
    destruct (matchquant_frame _ _ _ _ _ Hrun) as (? & ?).
    by pose proof (matchquant_again _ _ _ _ _ Hrun).
  - intros bc left right v bc' Hrun.
    destruct (matchappex_frame _ _ _ _ _ Hrun) as (? & ? & ?).
    by pose proof (matchappex_again _ _ _ _ _ Hrun).
  - intros bc n v bc' Hrun. destruct (matchreplace_frame _ _ _ _ Hrun) as (? & ?).
    by pose proof (matchreplace_again _ _ _ _ Hrun).
Qed.

Lemma lookups_read_only_witness :
  let bc := applycache.mk (fresh4 7) 0 in
  let bc' := applycache.opHit (E := sample) bc in
  applycache.matchapply (E := sample) bc 0 0 = Done (0, bc')
  ∧ counted4 (E := sample) (applycache.data4ncache bc) (applycache.data4ncache bc')
  ∧ applycache.op bc' = 0
  ∧ returns (applycache.matchapply (E := sample) bc' 0 0) 0.
Proof.
  intros bc bc'.
  destruct (@lookups_read_only sample) as (Hap & _).
  assert (applycache.matchapply (E := sample) bc 0 0 = Done (0, bc')) as Hrun
    by reflexivity.
  split; [exact Hrun |]. apply (Hap bc 0 0 0 bc' Hrun).
Defined.

(** ** Sizing a slot table *)

Lemma reset4_idem bc : data4ncache.reset (data4ncache.reset bc) = data4ncache.reset bc.
Proof.
  unfold data4ncache.reset, data4ncache.with_table. simpl. f_equal.
  rewrite <- list_fmap_compose. by apply list_fmap_ext.
Qed.

Lemma reset3_idem bc : data3ncache.reset (data3ncache.reset bc) = data3ncache.reset bc.
Proof.
  unfold data3ncache.reset, data3ncache.with_table. simpl. f_equal.
  rewrite <- list_fmap_compose. by apply list_fmap_ext.
Qed.

Section sizing4.
Context {E : Extern}.

Lemma init4_Done bc size ratio :
  0 ≤ bdd_prime_gte size →
  data4ncache.init bc size ratio
  = Done (data4ncache.mk ratio (data4ncache.opHit bc) (data4ncache.opMiss bc)
            (replicate (Z.to_nat (bdd_prime_gte size)) (data4n.mk 0 (-1) 0 0))).
Proof.
  intros Hp. unfold data4ncache.init, Go.make.
  rewrite bool_decide_eq_false_2 by lia. simpl.
  unfold data4ncache.reset, data4ncache.with_table. simpl.
  by rewrite fmap_replicate.
Qed.

Lemma init4_Panic bc size ratio :
  bdd_prime_gte size < 0 → data4ncache.init bc size ratio = Panic.
Proof.
  intros Hp. unfold data4ncache.init, Go.make. by rewrite bool_decide_eq_true_2.
Qed.

Lemma init4_then_resize bc size ratio n bc1 :
  data4ncache.init bc size ratio = Done bc1 →
  data4ncache.resize bc1 n
  = (if bool_decide (ratio > 0) then data4ncache.init bc (n ÷ ratio) ratio
     else Done bc1).
Proof.
  unfold data4ncache.init at 1.
  destruct (Go.make data4n.zero (bdd_prime_gte size)) as [tbl | |];
    simpl; [| done | done].
  intros [= <-]. unfold data4ncache.resize. simpl. case_bool_decide.
  - unfold data4ncache.init.
    destruct (Go.make data4n.zero (bdd_prime_gte (n ÷ ratio))); by simpl.
  - simpl. by rewrite reset4_idem.
Qed.

End sizing4.

Section sizing3.
Context {E : Extern}.

Lemma init3_Done bc size ratio :
  0 ≤ bdd_prime_gte size →
  data3ncache.init bc size ratio
  = Done (data3ncache.mk ratio (data3ncache.opHit bc) (data3ncache.opMiss bc)
            (replicate (Z.to_nat (bdd_prime_gte size)) (data3n.mk 0 (-1) 0))).
Proof.
  intros Hp. unfold data3ncache.init, Go.make.
  rewrite bool_decide_eq_false_2 by lia. simpl.
  unfold data3ncache.reset, data3ncache.with_table. simpl.
  by rewrite fmap_replicate.
Qed.

Lemma init3_Panic bc size ratio :
  bdd_prime_gte size < 0 → data3ncache.init bc size ratio = Panic.
Proof.
  intros Hp. unfold data3ncache.init, Go.make. by rewrite bool_decide_eq_true_2.
Qed.

Lemma init3_then_resize bc size ratio n bc1 :
  data3ncache.init bc size ratio = Done bc1 →
  data3ncache.resize bc1 n
  = (if bool_decide (ratio > 0) then data3ncache.init bc (n ÷ ratio) ratio
     else Done bc1).
Proof.
  unfold data3ncache.init at 1.
  destruct (Go.make data3n.zero (bdd_prime_gte size)) as [tbl | |];
    simpl; [| done | done].
  intros [= <-]. unfold data3ncache.resize. simpl. case_bool_decide.
  - unfold data3ncache.init.
    destruct (Go.make data3n.zero (bdd_prime_gte (n ÷ ratio))); by simpl.
  - simpl. by rewrite reset3_idem.
Qed.

End sizing3.

(** X12. [init size ratio] drops the old table and allocates one whose
    capacity is what the prime search returns for [size], with every slot
    empty, so that every lookup misses; it records the ratio and keeps the
    counters.  It panics when the prime search returns a negative
    capacity. *)
Theorem init_allocates {E : Extern} :
  hash_in_range →
  (∀ bc size ratio, 0 ≤ bdd_prime_gte size →
     ∃ bc', data4ncache.init bc size ratio = Done bc'
          ∧ data4ncache.table bc'
            = replicate (Z.to_nat (bdd_prime_gte size)) (data4n.mk 0 (-1) 0 0)
          ∧ Go.len (data4ncache.table bc') = bdd_prime_gte size
          ∧ data4ncache.ratio bc' = ratio
          ∧ data4ncache.opHit bc' = data4ncache.opHit bc
          ∧ data4ncache.opMiss bc' = data4ncache.opMiss bc
          ∧ (0 < bdd_prime_gte size → misses4 bc'))
  ∧ (∀ bc size ratio, bdd_prime_gte size < 0 →
     data4ncache.init bc size ratio = Panic)
  ∧ (∀ bc size ratio, 0 ≤ bdd_prime_gte size →
     ∃ bc', data3ncache.init bc size ratio = Done bc'
          ∧ data3ncache.table bc'
            = replicate (Z.to_nat (bdd_prime_gte size)) (data3n.mk 0 (-1) 0)
          ∧ Go.len (data3ncache.table bc') = bdd_prime_gte size
          ∧ data3ncache.ratio bc' = ratio
          ∧ data3ncache.opHit bc' = data3ncache.opHit bc
          ∧ data3ncache.opMiss bc' = data3ncache.opMiss bc
          ∧ (0 < bdd_prime_gte size → misses3 bc'))
  ∧ (∀ bc size ratio, bdd_prime_gte size < 0 →
     data3ncache.init bc size ratio = Panic).
Proof.
  intros Hhash. split; [| split; [| split]].
  - intros bc size ratio Hp. eexists. split; [by apply init4_Done |]. simpl.
    split; [done |]. split; [by apply len_replicate |]. do 3 (split; [done |]).
    intros Hpos. apply misses4_empty; [done | |]; simpl.
    + apply len_nonempty. rewrite len_replicate; lia.
    + apply Forall_replicate. done.
  - intros. by apply init4_Panic.
  - intros bc size ratio Hp. eexists. split; [by apply init3_Done |]. simpl.
    split; [done |]. split; [by apply len_replicate |]. do 3 (split; [done |]).
    intros Hpos. apply misses3_empty; simpl.
    + apply len_nonempty. rewrite len_replicate; lia.
    + apply Forall_replicate. done.
  - intros. by apply init3_Panic.
Qed.

Lemma init_allocates_witness :
  let bc := data4ncache.mk 0 5 6 [data4n.mk 9 3 5 0] in
  0 ≤ next_prime 6
  ∧ ∃ bc', data4ncache.init (E := sample) bc 6 3 = Done bc'
         ∧ data4ncache.table bc' = replicate 7 (data4n.mk 0 (-1) 0 0)
         ∧ Go.len (data4ncache.table bc') = 7
         ∧ data4ncache.ratio bc' = 3
         ∧ data4ncache.opHit bc' = 5
         ∧ data4ncache.opMiss bc' = 6
         ∧ (0 < next_prime 6 → misses4 (E := sample) bc').
Proof.
  intros bc.
  destruct (@init_allocates sample sample_hash_in_range) as (Hinit & _).
  split; [vm_compute; discriminate |].
  apply (Hinit bc 6 3). vm_compute. discriminate.
Defined.

(** X13. The sizing operations compose: [reset] twice is [reset] once, and a
    [resize n] that follows [init size ratio] leaves the table that
    [init (n / ratio) ratio] makes when the ratio is positive (the initial
    size is forgotten), and leaves the table as [init] made it
    otherwise. *)
Theorem sizing_composes {E : Extern} :
  (∀ bc, data4ncache.reset (data4ncache.reset bc) = data4ncache.reset bc)
  ∧ (∀ bc size ratio n bc1, data4ncache.init bc size ratio = Done bc1 →
     data4ncache.resize bc1 n
     = (if bool_decide (ratio > 0) then data4ncache.init bc (n ÷ ratio) ratio
        else Done bc1))
  ∧ (∀ bc, data3ncache.reset (data3ncache.reset bc) = data3ncache.reset bc)
  ∧ (∀ bc size ratio n bc1, data3ncache.init bc size ratio = Done bc1 →
     data3ncache.resize bc1 n
     = (if bool_decide (ratio > 0) then data3ncache.init bc (n ÷ ratio) ratio
        else Done bc1)).
Proof.
  split; [apply reset4_idem |]. split; [apply init4_then_resize |].
  split; [apply reset3_idem | apply init3_then_resize].
Qed.

Lemma sizing_composes_witness :
  let bc := data4ncache.mk 0 5 6 [data4n.mk 9 3 5 0] in
  ∃ bc1, data4ncache.init (E := sample) bc 6 3 = Done bc1
       ∧ data4ncache.resize (E := sample) bc1 40
         = data4ncache.init (E := sample) bc (40 ÷ 3) 3.
Proof.
  intros bc. destruct (@sizing_composes sample) as (_ & Hresize & _).
  eexists. split; [reflexivity |].
  apply (Hresize bc 6 3 40). reflexivity.
Defined.

(** ** Setting the caches up *)

Section setup.
Context {E : Extern}.

Lemma cacheinit_Done b size ratio :
  let p := bdd_prime_gte (bdd_prime_gte (cacheinit_size b size)) in
  0 ≤ p →
  buddy.cacheinit b size ratio
  = Done (buddy.mk (buddy.nodes b) (buddy.varnum b) (buddy.error b) []
            (buddy.quantsetID b) (buddy.quantlast b)
            (applycache.mk (blank4 ratio p) 0) (itecache.mk (blank4 ratio p))
            (quantcache.mk (blank4 ratio p) 0) (appexcache.mk (blank4 ratio p) 0 0)
            (replacecache.mk (blank3 ratio p) 0)).
Proof.
  intros p Hp. unfold buddy.cacheinit. simpl.
  unfold applycache.init, itecache.init, quantcache.init, appexcache.init,
    replacecache.init. simpl.
  fold (cacheinit_size b size).
  rewrite !init4_Done, init3_Done by exact Hp. reflexivity.
Qed.

Lemma cacheinit_Panic b size ratio :
  bdd_prime_gte (bdd_prime_gte (cacheinit_size b size)) < 0 →
  buddy.cacheinit b size ratio = Panic.
Proof.
  intros Hp. unfold buddy.cacheinit. simpl.
  unfold applycache.init. simpl. fold (cacheinit_size b size).
  by rewrite init4_Panic.
Qed.

End setup.

(** X14. [cacheinit] gives the five caches one capacity, the result of the
    prime search applied twice to the size asked for (or to a quarter of
    the node table plus one when the size asked for is not positive), with
    every slot empty, the given ratio, and counters and discriminants at
    zero.  It replaces the register by one of length 0 and leaves the
    generation counter, [quantlast], the nodes and the error as they
    were.  It panics when the capacity found is negative. *)
Theorem cacheinit_sets_up {E : Extern} b size ratio :
  let p := bdd_prime_gte (bdd_prime_gte (cacheinit_size b size)) in
  (0 ≤ p →
   buddy.cacheinit b size ratio
   = Done (buddy.mk (buddy.nodes b) (buddy.varnum b) (buddy.error b) []
             (buddy.quantsetID b) (buddy.quantlast b)
             (applycache.mk (blank4 ratio p) 0) (itecache.mk (blank4 ratio p))
             (quantcache.mk (blank4 ratio p) 0)
             (appexcache.mk (blank4 ratio p) 0 0)
             (replacecache.mk (blank3 ratio p) 0)))
  ∧ (p < 0 → buddy.cacheinit b size ratio = Panic).
Proof.
  intros p. split.
  - apply cacheinit_Done.
  - apply cacheinit_Panic.
Qed.

Lemma cacheinit_sets_up_witness :
  0 ≤ next_prime (next_prime (cacheinit_size sample_buddy 0))
  ∧ buddy.cacheinit (E := sample) sample_buddy_late 0 2
    = Done (buddy.mk sample_nodes 8 None [] 2147483646 0
              (applycache.mk (blank4 2 2) 0) (itecache.mk (blank4 2 2))
              (quantcache.mk (blank4 2 2) 0) (appexcache.mk (blank4 2 2) 0 0)
              (replacecache.mk (blank3 2 2) 0)).
Proof.
  split; [vm_compute; discriminate |].
  apply (@cacheinit_sets_up sample sample_buddy_late 0 2). vm_compute. discriminate.
Defined.

(** X15. [cacheinit] leaves a register of length 0, and [quantset2cache]
    allocates the register only when the generation counter wraps: called
    right after [cacheinit] on a node of the table that is not a terminal,
    it panics on its first write to the register (index out of range),
    unless this very call makes the counter reach [math.MaxInt32]. *)
Theorem quantset2cache_after_cacheinit {E : Extern} {K : buddy.Kernel}
    b size ratio b' n nd fuel :
  buddy.cacheinit b size ratio = Done b' → 2 ≤ n →
  Go.index (buddy.nodes b) n = Done nd →
  Go.wrap 32 (buddy.quantsetID b + 1) ≠ Go.MaxInt32 →
  buddy.quantset2cache (S fuel) b' n = Panic.
Proof.
  intros Hinit Hn Hnd Hid.
  destruct (Z.lt_ge_cases
              (bdd_prime_gte (bdd_prime_gte (cacheinit_size b size))) 0)
    as [Hneg | Hpos].
  { by rewrite cacheinit_Panic in Hinit. }
  rewrite cacheinit_Done in Hinit by done. injection Hinit as <-.
  by apply (quantset2cache_unsized_register fuel _ n nd).
Qed.

Lemma quantset2cache_after_cacheinit_witness :
  ∃ b', buddy.cacheinit (E := sample) sample_buddy 0 2 = Done b'
      ∧ buddy.quantset2cache (K := sample_kernel) 3 b' 4 = Panic.
Proof.
  eexists. split; [reflexivity |].
  apply (@quantset2cache_after_cacheinit sample sample_kernel sample_buddy 0 2 _ 4
           (buddynode.mk 2 0 3) 2%nat);
    [reflexivity | lia | reflexivity | vm_compute; discriminate].
Defined.

(** ** Resizing every cache *)

Section resizing.
Context {E : Extern}.

Lemma resize4_resized bc size bc' :
  data4ncache.resize bc size = Done bc' → resized4 size bc bc'.
Proof.
  intros Hrun. split; [by eapply resize4_Done_empty |]. revert Hrun.
  unfold data4ncache.resize, Go.make. case_bool_decide as Hr.
  - case_bool_decide as Hp; simpl; [done |]. intros [= <-]. simpl.
    do 3 (split; [done |]). rewrite len_fmap. apply len_replicate. lia.
  - intros [= <-]. simpl. do 3 (split; [done |]). apply len_fmap.
Qed.

Lemma resize3_resized bc size bc' :
  data3ncache.resize bc size = Done bc' → resized3 size bc bc'.
Proof.
  intros Hrun. split; [by eapply resize3_Done_empty |]. revert Hrun.
  unfold data3ncache.resize, Go.make. case_bool_decide as Hr.
  - case_bool_decide as Hp; simpl; [done |]. intros [= <-]. simpl.
    do 3 (split; [done |]). rewrite len_fmap. apply len_replicate. lia.
  - intros [= <-]. simpl. do 3 (split; [done |]). apply len_fmap.
Qed.

Lemma cacheresize_fixed b :
  data4ncache.ratio (applycache.data4ncache (buddy.applycache b)) ≤ 0 →
  data4ncache.ratio (itecache.data4ncache (buddy.itecache b)) ≤ 0 →
  data4ncache.ratio (quantcache.data4ncache (buddy.quantcache b)) ≤ 0 →
  data4ncache.ratio (appexcache.data4ncache (buddy.appexcache b)) ≤ 0 →
  data3ncache.ratio (replacecache.data3ncache (buddy.replacecache b)) ≤ 0 →
  buddy.cacheresize b = Done (buddy.cachereset b).
Proof.
  intros Ha Hi Hq Hx Hr. unfold buddy.cacheresize.
  unfold applycache.resize, itecache.resize, quantcache.resize, appexcache.resize,
    replacecache.resize.
  rewrite !resize4_fixed, resize3_fixed by done. reflexivity.
Qed.

Lemma cacheresize_Done b b' :
  buddy.cacheresize b = Done b' →
  let n := Go.len (buddy.nodes b) in
  (buddy.nodes b' = buddy.nodes b ∧ buddy.varnum b' = buddy.varnum b
   ∧ buddy.error b' = buddy.error b ∧ buddy.quantset b' = buddy.quantset b
   ∧ buddy.quantsetID b' = buddy.quantsetID b
   ∧ buddy.quantlast b' = buddy.quantlast b)
  ∧ (resized4 n (applycache.data4ncache (buddy.applycache b))
       (applycache.data4ncache (buddy.applycache b'))
     ∧ applycache.op (buddy.applycache b') = applycache.op (buddy.applycache b))
  ∧ resized4 n (itecache.data4ncache (buddy.itecache b))
      (itecache.data4ncache (buddy.itecache b'))
  ∧ (resized4 n (quantcache.data4ncache (buddy.quantcache b))
       (quantcache.data4ncache (buddy.quantcache b'))
     ∧ quantcache.id (buddy.quantcache b') = quantcache.id (buddy.quantcache b))
  ∧ (resized4 n (appexcache.data4ncache (buddy.appexcache b))
       (appexcache.data4ncache (buddy.appexcache b'))
     ∧ appexcache.op (buddy.appexcache b') = appexcache.op (buddy.appexcache b)
     ∧ appexcache.id (buddy.appexcache b') = appexcache.id (buddy.appexcache b))
  ∧ (resized3 n (replacecache.data3ncache (buddy.replacecache b))
       (replacecache.data3ncache (buddy.replacecache b'))
     ∧ replacecache.id (buddy.replacecache b')
       = replacecache.id (buddy.replacecache b)).
Proof.
  unfold buddy.cacheresize, applycache.resize, itecache.resize, quantcache.resize,
    appexcache.resize, replacecache.resize.
  destruct (data4ncache.resize (applycache.data4ncache _) _) as [da | |] eqn:Ha;
    simpl; [| done | done].
  destruct (data4ncache.resize (itecache.data4ncache _) _) as [di | |] eqn:Hi;
    simpl; [| done | done].
  destruct (data4ncache.resize (quantcache.data4ncache _) _) as [dq | |] eqn:Hq;
    simpl; [| done | done].
  destruct (data4ncache.resize (appexcache.data4ncache _) _) as [dx | |] eqn:Hx;
    simpl; [| done | done].
  destruct (data3ncache.resize _ _) as [dr | |] eqn:Hr; simpl; [| done | done].
  intros [= <-]. simpl.
  apply resize4_resized in Ha, Hi, Hq, Hx. apply resize3_resized in Hr. done.
Qed.

End resizing.

(** X16. When [cacheresize] returns, every slot of the five caches is
    empty; a cache with a positive ratio has the capacity the prime search
    returns for the length of the node table divided by its ratio, and a
    cache with another ratio keeps its capacity; ratios, counters and
    discriminants are kept, and the rest of the engine (nodes, variable
    count, error, register, generation counter, [quantlast]) is untouched.
    With no positive ratio [cacheresize] is [cachereset]. *)
Theorem cacheresize_resizes {E : Extern} b :
  (∀ b', buddy.cacheresize b = Done b' →
     let n := Go.len (buddy.nodes b) in
     (buddy.nodes b' = buddy.nodes b ∧ buddy.varnum b' = buddy.varnum b
      ∧ buddy.error b' = buddy.error b ∧ buddy.quantset b' = buddy.quantset b
      ∧ buddy.quantsetID b' = buddy.quantsetID b
      ∧ buddy.quantlast b' = buddy.quantlast b)
     ∧ (resized4 n (applycache.data4ncache (buddy.applycache b))
          (applycache.data4ncache (buddy.applycache b'))
        ∧ applycache.op (buddy.applycache b') = applycache.op (buddy.applycache b))
     ∧ resized4 n (itecache.data4ncache (buddy.itecache b))
         (itecache.data4ncache (buddy.itecache b'))
     ∧ (resized4 n (quantcache.data4ncache (buddy.quantcache b))
          (quantcache.data4ncache (buddy.quantcache b'))
        ∧ quantcache.id (buddy.quantcache b') = quantcache.id (buddy.quantcache b))
     ∧ (resized4 n (appexcache.data4ncache (buddy.appexcache b))
          (appexcache.data4ncache (buddy.appexcache b'))
        ∧ appexcache.op (buddy.appexcache b') = appexcache.op (buddy.appexcache b)
        ∧ appexcache.id (buddy.appexcache b') = appexcache.id (buddy.appexcache b))
     ∧ (resized3 n (replacecache.data3ncache (buddy.replacecache b))
          (replacecache.data3ncache (buddy.replacecache b'))
        ∧ replacecache.id (buddy.replacecache b')
          = replacecache.id (buddy.replacecache b)))
  ∧ (data4ncache.ratio (applycache.data4ncache (buddy.applycache b)) ≤ 0 →
     data4ncache.ratio (itecache.data4ncache (buddy.itecache b)) ≤ 0 →
     data4ncache.ratio (quantcache.data4ncache (buddy.quantcache b)) ≤ 0 →
     data4ncache.ratio (appexcache.data4ncache (buddy.appexcache b)) ≤ 0 →
     data3ncache.ratio (replacecache.data3ncache (buddy.replacecache b)) ≤ 0 →
     buddy.cacheresize b = Done (buddy.cachereset b)).
Proof.
  split.
  - intros b'. apply cacheresize_Done.
  - apply cacheresize_fixed.
Qed.

Lemma cacheresize_resizes_witness :
  buddy.cacheresize (E := sample) sample_buddy
  = Done (buddy.cachereset sample_buddy)
  ∧ resized4 (E := sample) 7 (fresh4 7)
      (applycache.data4ncache
         (buddy.applycache (buddy.cachereset sample_buddy))).
Proof.
  destruct (@cacheresize_resizes sample sample_buddy) as (Hdone & Hfixed).
  assert (buddy.cacheresize (E := sample) sample_buddy
          = Done (buddy.cachereset sample_buddy)) as Hrun.
  { apply Hfixed; simpl; lia. }
  split; [exact Hrun |].
  destruct (Hdone _ Hrun) as (_ & (Hap & _) & _). exact Hap.
Defined.

(** ** The register and the variable set *)

Lemma mark_Forall (P : Z → Prop) qs id ls :
  Forall P qs → P id → Forall P (mark qs id ls).
Proof.
  revert qs. induction ls as [| l ls IH]; intros qs Hqs Hid; [done |].
  simpl. apply IH; [| done]. by apply Forall_insert.
Qed.

Lemma varset_levels b n path :
  varset_ok b n path →
  Forall (λ k, 0 ≤ k < Go.len (buddy.quantset b)) (buddynode.level <$> path).
Proof. intros (Hlen & _ & Hbound). rewrite Forall_fmap, Hlen. exact Hbound. Qed.

(** Where the marks already in the register are below the generation, the
    entries that read the generation after marking are the marked ones. *)
Lemma mark_exact qs id ls l :
  Forall (λ k, 0 ≤ k < Go.len qs) ls → Forall (λ g, g < id) qs →
  Go.index (mark qs id ls) l = Done id ↔ l ∈ ls.
Proof.
  intros Hin Hold. split.
  - intros Hidx. destruct (decide (l ∈ ls)) as [| Hnot]; [done |].
    pose proof Hidx as [Hl _]%index_Done.
    rewrite mark_index_other in Hidx; [| | lia | done].
    + apply index_Done in Hidx as [_ Hlook].
      pose proof (Forall_lookup_1 _ _ _ _ Hold Hlook). simpl in *. lia.
    + eapply Forall_impl; [exact Hin |]. simpl. intros; lia.
  - intros Hl. by apply mark_index_marked.
Qed.

(** X17. The register represents the variable set exactly.  Starting from
    a register whose marks are generations already used (as it is when the
    engine starts, counter and marks at zero), a call of [quantset2cache]
    on the head of a variable set returns, keeps that property, and leaves
    a register in which a level reads the current generation if and only if
    it is the level of a node of the chain: the marks of earlier variable
    sets are all stale, wrap of the counter included. *)
Theorem register_exact {K : buddy.Kernel} b n path fuel :
  register_ok b → 2 ≤ n → varset_ok b n path → (length path ≤ fuel)%nat →
  ∃ b', buddy.quantset2cache fuel b n = Done (None, b')
      ∧ register_ok b'
      ∧ Go.len (buddy.quantset b') = buddy.varnum b
      ∧ (∀ l, Go.index (buddy.quantset b') l = Done (buddy.quantsetID b')
              ↔ l ∈ buddynode.level <$> path).
Proof.
  unfold register_ok, Go.MaxInt32. intros ((Hid0 & Hid1) & Hmarks) Hn Hok Hfuel.
  pose proof (varset_levels _ _ _ Hok) as Hlevels.
  pose proof (varset_nonneg _ _ _ Hok) as Hv.
  destruct (decide (buddy.quantsetID b = Go.MaxInt32 - 1)) as [Hwrap | Hnext].
  - destruct (generation_wrap b Hwrap Hv) as (b1 & Hgen & Hid & Hqs1 & Hnodes & _).
    destruct (quantset2cache_after_generation b b1 n path fuel)
      as (b' & Hrun & Hid' & Hqs & _); try done.
    { rewrite Hqs1. by apply len_replicate. }
    rewrite Hid in Hid', Hqs. rewrite Hqs1 in Hqs.
    assert (Go.len (replicate (Z.to_nat (buddy.varnum b)) 0) = buddy.varnum b)
      as Hlen by (by apply len_replicate).
    exists b'. split; [done |]. rewrite Hqs, Hid'. split; [| split].
    + split; [lia |].
      apply mark_Forall; [| lia]. apply Forall_replicate. lia.
    + by rewrite len_mark.
    + intros l. apply mark_exact.
      * rewrite Hlen. destruct Hok as (Hlen' & _). by rewrite <- Hlen'.
      * apply Forall_replicate. lia.
  - unfold Go.MaxInt32 in Hnext.
    destruct (quantset2cache_after_generation b
                (buddy.with_quantsetID b (buddy.quantsetID b + 1)) n path fuel)
      as (b' & Hrun & Hid' & Hqs & _); try done.
    { apply generation_next. unfold Go.MaxInt32. lia. }
    { apply Hok. }
    simpl in Hid', Hqs.
    exists b'. split; [done |]. rewrite Hqs, Hid'. split; [| split].
    + split; [lia |].
      apply mark_Forall; [| lia].
      eapply Forall_impl; [exact Hmarks |]. simpl. intros; lia.
    + rewrite len_mark. apply Hok.
    + intros l. apply mark_exact; [done |].
      eapply Forall_impl; [exact Hmarks |]. simpl. intros; lia.
Qed.

Lemma sample_register_ok_late : register_ok sample_buddy_late.
Proof.
  split; [vm_compute; split; [discriminate | reflexivity] |].
  simpl. repeat constructor; simpl; lia.
Qed.

Lemma register_exact_witness :
  (register_ok sample_buddy_late ∧ 2 ≤ 6
   ∧ varset_ok sample_buddy_late 6 sample_path6
   ∧ (length sample_path6 ≤ 2)%nat)
  ∧ ∃ b', buddy.quantset2cache (K := sample_kernel) 2 sample_buddy_late 6
          = Done (None, b')
        ∧ register_ok b'
        ∧ Go.len (buddy.quantset b') = 8
        ∧ (∀ l, Go.index (buddy.quantset b') l = Done (buddy.quantsetID b')
                ↔ l ∈ buddynode.level <$> sample_path6).
Proof.
  split.
  - split; [apply sample_register_ok_late |]. split; [lia |].
    split; [apply sample_varset6_late | simpl; lia].
  - apply (@register_exact sample_kernel sample_buddy_late 6 sample_path6 2%nat);
      [apply sample_register_ok_late | lia | apply sample_varset6_late | simpl; lia].
Defined.

(** ** What quantset2cache leaves alone *)

Lemma quantset2cache_loop_same_engine fuel :
  ∀ b i b', buddy.quantset2cache_loop fuel b i = Done b' → same_engine b b'.
Proof.
  induction fuel as [| fuel IH]; intros b i b'; simpl.
  - case_bool_decide; [done |]. by intros [= ->].
  - case_bool_decide; [| by intros [= ->]].
    destruct (Go.index (buddy.nodes b) i) as [nd | |]; simpl; [| done | done].
    unfold Go.store. case_bool_decide; simpl; [| done].
    intros Hrun%IH. exact Hrun.
Qed.

Lemma generation_same_engine b b1 :
  buddy.quantset2cache_generation b = Done b1 → same_engine b b1.
Proof.
  unfold buddy.quantset2cache_generation. case_bool_decide.
  - destruct (Go.make 0 _); simpl; [| done | done]. by intros [= <-].
  - by intros [= <-].
Qed.

Lemma same_engine_trans b1 b2 b3 :
  same_engine b1 b2 → same_engine b2 b3 → same_engine b1 b3.
Proof.
  unfold same_engine.
  intros (-> & -> & -> & -> & -> & -> & -> & ->) (-> & -> & -> & -> & -> & -> & -> & ->).
  done.
Qed.

Lemma generation_no_wrap b :
  Go.wrap 32 (buddy.quantsetID b + 1) ≠ Go.MaxInt32 →
  buddy.quantset2cache_generation b
  = Done (buddy.with_quantsetID b (Go.wrap 32 (buddy.quantsetID b + 1))).
Proof.
  intros Hid. unfold buddy.quantset2cache_generation.
  by rewrite bool_decide_eq_false_2 by exact Hid.
Qed.

(** X18. A call of [quantset2cache] on a chain head that is not a terminal
    writes the register, the generation counter and [quantlast] only: when
    it returns, it returns no error and the nodes, the variable count, the
    error and the five caches are what they were.  When the counter does
    not wrap, the register entries of the levels that are not on the chain
    keep their marks. *)
Theorem quantset2cache_frame {K : buddy.Kernel} :
  (∀ fuel b n e b', 2 ≤ n → buddy.quantset2cache fuel b n = Done (e, b') →
     e = None ∧ same_engine b b')
  ∧ (∀ b n path fuel, 2 ≤ n → varset_ok b n path → (length path ≤ fuel)%nat →
     Go.wrap 32 (buddy.quantsetID b + 1) ≠ Go.MaxInt32 →
     ∃ b', buddy.quantset2cache fuel b n = Done (None, b')
         ∧ ∀ l, l ∉ buddynode.level <$> path →
                Go.index (buddy.quantset b') l = Go.index (buddy.quantset b) l).
Proof.
  split.
  - intros fuel b n e b' Hn. unfold buddy.quantset2cache.
    rewrite bool_decide_eq_false_2 by lia.
    destruct (buddy.quantset2cache_generation b) as [b1 | |] eqn:Hgen;
      simpl; [| done | done].
    destruct (buddy.quantset2cache_loop fuel b1 n) as [b2 | |] eqn:Hloop;
      simpl; [| done | done].
    intros [= <- <-]. split; [done |].
    eapply same_engine_trans.
    + by apply generation_same_engine.
    + by eapply quantset2cache_loop_same_engine.
  - intros b n path fuel Hn Hok Hfuel Hid.
    destruct (quantset2cache_after_generation b
                (buddy.with_quantsetID b (Go.wrap 32 (buddy.quantsetID b + 1)))
                n path fuel)
      as (b' & Hrun & _ & Hqs & _); try done.
    { by apply generation_no_wrap. }
    { apply Hok. }
    exists b'. split; [done |]. intros l Hl. rewrite Hqs. simpl.
    destruct (decide (0 ≤ l)) as [Hpos | Hneg].
    + apply mark_index_other; [| done | done].
      pose proof (varset_levels _ _ _ Hok) as Hlevels.
      eapply Forall_impl; [exact Hlevels |]. simpl. intros; lia.
    + rewrite !index_out_of_range; [done | lia | lia].
Qed.

Lemma quantset2cache_frame_witness :
  (2 ≤ 4 ∧ varset_ok sample_buddy 4 sample_path4 ∧ (length sample_path4 ≤ 3)%nat
   ∧ Go.wrap 32 (buddy.quantsetID sample_buddy + 1) ≠ Go.MaxInt32)
  ∧ ∃ b', buddy.quantset2cache (K := sample_kernel) 3 sample_buddy 4
          = Done (None, b')
        ∧ same_engine sample_buddy b'
        ∧ ∀ l, l ∉ buddynode.level <$> sample_path4 →
               Go.index (buddy.quantset b') l
               = Go.index (buddy.quantset sample_buddy) l.
Proof.
  destruct (@quantset2cache_frame sample_kernel) as (Hframe & Hmarks).
  split.
  - split; [lia |]. split; [apply sample_varset4 |]. split; [simpl; lia |].
    vm_compute. discriminate.
  - destruct (Hmarks sample_buddy 4 sample_path4 3%nat) as (b' & Hrun & Hkeep);
      [lia | apply sample_varset4 | simpl; lia | vm_compute; discriminate |].
    exists b'. split; [exact Hrun |]. split; [| exact Hkeep].
    apply (Hframe 3%nat sample_buddy 4 None b'); [lia | exact Hrun].
Defined.

(** ** Where quantset2cache panics *)

Section panics.
Context {K : buddy.Kernel}.

Lemma quantset2cache_node_out_of_range fuel b n :
  2 ≤ n → Go.len (buddy.nodes b) ≤ n →
  buddy.quantset2cache (S fuel) b n = Panic.
Proof.
  intros Hn Hlen. unfold buddy.quantset2cache.
  rewrite bool_decide_eq_false_2 by lia.
  destruct (buddy.quantset2cache_generation b) as [b1 | |] eqn:Hgen; simpl.
  - apply generation_same_engine in Hgen as (Hnodes & _).
    rewrite bool_decide_eq_true_2 by lia.
    rewrite Hnodes, index_out_of_range; [done | lia].
  - done.
  - revert Hgen. unfold buddy.quantset2cache_generation, Go.make.
    repeat case_bool_decide; done.
Qed.

Lemma quantset2cache_level_out_of_range fuel b n nd :
  2 ≤ n → Go.index (buddy.nodes b) n = Done nd →
  Go.wrap 32 (buddy.quantsetID b + 1) ≠ Go.MaxInt32 →
  ¬ (0 ≤ buddynode.level nd < Go.len (buddy.quantset b)) →
  buddy.quantset2cache (S fuel) b n = Panic.
Proof.
  intros Hn Hnd Hid Hlevel. unfold buddy.quantset2cache.
  rewrite bool_decide_eq_false_2 by lia.
  rewrite generation_no_wrap by done. simpl.
  rewrite bool_decide_eq_true_2 by lia. rewrite Hnd. simpl.
  by rewrite store_out_of_range.
Qed.

Lemma quantset2cache_level_out_of_range_wrap fuel b n nd :
  2 ≤ n → Go.index (buddy.nodes b) n = Done nd →
  Go.wrap 32 (buddy.quantsetID b + 1) = Go.MaxInt32 →
  ¬ (0 ≤ buddynode.level nd < buddy.varnum b) →
  buddy.quantset2cache (S fuel) b n = Panic.
Proof.
  intros Hn Hnd Hid Hlevel. unfold buddy.quantset2cache.
  rewrite bool_decide_eq_false_2 by lia.
  unfold buddy.quantset2cache_generation.
  rewrite bool_decide_eq_true_2 by exact Hid.
  unfold Go.make. simpl.
  destruct (bool_decide (buddy.varnum b < 0)) eqn:Hv; simpl; [done |].
  apply bool_decide_eq_false in Hv.
  rewrite bool_decide_eq_true_2 by lia. rewrite Hnd. simpl.
  rewrite store_out_of_range; [done |]. rewrite len_replicate by lia. done.
Qed.

End panics.

(** X19. [quantset2cache] checks its chain head against 2 only.  A chain
    head at or beyond the end of the node table panics (index out of
    range), and so does a first node whose level is not an index of the
    register: the register as it is when the counter does not wrap, the
    freshly allocated one of [varnum] entries when it does. *)
Theorem quantset2cache_bounds {K : buddy.Kernel} :
  (∀ fuel b n, 2 ≤ n → Go.len (buddy.nodes b) ≤ n →
     buddy.quantset2cache (S fuel) b n = Panic)
  ∧ (∀ fuel b n nd, 2 ≤ n → Go.index (buddy.nodes b) n = Done nd →
     Go.wrap 32 (buddy.quantsetID b + 1) ≠ Go.MaxInt32 →
     ¬ (0 ≤ buddynode.level nd < Go.len (buddy.quantset b)) →
     buddy.quantset2cache (S fuel) b n = Panic)
  ∧ (∀ fuel b n nd, 2 ≤ n → Go.index (buddy.nodes b) n = Done nd →
     Go.wrap 32 (buddy.quantsetID b + 1) = Go.MaxInt32 →
     ¬ (0 ≤ buddynode.level nd < buddy.varnum b) →
     buddy.quantset2cache (S fuel) b n = Panic).
Proof.
  split; [| split].
  - apply quantset2cache_node_out_of_range.
  - apply quantset2cache_level_out_of_range.
  - apply quantset2cache_level_out_of_range_wrap.
Qed.

Lemma quantset2cache_bounds_witness :
  (2 ≤ 7 ∧ Go.len (buddy.nodes sample_buddy) ≤ 7)
  ∧ buddy.quantset2cache (K := sample_kernel) 1 sample_buddy 7 = Panic
  ∧ buddy.quantset2cache (K := sample_kernel) 1
      (buddy.with_quantset sample_buddy [0; 0]) 4 = Panic.
Proof.
  destruct (@quantset2cache_bounds sample_kernel) as (Hnode & Hlevel & _).
  split; [split; [lia | vm_compute; discriminate] |]. split.
  - apply (Hnode 0%nat sample_buddy 7); [lia | vm_compute; discriminate].
  - apply (Hlevel 0%nat (buddy.with_quantset sample_buddy [0; 0]) 4
             (buddynode.mk 2 0 3));
      [lia | reflexivity | vm_compute; discriminate | vm_compute; intros [_ H]; done].
Defined.

(** ** The dump of the statistics *)

Lemma string_app_assoc (s1 s2 s3 : string) :
  (s1 +:+ s2) +:+ s3 = s1 +:+ (s2 +:+ s3).
Proof.
  induction s1 as [| c s1 IH]; [done |].
  change (String c ((s1 +:+ s2) +:+ s3) = String c (s1 +:+ (s2 +:+ s3))).
  by rewrite IH.
Qed.

Lemma string_app_nil_r (s : string) : s +:+ "" = s.
Proof.
  induction s as [| c s IH]; [done |].
  change (String c (s +:+ "") = String c s). by rewrite IH.
Qed.

Lemma newlines_app s1 s2 : newlines (s1 +:+ s2) = (newlines s1 + newlines s2)%nat.
Proof.
  induction s1 as [| c s1 IH]; [done |].
  change (newlines (String c (s1 +:+ s2))
          = (newlines (String c s1) + newlines s2)%nat).
  simpl. rewrite IH. lia.
Qed.

Lemma pretty_N_char_no_newline x : Ascii.eqb (pretty_N_char x) newline = false.
Proof. unfold pretty_N_char. by repeat case_match. Qed.

Lemma pretty_N_go_newlines x :
  ∀ s, newlines (pretty_N_go x s) = newlines s.
Proof.
  induction (N.lt_wf_0 x) as [x _ IH]. intros s.
  destruct (decide (0 < x)%N) as [Hx | Hx].
  - rewrite pretty_N_go_step by done. rewrite IH by (by apply N.div_lt).
    simpl. by rewrite pretty_N_char_no_newline.
  - assert (x = 0%N) as -> by lia. by rewrite pretty_N_go_0.
Qed.

Lemma pretty_N_newlines (x : N) : newlines (pretty x) = 0%nat.
Proof.
  unfold pretty, pretty_N. case_decide; [done |]. by rewrite pretty_N_go_newlines.
Qed.

Lemma pretty_Z_newlines (x : Z) : newlines (pretty x) = 0%nat.
Proof.
  destruct x as [| p | p]; [done | apply pretty_N_newlines |].
  unfold pretty, pretty_Z. rewrite newlines_app. simpl. apply pretty_N_newlines.
Qed.

(** Two texts that agree share their first line and what follows it. *)
Lemma first_line_inj d1 d2 r1 r2 :
  newlines d1 = 0%nat → newlines d2 = 0%nat →
  d1 +:+ String newline r1 = d2 +:+ String newline r2 → d1 = d2 ∧ r1 = r2.
Proof.
  revert d2. induction d1 as [| c d1 IH]; intros [| c' d2].
  - intros _ _ [= ->]. done.
  - intros _ Hd [= <- _]. simpl in Hd. lia.
  - intros Hd _ [= -> _]. simpl in Hd. lia.
  - intros H1 H2 [= -> Heq]. simpl in H1, H2.
    destruct (IH d2) as [-> ->]; [lia | lia | exact Heq | done].
Qed.

Lemma Sprintf_inj label x1 x2 r1 r2 :
  cacheStat.Sprintf label x1 +:+ r1 = cacheStat.Sprintf label x2 +:+ r2 →
  x1 = x2 ∧ r1 = r2.
Proof.
  unfold cacheStat.Sprintf. rewrite !string_app_assoc.
  intros Heq%(inj (String.app label)).
  change (pretty x1 +:+ String newline r1 = pretty x2 +:+ String newline r2) in Heq.
  apply first_line_inj in Heq as [Hx ->]; [| apply pretty_Z_newlines ..].
  by apply (inj pretty) in Hx.
Qed.

Lemma Sprintf_newlines label x :
  newlines (cacheStat.Sprintf label x) = (newlines label + 1)%nat.
Proof.
  unfold cacheStat.Sprintf. rewrite !newlines_app, pretty_Z_newlines. done.
Qed.

(** X20. The dump of the statistics of the unique node table is four lines,
    each a label followed by a counter in decimal, and it determines the
    four counters: two records with the same dump are equal. *)
Theorem cacheStat_String_inj :
  (∀ c1 c2, cacheStat.String c1 = cacheStat.String c2 → c1 = c2)
  ∧ (∀ c, newlines (cacheStat.String c) = 4%nat)
  ∧ (∀ c, ∃ rest, cacheStat.String c
                  = "Unique Access:  " +:+ pretty (cacheStat.uniqueAccess c)
                    +:+ String newline rest).
Proof.
  split; [| split].
  - intros [a1 b1 h1 m1] [a2 b2 h2 m2].
    unfold cacheStat.String. simpl. rewrite !string_app_assoc.
    intros [-> Heq]%Sprintf_inj. apply Sprintf_inj in Heq as [-> Heq].
    apply Sprintf_inj in Heq as [-> Heq].
    rewrite <- (string_app_nil_r (cacheStat.Sprintf _ m1)) in Heq.
    rewrite <- (string_app_nil_r (cacheStat.Sprintf _ m2)) in Heq.
    apply Sprintf_inj in Heq as [-> _]. done.
  - intros c. unfold cacheStat.String.
    rewrite !newlines_app, !Sprintf_newlines. done.
  - intros c. eexists. unfold cacheStat.String, cacheStat.Sprintf at 1.
    rewrite !string_app_assoc. reflexivity.
Qed.
